(** * XITE_GNN: interval segmentation, slicing, feature repair, frequency
    analysis, adjacency and k-fold bookkeeping

  A shallow embedding of the array code of the X-ITE pain-recognition
  pipeline.  Frame indices and integer labels are [Z]; a float label that
  may be NaN is [option Z] with [None] for NaN; numpy's element-wise
  operations are written as list functions; Python functions that may
  raise return [option]. *)

From Stdlib Require Import String.
From Stdlib Require Import ZArith List Bool Lia QArith Lqa Sorted.
Import ListNotations.
Open Scope Z_scope.

Set Implicit Arguments.

(** ** numpy and Python list primitives *)

Module Np.

(** Sequencing of calls that may raise. *)
Definition bind {A B} (m : option A) (f : A -> option B) : option B :=
  match m with
  | Some a => f a
  | None => None
  end.

Notation "x <- m ;; k" := (bind m (fun x => k))
  (at level 61, m at next level, right associativity).

(** A cell of a float array that holds integral labels; [None] is NaN.
    The per-frame label files are written from a float array, so the label
    arrays of the pipeline are float arrays. *)
Definition label := option Z.

(** [a != b] on floats: NaN differs from everything, itself included. *)
Definition neq (a b : label) : bool :=
  match a, b with
  | Some x, Some y => negb (x =? y)
  | _, _ => true
  end.

(** [a == b] on floats. *)
Definition eqb (a b : label) : bool := negb (neq a b).

(** [np.isin(a, l)] for one cell. *)
Definition isin (a : label) (l : list Z) : bool :=
  match a with
  | Some x => existsb (Z.eqb x) l
  | None => false
  end.

(** [a * k] on floats. *)
Definition mul (a : label) (k : Z) : label := option_map (fun x => x * k) a.

(** [l[i]] for an in-range, non-negative index. *)
Definition get {A} (l : list A) (i : Z) : option A :=
  if i <? 0 then None else nth_error l (Z.to_nat i).

Fixpoint zip_with {A B C} (f : A -> B -> C) (l : list A) (m : list B) : list C :=
  match l, m with
  | a :: l', b :: m' => f a b :: zip_with f l' m'
  | _, _ => []
  end.

Fixpoint nonzero_from (i : Z) (mask : list bool) : list Z :=
  match mask with
  | [] => []
  | b :: t => if b then i :: nonzero_from (i + 1) t else nonzero_from (i + 1) t
  end.

(** [mask.nonzero()[0]]: the positions holding [True], ascending. *)
Definition nonzero (mask : list bool) : list Z := nonzero_from 0 mask.

(** [np.roll(mask, -1)]: every cell moves one place left, the first
    wraps around to the end. *)
Definition roll_left {A} (l : list A) : list A :=
  match l with
  | [] => []
  | a :: t => t ++ [a]
  end.

(** [l[idxs]] (integer-array indexing) for non-negative indices:
    IndexError when one is out of range. *)
Fixpoint take {A} (l : list A) (idxs : list Z) : option (list A) :=
  match idxs with
  | [] => Some []
  | i :: rest =>
      match get l i, take l rest with
      | Some a, Some r => Some (a :: r)
      | _, _ => None
      end
  end.

(** [l[mask]] (boolean-array indexing). *)
Fixpoint compress {A} (mask : list bool) (l : list A) : list A :=
  match mask, l with
  | b :: m, a :: t => if b then a :: compress m t else compress m t
  | _, _ => []
  end.

(** [target[mask] = vals], where [vals] holds one value for every cell
    selected by [mask]: the selected cells take the values in order. *)
Fixpoint put {A} (mask : list bool) (target vals : list A) : list A :=
  match mask, target with
  | b :: m, a :: t =>
      if b then
        match vals with
        | v :: vs => v :: put m t vs
        | [] => a :: put m t []
        end
      else a :: put m t vals
  | _, _ => target
  end.

Fixpoint insert_unique (x : Z) (l : list Z) : list Z :=
  match l with
  | [] => [x]
  | y :: t =>
      if x <? y then x :: l
      else if x =? y then l
      else y :: insert_unique x t
  end.

(** [np.unique] and [Index.unique().sort_values()]: the distinct values,
    ascending. *)
Definition unique (l : list Z) : list Z := fold_right insert_unique [] l.

(** A list comprehension whose body may raise. *)
Fixpoint mapM {A B} (f : A -> option B) (l : list A) : option (list B) :=
  match l with
  | [] => Some []
  | a :: t => b <- f a ;; r <- mapM f t ;; Some (b :: r)
  end.

End Np.

(** ** Label tables of the data set (class [XITE]) *)

Module XITE.

Definition labels_invalid : list Z := [-10; -11].
Definition labels_valid : list Z := [-1; -2; -3; -4; -5; -6; 0; 1; 2; 3; 4; 5; 6].
Definition labels_pain : list Z := [-1; -2; -3; -4; -5; -6; 1; 2; 3; 4; 5; 6].
Definition labels_base : list Z :=
  [-100; -200; -300; -400; -500; -600; 100; 200; 300; 400; 500; 600].

Inductive group := pH | pE | tH | tE | BpH | BpE | BtH | BtE.

(** [_get_label_group]: [None] is the ValueError of an unknown label. *)
Definition _get_label_group (l : Z) : option group :=
  if existsb (Z.eqb l) [1; 2; 3] then Some pH
  else if existsb (Z.eqb l) [-1; -2; -3] then Some pE
  else if existsb (Z.eqb l) [4; 5; 6] then Some tH
  else if existsb (Z.eqb l) [-4; -5; -6] then Some tE
  else if existsb (Z.eqb l) [100; 200; 300] then Some BpH
  else if existsb (Z.eqb l) [-100; -200; -300] then Some BpE
  else if existsb (Z.eqb l) [400; 500; 600] then Some BtH
  else if existsb (Z.eqb l) [-400; -500; -600] then Some BtE
  else None.

(** The baseline group paired with a pain group (["B" + pain_group]). *)
Definition B (g : group) : group :=
  match g with
  | pH => BpH | pE => BpE | tH => BtH | tE => BtE
  | other => other
  end.

End XITE.

(** ** Interval segmenter ([Subject_Preprocessor._compute_intervals_info]) *)

Module Intervals.
Import Np.

Record info := {
  start_idxs : list Z;
  end_idxs : list Z;
  interval_labels : list label;
  durations : list Z
}.

(** [labels[:-1] != labels[1:]] *)
Definition adjacent_neq (labels : list label) : list bool :=
  zip_with neq (removelast labels) (tl labels).

(** [np.concatenate(([True], labels[:-1] != labels[1:]))] *)
Definition is_interval_start (labels : list label) : list bool :=
  true :: adjacent_neq labels.

(** [np.concatenate(([np.nan], interval_labels[0:-1]))] *)
Definition pre_of {A} (nan : A) (l : list A) : list A := nan :: removelast l.

(** The mask of line 325 as Python parses it: [&] binds tighter than
    [==], so the test is [interval_labels == (0 & np.isin(...))]. *)
Definition is_baseline_interval (interval_labels pre_interval_labels : list label)
  : list bool :=
  zip_with (fun l p => eqb l (Some (Z.land 0 (Z.b2z (isin p XITE.labels_pain)))))
           interval_labels pre_interval_labels.

Definition _compute_intervals_info (labels : list label) : option info :=
  let starts := nonzero (is_interval_start labels) in
  let ends := nonzero (roll_left (is_interval_start labels)) in
  let durs := zip_with (fun e s => e - s + 1) ends starts in
  match take labels starts with
  | None => None
  | Some ilabels =>
      let pre := pre_of None ilabels in
      let mask := is_baseline_interval ilabels pre in
      let ilabels' := put mask ilabels (map (fun p => mul p 100) (compress mask pre)) in
      Some {| start_idxs := starts; end_idxs := ends;
              interval_labels := ilabels'; durations := durs |}
  end.

(** The labels before the relabelling step, [labels[start_idxs]]. *)
Definition raw_interval_labels (labels : list label) : option (list label) :=
  take labels (nonzero (is_interval_start labels)).

(** The interval starts after frame 0. *)
Definition cuts (labels : list label) : list Z :=
  nonzero_from 1 (adjacent_neq labels).

End Intervals.

(** ** Slice extractor ([_compute_slices_info], [_extract_slices]) *)

Module Slices.
Import Np XITE Intervals.

(** The per-group slicing tables of the configuration module. *)
Record config := {
  slice_shifts : group -> Z;
  slice_lengths : group -> Z;
  interval_min_lengths : group -> Z;
  pre_interval_min_lengths : group -> Z
}.

(** The tables of [config_video.py]. *)
Definition config_video : config := {|
  slice_shifts := fun g =>
    match g with
    | pH | pE | tH | tE => 0
    | BpH | BpE => 4
    | BtH | BtE => 120
    end;
  slice_lengths := fun g =>
    match g with
    | pH | pE | BpH | BpE => 6
    | tH | tE | BtH | BtE => 60
    end;
  interval_min_lengths := fun g =>
    match g with
    | pH => 4 | pE => 5 | _ => 60
    end;
  pre_interval_min_lengths := fun g =>
    match g with
    | pH | pE => 8 | _ => 60
    end
|}.

(** [np.concatenate((l[1::], [np.nan]))] *)
Definition post_of {A} (nan : A) (l : list A) : list A := tl l ++ [nan].

(** [a >= b] and [a <= b] with a float side: false on NaN. *)
Definition ge (a : option Z) (b : Z) : bool :=
  match a with
  | Some x => b <=? x
  | None => false
  end.

Definition le (a : Z) (b : option Z) : bool :=
  match b with
  | Some y => a <=? y
  | None => false
  end.

Definition and_mask : list bool -> list bool -> list bool := zip_with andb.

(** One turn of the loop over [labels_pain]: the start indices of the
    pain slices and of the baseline slices of [label]. *)
Definition slices_of_label (cfg : config) (f_sampling : Z) (r : info)
    (pre_interval_labels post_interval_labels : list label)
    (pre_durations post_durations : list (option Z)) (label : Z)
  : option (list Z * list Z) :=
  pain_group <- _get_label_group label ;;
  let is_pain_intervals :=
    and_mask (and_mask (and_mask (and_mask
      (map (fun l => eqb l (Some label)) (interval_labels r))
      (map (fun p => isin p (labels_base ++ [0])) pre_interval_labels))
      (map (fun p => isin p (labels_base ++ [0])) post_interval_labels))
      (map (fun d => ge d (pre_interval_min_lengths cfg pain_group)) pre_durations))
      (map (fun d => interval_min_lengths cfg pain_group * f_sampling - 2 <=? d)
           (durations r)) in
  let pain_interval_ids := nonzero is_pain_intervals in
  durs <- take (durations r) pain_interval_ids ;;
  let nof_interlapping_frames :=
    map (fun d => slice_shifts cfg pain_group * f_sampling
                  + slice_lengths cfg pain_group * f_sampling - d) durs in
  posts <- take post_durations pain_interval_ids ;;
  let pain_interval_ids :=
    compress (zip_with le nof_interlapping_frames posts) pain_interval_ids in
  let is_base_intervals :=
    and_mask (map (fun l => eqb l (Some (label * 100))) (interval_labels r))
             (map (fun p => eqb p (Some label)) pre_interval_labels) in
  let base_interval_ids := nonzero is_base_intervals in
  bdurs <- take (durations r) base_interval_ids ;;
  let base_interval_ids :=
    compress (map (fun d => slice_shifts cfg (B pain_group) * f_sampling
                            + slice_lengths cfg (B pain_group) * f_sampling <=? d) bdurs)
             base_interval_ids in
  pstarts <- take (start_idxs r) pain_interval_ids ;;
  bstarts <- take (start_idxs r) base_interval_ids ;;
  Some (map (fun s => s + slice_shifts cfg pain_group * f_sampling) pstarts,
        map (fun s => s + slice_shifts cfg (B pain_group) * f_sampling) bstarts).

Fixpoint slices_loop (body : Z -> option (list Z * list Z)) (todo : list Z)
    (slices_start_idxs slices_labels : list Z) : option (list Z * list Z) :=
  match todo with
  | [] => Some (slices_start_idxs, slices_labels)
  | label :: rest =>
      pb <- body label ;;
      let pain_slice_start_idxs := fst pb in
      let base_slice_start_idxs := snd pb in
      slices_loop body rest
        ((slices_start_idxs ++ pain_slice_start_idxs) ++ base_slice_start_idxs)
        ((slices_labels ++ repeat label (length pain_slice_start_idxs))
           ++ repeat (label * 100) (length base_slice_start_idxs))
  end.

(** Returns [(slices_start_idxs, slices_labels)]. *)
Definition _compute_slices_info (cfg : config) (labels : list label) (f_sampling : Z)
  : option (list Z * list Z) :=
  r <- _compute_intervals_info labels ;;
  let pre_interval_labels := pre_of None (interval_labels r) in
  let pre_durations := pre_of None (map Some (durations r)) in
  let post_interval_labels := post_of None (interval_labels r) in
  let post_durations := post_of None (map Some (durations r)) in
  slices_loop
    (slices_of_label cfg f_sampling r pre_interval_labels post_interval_labels
       pre_durations post_durations)
    labels_pain [] [].

(** [data.iloc[a:b]] with Python's slice rules: a negative bound counts
    from the end, and both bounds are clipped to the table. *)
Definition iloc {A} (data : list A) (a b : Z) : list A :=
  let n := Z.of_nat (length data) in
  let clip x := if x <? 0 then Z.max (x + n) 0 else Z.min x n in
  firstn (Z.to_nat (clip b - clip a)) (skipn (Z.to_nat (clip a)) data).

(** A table with its default row index [0 .. n-1]. *)
Definition with_index {A} (data : list A) : list (Z * A) :=
  combine (map Z.of_nat (seq 0 (length data))) data.

(** One slice: its label, the window bounds the code computes and the
    rows, with their global index, that [iloc] hands back. *)
Record slice (A : Type) := {
  slice_label : Z;
  start_idx : Z;
  end_idx : Z;
  slice_data : list (Z * A)
}.

Fixpoint slices_of {A} (cfg : config) (data : list (Z * A)) (f_sampling : Z)
    (info : list (Z * Z)) : option (list (slice A)) :=
  match info with
  | [] => Some []
  | (start, label) :: rest =>
      pain_group <- _get_label_group label ;;
      let slice_len := slice_lengths cfg pain_group * f_sampling in
      let end_ := start + slice_len in
      more <- slices_of cfg data f_sampling rest ;;
      Some ({| slice_label := label; start_idx := start; end_idx := end_;
               slice_data := iloc data start (end_ + 1) |} :: more)
  end.

Definition _extract_slices {A} (cfg : config) (data : list A) (labels : list label)
    (f_sampling : Z) : option (list (slice A)) :=
  info <- _compute_slices_info cfg labels f_sampling ;;
  slices_of cfg (with_index data) f_sampling (combine (fst info) (snd info)).

(** The scenario policy: [pH] with shift 0, length 4, minimum interval 4
    and minimum predecessor 3, its baseline group with the same window,
    every other group as in [config_video.py]. *)
Definition config_scenario : config := {|
  slice_shifts := fun g =>
    match g with
    | pH | BpH => 0
    | other => slice_shifts config_video other
    end;
  slice_lengths := fun g =>
    match g with
    | pH | BpH => 4
    | other => slice_lengths config_video other
    end;
  interval_min_lengths := fun g =>
    match g with
    | pH => 4
    | other => interval_min_lengths config_video other
    end;
  pre_interval_min_lengths := fun g =>
    match g with
    | pH => 3
    | other => pre_interval_min_lengths config_video other
    end
|}.

Definition labels_scenario : list label :=
  map Some [0; 0; 0; 1; 1; 1; 1; 0; 0; 0; 0; 0; 0; 0; 0].

End Slices.

(** ** Float cells *)

Module Float.

(** A float64 cell: a finite value, NaN or an infinity.  Finite values are
    exact rationals; rounding and overflow are left out. *)
Inductive cell := Fin (q : Q) | NaN | PInf | NInf.

Definition is_nan (c : cell) : bool :=
  match c with
  | NaN => true
  | _ => false
  end.

Definition is_finite (c : cell) : bool :=
  match c with
  | Fin _ => true
  | _ => false
  end.

(** [c >= q]: false on NaN. *)
Definition ge (c : cell) (q : Q) : bool :=
  match c with
  | Fin x => Qle_bool q x
  | PInf => true
  | NaN | NInf => false
  end.

Definition add (a b : cell) : cell :=
  match a, b with
  | Fin x, Fin y => Fin (x + y)
  | NaN, _ | _, NaN => NaN
  | PInf, NInf | NInf, PInf => NaN
  | PInf, _ | _, PInf => PInf
  | NInf, _ | _, NInf => NInf
  end.

(** [np.divide(x, h)] of a finite value by an integer: dividing by zero
    gives NaN for 0/0 and a signed infinity otherwise. *)
Definition divide (x : Q) (h : Z) : cell :=
  if (h =? 0)%Z then
    if Qeq_bool x 0 then NaN
    else if Qle_bool 0 x then PInf else NInf
  else Fin (x / inject_Z h).

(** [c / n] for a count [n]. *)
Definition div_count (c : cell) (n : nat) : cell :=
  match c with
  | Fin x => divide x (Z.of_nat n)
  | other => other
  end.

End Float.

(** ** Feature repair ([Subject_Preprocessor._repair_features]) *)

Module Repair.
Import Np Float.

(** One row of the feature table: the [label] level of its index and its
    feature columns. *)
Record row := {
  row_label : Z;
  values : list cell
}.

Inductive strategy :=
| Mean
| Delete
| Replacement (v : cell)
| Unsupported.

(** What the call hands back: a table, Python's [None], or a ValueError. *)
Inductive returned :=
| Table (t : list row)
| PyNone
| ValueError.

(** [features.replace([np.inf, -np.inf], np.nan, inplace=True)] *)
Definition replace_inf (t : list row) : list row :=
  map (fun r => {| row_label := row_label r;
                   values := map (fun c => match c with
                                           | PInf | NInf => NaN
                                           | other => other
                                           end) (values r) |}) t.

(** [features.dropna(axis=0, how="any", inplace=True)] *)
Definition dropna (t : list row) : list row :=
  filter (fun r => negb (existsb is_nan (values r))) t.

(** [features.fillna(value=v, axis=0, inplace=True)] for a scalar. *)
Definition fillna (v : cell) (t : list row) : list row :=
  map (fun r => {| row_label := row_label r;
                   values := map (fun c => if is_nan c then v else c) (values r) |}) t.

(** The mean of one column, NaN cells skipped; NaN when nothing is left. *)
Definition mean_of (column : list cell) : cell :=
  let present := filter (fun c => negb (is_nan c)) column in
  match present with
  | [] => NaN
  | _ => div_count (fold_left add present (Fin 0)) (length present)
  end.

Definition ncols (t : list row) : nat :=
  match t with
  | [] => 0
  | r :: _ => length (values r)
  end.

(** [data_label.mean()]: one mean per column. *)
Definition means (t : list row) : list cell :=
  map (fun j => mean_of (map (fun r => nth j (values r) NaN) t)) (seq 0 (ncols t)).

(** [row.fillna(value=means)]: a NaN cell takes the mean of its column. *)
Fixpoint fill_row (ms vals : list cell) : list cell :=
  match vals, ms with
  | c :: vals', m :: ms' => (if is_nan c then m else c) :: fill_row ms' vals'
  | _, _ => vals
  end.

(** One turn of the loop over the labels: the rows of [label] are filled
    with the column means of those rows and written back. *)
Definition fill_label (t : list row) (label : Z) : list row :=
  let data_label := filter (fun r => row_label r =? label)%Z t in
  let ms := means data_label in
  map (fun r => if (row_label r =? label)%Z
                then {| row_label := row_label r; values := fill_row ms (values r) |}
                else r) t.

(** Returns the value handed back and the table object as the call leaves
    it (every step works in place). *)
Definition _repair_features (features : list row) (s : strategy)
  : returned * list row :=
  let features := replace_inf features in
  match s with
  | Delete =>
      let features := dropna features in
      (PyNone, features)
  | Mean =>
      let features := fold_left fill_label (unique (map row_label features)) features in
      let features := dropna features in
      (Table features, features)
  | Replacement v =>
      let features := fillna v features in
      (Table features, features)
  | Unsupported => (ValueError, features)
  end.

(** The cell is finite or NaN. *)
Definition no_inf (c : cell) : bool :=
  match c with
  | PInf | NInf => false
  | _ => true
  end.

(** No cell of the table is an infinity. *)
Definition inf_free (t : list row) : Prop :=
  forall r, In r t -> forallb no_inf (values r) = true.

End Repair.

(** ** Finite differences ([compute_derivative]) *)

Module Derivative.
Import Float.

(** [[np.divide(signal[i + h] - signal[i], h) for i in range(n - 1 - h)]] *)
Definition compute_derivative (signal : list Q) (h : nat) : list cell :=
  map (fun i => divide (nth (i + h) signal 0%Q - nth i signal 0%Q) (Z.of_nat h))
      (seq 0 (length signal - 1 - h)).

End Derivative.

(** ** Symmetrised conditional frequencies ([compute_rel_AU_freq_cond_symm]) *)

Module Adjacency.
Import Np Float.

Definition name := String.string.

(** A data frame indexed by Action-Unit names on both axes: its column
    names and the cell found by [df.loc[row, column]], [None] for a
    KeyError. *)
Record frame (A : Type) := {
  columns : list name;
  loc : name -> name -> option A
}.

Definition mem (a : name) (l : list name) : bool := existsb (String.eqb a) l.

(** [pd.DataFrame(0, index=names, columns=names)] *)
Definition zeros (names : list name) : frame cell := {|
  columns := names;
  loc := fun a b => if mem a names && mem b names then Some (Fin 0) else None
|}.

(** [df.loc[i, j] = v] *)
Definition set_loc {A} (df : frame A) (i j : name) (v : A) : frame A := {|
  columns := columns df;
  loc := fun a b => if String.eqb a i && String.eqb b j then Some v else loc df a b
|}.

Fixpoint for_each {S} (l : list name) (body : name -> S -> option S) (s : S)
  : option S :=
  match l with
  | [] => Some s
  | x :: t => s' <- body x s ;; for_each t body s'
  end.

(** [df_counts_and.loc[AUi, AUj] / df_counts_or.loc[AUi, AUj]] *)
Definition ratio (df_counts_and df_counts_or : frame Z) (AUi AUj : name)
  : option cell :=
  a <- loc df_counts_and AUi AUj ;;
  b <- loc df_counts_or AUi AUj ;;
  Some (divide (inject_Z a) b).

Definition compute_rel_AU_freq_cond_symm (df_counts_and df_counts_or : frame Z)
  : option (frame cell) :=
  let AU_names := columns df_counts_and in
  for_each AU_names
    (fun AUi df =>
       for_each AU_names
         (fun AUj df =>
            v <- ratio df_counts_and df_counts_or AUi AUj ;;
            Some (set_loc df AUi AUj v))
         df)
    (zeros AU_names).

(** A count frame given by its names and a table of cells. *)
Definition frame_of (names : list name) (f : name -> name -> Z) : frame Z := {|
  columns := names;
  loc := fun a b => if mem a names && mem b names then Some (f a b) else None
|}.

(** The cell at (AUi, AUj) is the cell at (AUj, AUi). *)
Definition symmetric {A} (df : frame A) : Prop :=
  forall AUi AUj, loc df AUi AUj = loc df AUj AUi.

(** Every pair of column names of [names] has a cell in [df]. *)
Definition complete {A} (names : list name) (df : frame A) : Prop :=
  forall AUi AUj, mem AUi names = true -> mem AUj names = true ->
                  loc df AUi AUj <> None.

(** An aggregated count table: the Action-Unit names and, for every pair
    of them, the AND count and the OR count. *)
Record count_table := {
  AU_names : list name;
  counts_and : name -> name -> Z;
  counts_or : name -> name -> Z
}.

Definition df_counts_and (t : count_table) : frame Z :=
  frame_of (AU_names t) (counts_and t).

Definition df_counts_or (t : count_table) : frame Z :=
  frame_of (AU_names t) (counts_or t).

(** The adjacency of the "symm" method for a count table. *)
Definition adjacency_symm (t : count_table) : option (frame cell) :=
  compute_rel_AU_freq_cond_symm (df_counts_and t) (df_counts_or t).

(** Two classification channels with symmetric counts. *)
Definition demo_table : count_table := {|
  AU_names := ["AU01_c"%string; "AU02_c"%string];
  counts_and := fun a b => if String.eqb a b then 3 else 1;
  counts_or := fun a b => if String.eqb a b then 3 else 5
|}.

(** The float comparison [a == b]: false as soon as one side is NaN. *)
Definition float_eq (a b : cell) : bool :=
  match a, b with
  | Fin x, Fin y => Qeq_bool x y
  | PInf, PInf | NInf, NInf => true
  | _, _ => false
  end.

(** [adjacency.loc[AUi, AUj] == adjacency.loc[AUj, AUi]] *)
Definition cells_equal (adjacency : frame cell) (AUi AUj : name) : option bool :=
  a <- loc adjacency AUi AUj ;;
  b <- loc adjacency AUj AUi ;;
  Some (float_eq a b).

(** Two classification channels of which the second is never active:
    the first is active in three frames. *)
Definition silent_unit_table : count_table := {|
  AU_names := ["AU01_c"%string; "AU28_c"%string];
  counts_and := fun a b =>
                  if String.eqb a "AU01_c" && String.eqb b "AU01_c" then 3 else 0;
  counts_or := fun a b =>
                 if String.eqb a "AU01_c" || String.eqb b "AU01_c" then 3 else 0
|}.

End Adjacency.

(** ** Best-checkpoint bookkeeping of [kfold_CV] *)

Module Training.

(** What [model.state_dict()] hands out: the tensors the model itself
    owns, not a copy of them. *)
Inductive ref := model_tensors.

Definition Qgt_bool (a b : Q) : bool := negb (Qle_bool a b).

Section KFoldCV.

(** The values of all parameter tensors of the model. *)
Variable params : Type.
(** [model.apply(reset_params)] at the start of a fold. *)
Variable reset_params : nat -> params -> params.
(** [train_epoch] (with the scheduler step) of a fold and epoch: the
    optimizer updates the tensors in place. *)
Variable train_epoch : nat -> nat -> params -> params.
(** The test accuracy [evaluate_epoch] finds on the test set of a fold. *)
Variable test_accuracy : nat -> params -> Q.

Record state := {
  model : params;
  best_params : option ref;
  best_acc : Q;
  test_acc_history : list (nat * Q)
}.

(** Reading a reference when the run is in state [st]. *)
Definition read (st : state) (r : ref) : params :=
  match r with
  | model_tensors => model st
  end.

Definition state_dict (st : state) : ref := model_tensors.

(** One turn of the loop over the epochs. *)
Definition epoch_step (fold : nat) (st : state) (epoch : nat) : state :=
  let trained := train_epoch fold epoch (model st) in
  let test_acc := test_accuracy fold trained in
  let st1 := {| model := trained; best_params := best_params st;
                best_acc := best_acc st; test_acc_history := test_acc_history st |} in
  let st2 :=
    if Qgt_bool test_acc (best_acc st1)
    then {| model := model st1; best_params := Some (state_dict st1);
            best_acc := test_acc; test_acc_history := test_acc_history st1 |}
    else st1 in
  {| model := model st2; best_params := best_params st2; best_acc := best_acc st2;
     test_acc_history := test_acc_history st2 ++ [(fold, test_acc)] |}.

(** One turn of the loop over the folds: reset, initial evaluation, epochs. *)
Definition fold_step (num_epochs : nat) (st : state) (fold : nat) : state :=
  let fresh := reset_params fold (model st) in
  let st0 := {| model := fresh; best_params := best_params st; best_acc := best_acc st;
                test_acc_history :=
                  test_acc_history st ++ [(fold, test_accuracy fold fresh)] |} in
  fold_left (epoch_step fold) (seq 0 num_epochs) st0.

Definition run (k num_epochs : nat) (initial : params) : state :=
  fold_left (fold_step num_epochs) (seq 0 k)
    {| model := initial; best_params := None; best_acc := 0;
       test_acc_history := [] |}.

(** The value of [best_params] as the caller of [kfold_CV] reads it. *)
Definition kfold_CV (k num_epochs : nat) (initial : params) : option params :=
  let st := run k num_epochs initial in
  option_map (read st) (best_params st).

(** The checkpoints of a run in the order they are reached: the test
    accuracy and the parameter values at the end of every epoch. *)
Definition epoch_checkpoints (fold num_epochs : nat) (p : params)
  : params * list (Q * params) :=
  fold_left
    (fun acc epoch =>
       let trained := train_epoch fold epoch (fst acc) in
       (trained, snd acc ++ [(test_accuracy fold trained, trained)]))
    (seq 0 num_epochs) (p, []).

Definition checkpoints (k num_epochs : nat) (initial : params) : list (Q * params) :=
  snd (fold_left
         (fun acc fold =>
            let r := epoch_checkpoints fold num_epochs (reset_params fold (fst acc)) in
            (fst r, snd acc ++ snd r))
         (seq 0 k) (initial, [])).

(** The parameter values of the checkpoint with the highest test
    accuracy, the earliest one among equals. *)
Fixpoint best_checkpoint (cps : list (Q * params)) (best : option (Q * params))
  : option params :=
  match cps with
  | [] => option_map snd best
  | (a, p) :: rest =>
      match best with
      | None => best_checkpoint rest (Some (a, p))
      | Some (b, _) =>
          if Qgt_bool a b then best_checkpoint rest (Some (a, p))
          else best_checkpoint rest best
      end
  end.

End KFoldCV.

(** A run of two folds and two epochs: every epoch adds one to the single
    parameter, a fold starts from 0, and the test accuracy is 75 percent
    in fold 0 at parameter value 1 and 50 percent everywhere else. *)
Definition demo_reset (fold : nat) (p : nat) : nat := 0%nat.
Definition demo_train (fold epoch : nat) (p : nat) : nat := S p.
Definition demo_accuracy (fold : nat) (p : nat) : Q :=
  if (fold =? 0)%nat && (p =? 1)%nat then 75 else 50.

End Training.

(** ** Frequency analysis ([frequency_analysis.py]) *)

Module Frequency.
Import Np Float.

Definition labels_valid : list Z := [0; 1; 2; 3; 4; 5; 6; -1; -2; -3; -4; -5; -6].

(** The AU columns of one subject: the number of channels and one row of
    cells per frame. *)
Record table := {
  width : nat;
  rows : list (list cell)
}.

(** A count frame: for every label of [labels_valid], every AUi and every
    AUj one count, in the order of the frame's index and columns. *)
Definition counts := list (list (list Z)).

(** [df_AU_data[AU] >= eps_activity] at one frame. *)
Definition active (row : list cell) (AU : nat) (eps_activity : Q) : bool :=
  ge (nth AU row NaN) eps_activity.

(** [(labels == label) & comparator(...).values] as a row mask of the
    table: numpy stretches a one-element label mask; any other mismatch of
    the two lengths raises. *)
Definition row_mask (label_mask pair_mask : list bool) : option (list bool) :=
  if (length label_mask =? length pair_mask)%nat
  then Some (zip_with andb label_mask pair_mask)
  else match label_mask with
       | [b] => Some (map (andb b) pair_mask)
       | _ => None
       end.

(** [df_AU_data[mask].iloc[:,0].count()]: the selected rows whose first
    column is not NaN. *)
Definition count_cell (df_AU_data : table) (labels : list label) (eps_activity : Q)
    (comparator : bool -> bool -> bool) (label : Z) (AUi AUj : nat) : option Z :=
  mask <- row_mask
            (map (fun l => eqb l (Some label)) labels)
            (map (fun row => comparator (active row AUi eps_activity)
                                        (active row AUj eps_activity))
                 (rows df_AU_data)) ;;
  Some (Z.of_nat (length (filter (fun row => negb (is_nan (nth 0 row NaN)))
                                 (compress mask (rows df_AU_data))))).

Definition count_pair_occurrences (df_AU_data : table) (labels : list label)
    (eps_activity : Q) (comparator : bool -> bool -> bool) : option counts :=
  if Qle_bool 0 eps_activity && Qle_bool eps_activity 5 then
    mapM (fun label =>
      mapM (fun AUi =>
        mapM (fun AUj =>
                count_cell df_AU_data labels eps_activity comparator label AUi AUj)
             (seq 0 (width df_AU_data)))
        (seq 0 (width df_AU_data)))
      labels_valid
  else None.

Record result := {
  counts_AUc_and : counts;
  counts_AUc_or : counts;
  counts_AUr_and : counts;
  counts_AUr_or : counts;
  nof_frames_per_label : list Z
}.

(** [pd.DataFrame(0, index=row_idx, columns=col_idx)] *)
Definition zero_counts (channels : nat) : counts :=
  map (fun _ => repeat (repeat 0 channels) channels) labels_valid.

(** [pd.Series(0, index=labels_valid)] *)
Definition zero_frames : list Z := map (fun _ => 0) labels_valid.

(** [df += other] on frames of one shape. *)
Definition add_counts : counts -> counts -> counts :=
  zip_with (zip_with (zip_with Z.add)).

(** [for label in labels_valid: nof_frames_per_label[label] += len(labels[labels == label])] *)
Definition add_frames (labels : list label) (nof : list Z) : list Z :=
  zip_with (fun label n =>
              n + Z.of_nat (length (filter (fun l => eqb l (Some label)) labels)))
           labels_valid nof.

(** [labels > eps_conf] at one frame. *)
Definition label_gt (l : label) (q : Q) : bool :=
  match l with
  | Some z => negb (Qle_bool (inject_Z z) q)
  | None => false
  end.

Section Dataset.

Variable subject : Type.
Variable subject_list : list subject.
(** [subject_id in subjects_no_use] *)
Variable subjects_no_use : subject -> bool.
Variable load_labels : subject -> list label.
Variable load_AUc : subject -> table.
Variable load_AUr : subject -> table.
(** The confidence column and the masking [data[confidence > eps_conf]]
    are pandas operations on the loaded file; both may raise. *)
Variable confidence : Type.
Variable load_confidence : subject -> option confidence.
Variable mask_by_confidence : confidence -> Q -> table -> option table.
(** The numbers of AUc and AUr channels of the data set. *)
Variable channels_AUc : nat.
Variable channels_AUr : nat.

(** The block under [if eps_conf:], shared word for word by the
    sequential loop and by [_subject_frequency_analysis]. *)
Definition confidence_filter (subject_id : subject) (eps_conf : option Q)
    (labels : list label) (AUc_data AUr_data : table)
  : option (list label * table * table) :=
  match eps_conf with
  | None => Some (labels, AUc_data, AUr_data)
  | Some q =>
      if Qeq_bool q 0 then Some (labels, AUc_data, AUr_data)
      else if negb (Qle_bool q 0) && Qle_bool q 1 then
        conf <- load_confidence subject_id ;;
        AUc_data' <- mask_by_confidence conf q AUc_data ;;
        AUr_data' <- mask_by_confidence conf q AUr_data ;;
        Some (filter (fun l => label_gt l q) labels, AUc_data', AUr_data')
      else None
  end.

Definition _subject_frequency_analysis (subject_id : subject) (eps_conf : option Q)
  : option result :=
  d <- confidence_filter subject_id eps_conf (load_labels subject_id)
         (load_AUc subject_id) (load_AUr subject_id) ;;
  let labels := fst (fst d) in
  let AUc_data := snd (fst d) in
  let AUr_data := snd d in
  c1 <- count_pair_occurrences AUc_data labels 1 andb ;;
  c2 <- count_pair_occurrences AUc_data labels 1 orb ;;
  c3 <- count_pair_occurrences AUr_data labels 1 andb ;;
  c4 <- count_pair_occurrences AUr_data labels 1 orb ;;
  Some {| counts_AUc_and := c1; counts_AUc_or := c2;
          counts_AUr_and := c3; counts_AUr_or := c4;
          nof_frames_per_label := add_frames labels zero_frames |}.

Definition zero_result : result := {|
  counts_AUc_and := zero_counts channels_AUc;
  counts_AUc_or := zero_counts channels_AUc;
  counts_AUr_and := zero_counts channels_AUr;
  counts_AUr_or := zero_counts channels_AUr;
  nof_frames_per_label := zero_frames
|}.

(** The loop that joins the parallel results. *)
Definition join (acc r : result) : result := {|
  counts_AUc_and := add_counts (counts_AUc_and acc) (counts_AUc_and r);
  counts_AUc_or := add_counts (counts_AUc_or acc) (counts_AUc_or r);
  counts_AUr_and := add_counts (counts_AUr_and acc) (counts_AUr_and r);
  counts_AUr_or := add_counts (counts_AUr_or acc) (counts_AUr_or r);
  nof_frames_per_label := zip_with Z.add (nof_frames_per_label acc) (nof_frames_per_label r)
|}.

(** The aggregated frames as they stand when the results are written.
    The job of every subject is started without the threshold. *)
Definition frequency_analysis_parallel (eps_conf : option Q) : option result :=
  results <- mapM (fun subj_id => _subject_frequency_analysis subj_id None)
                  (filter (fun subj_id => negb (subjects_no_use subj_id)) subject_list) ;;
  Some (fold_left join results zero_result).

Fixpoint sequential_loop (eps_conf : option Q) (todo : list subject) (acc : result)
  : option result :=
  match todo with
  | [] => Some acc
  | subject_id :: rest =>
      if subjects_no_use subject_id then sequential_loop eps_conf rest acc
      else
        d <- confidence_filter subject_id eps_conf (load_labels subject_id)
               (load_AUc subject_id) (load_AUr subject_id) ;;
        let labels := fst (fst d) in
        let AUc_data := snd (fst d) in
        let AUr_data := snd d in
        c1 <- count_pair_occurrences AUc_data labels 1 andb ;;
        c2 <- count_pair_occurrences AUc_data labels 1 orb ;;
        c3 <- count_pair_occurrences AUr_data labels 1 andb ;;
        c4 <- count_pair_occurrences AUr_data labels 1 orb ;;
        sequential_loop eps_conf rest
          {| counts_AUc_and := add_counts (counts_AUc_and acc) c1;
             counts_AUc_or := add_counts (counts_AUc_or acc) c2;
             counts_AUr_and := add_counts (counts_AUr_and acc) c3;
             counts_AUr_or := add_counts (counts_AUr_or acc) c4;
             nof_frames_per_label := add_frames labels (nof_frames_per_label acc) |}
  end.

(** The aggregated frames as they stand when the loop over the subjects
    is left. *)
Definition frames_after_loop (eps_conf : option Q) : option result :=
  sequential_loop eps_conf subject_list zero_result.

(** [os.path.exist(export_dir)]: the module [os.path] has [exists] and no
    [exist], so the attribute lookup raises an AttributeError. *)
Definition os_path_exist : option bool := None.

(** [frequency_analysis]: the frames it writes.  Between the loop and
    the writing stands [if not os.path.exist(export_dir)]. *)
Definition frequency_analysis (eps_conf : option Q) : option result :=
  frames <- frames_after_loop eps_conf ;;
  found <- os_path_exist ;;
  Some frames.

End Dataset.

(** [if eps_conf:] is not taken for [None] and for 0. *)
Definition falsy (eps_conf : option Q) : bool :=
  match eps_conf with
  | None => true
  | Some q => Qeq_bool q 0
  end.

(** One subject with a single baseline frame on which the only AUc and
    the only AUr channel are active. *)
Definition one_frame : table := {| width := 1; rows := [[Fin 1]] |}.

End Frequency.

(** ** Subject-wise k-fold split ([kfold_CV], [get_train_test_idxs]) *)

Module KFold.
Import Np.

(** The sizes of the folds of scikit-learn's [KFold(n_splits=k,
    shuffle=False)] over [n] items: [n // k] each, the first [n % k] folds
    one more. *)
Definition fold_sizes (n k : nat) : list nat :=
  map (fun f => if (f <? n mod k)%nat then S (n / k) else (n / k)%nat) (seq 0 k).

(** The (train, test) index lists fold by fold: the test indices are the
    next [fold_size] positions, the train indices all the others. *)
Fixpoint folds_from (current : nat) (sizes : list nat) (n : nat)
  : list (list nat * list nat) :=
  match sizes with
  | [] => []
  | fold_size :: rest =>
      let test := seq current fold_size in
      let train := filter (fun i => negb (existsb (Nat.eqb i) test)) (seq 0 n) in
      (train, test) :: folds_from (current + fold_size) rest n
  end.

(** [KFold(n_splits=k, shuffle=False).split(X)] for [n = len(X)]:
    scikit-learn raises a ValueError for [k < 2] and for [k > n]. *)
Definition split (n k : nat) : option (list (list nat * list nat)) :=
  if (k <? 2)%nat then None
  else if (n <? k)%nat then None
  else Some (folds_from 0 (fold_sizes n k) n).

Record fold := {
  train_subjects : list Z;
  test_subjects : list Z;
  train_idxs : list Z;
  test_idxs : list Z
}.

(** [OpenFace_Features_Dataset.get_train_test_idxs]; [subjects] holds the
    subject id of every sample. *)
Definition get_train_test_idxs (subjects test_subjects : list Z) : list Z * list Z :=
  let subj_mask := map (fun s => existsb (Z.eqb s) test_subjects) subjects in
  let test_idxs := nonzero subj_mask in
  let train_idxs := nonzero (map negb subj_mask) in
  (train_idxs, test_idxs).

(** [dataset.subject_list] *)
Definition subject_list (subjects : list Z) : list Z := unique subjects.

(** The folds [kfold_CV] iterates over, with the subjects and the sample
    indices it derives for each. *)
Definition cv_folds (subjects : list Z) (k : nat) : option (list fold) :=
  sp <- split (length (subject_list subjects)) k ;;
  mapM (fun idxs =>
          train_subjcets <- take (subject_list subjects) (map Z.of_nat (fst idxs)) ;;
          test_subjects <- take (subject_list subjects) (map Z.of_nat (snd idxs)) ;;
          let tt := get_train_test_idxs subjects test_subjects in
          Some {| train_subjects := train_subjcets; test_subjects := test_subjects;
                  train_idxs := fst tt; test_idxs := snd tt |})
       sp.

End KFold.

(** ** A recording with two stimuli *)

Module Recordings.

(** Three baseline frames, eight frames of label 2, four baseline frames,
    four frames of label 1, three baseline frames and one frame of
    label 2. *)
Definition labels_two_stimuli : list Np.label :=
  map Some [0; 0; 0; 2; 2; 2; 2; 2; 2; 2; 2; 0; 0; 0; 0; 1; 1; 1; 1; 0; 0; 0; 2].

End Recordings.

(** ** Reading a count frame *)

Module Counts.
Import Np Frequency.

(** [df_counts.loc[(label, AUi), AUj]] by position: the label by its
    place in [labels_valid], the Action Units by their column number. *)
Definition cell_at (c : counts) (label AUi AUj : nat) : option Z :=
  m <- nth_error c label ;;
  row <- nth_error m AUi ;;
  nth_error row AUj.

(** Three frames of one subject with two channels. *)
Definition three_frames : table :=
  {| width := 2;
     rows := [[Float.Fin 1; Float.Fin 0]; [Float.Fin 1; Float.Fin 1];
              [Float.Fin 0; Float.Fin 0]] |}.

Definition three_labels : list label := map Some [0; 1; 1].

End Counts.

(** ** What a run knows about the accuracies seen so far *)

Module Tracking.
Import Training.

(** [best_acc] bounds the accuracies [tr] from above, is not negative,
    and is either still 0 with [best_params] unset or above 0 and one of
    the accuracies with [best_params] set. *)
Definition tracks (params : Type) (st : state params) (tr : list (Q * params))
  : Prop :=
  (forall a q, In (a, q) tr -> (a <= best_acc st)%Q) /\
  (0 <= best_acc st)%Q /\
  ((best_params st = None /\ best_acc st = 0%Q) \/
   (best_params st = Some model_tensors /\ (0 < best_acc st)%Q /\
    exists q, In (best_acc st, q) tr)).

End Tracking.

(** ** Eight samples of five subjects *)

Module Samples.
Import KFold.

(** The subject of every sample, as [dataset.subjects] holds them. *)
Definition subjects_eight : list Z := [3; 3; 1; 2; 2; 5; 1; 4].

(** The two folds [kfold_CV] works through for them with [k = 2]. *)
Definition folds_eight : list fold :=
  [ {| train_subjects := [4; 5]; test_subjects := [1; 2; 3];
       train_idxs := [5; 7]; test_idxs := [0; 1; 2; 3; 4; 6] |};
    {| train_subjects := [1; 2; 3]; test_subjects := [4; 5];
       train_idxs := [0; 1; 2; 3; 4; 6]; test_idxs := [5; 7] |} ].

Definition fold_empty : fold :=
  {| train_subjects := []; test_subjects := []; train_idxs := []; test_idxs := [] |}.

End Samples.

(** ** Class indices of the feature data set ([OpenFace_Features_Dataset]) *)

Module OpenFace.
Import Np XITE.

(** [self.labels_list]: the distinct labels of the samples, ascending. *)
Definition labels_list (labels : list Z) : list Z := unique labels.

Definition _pain_labels_list (labels : list Z) : list Z :=
  filter (fun elem => existsb (Z.eqb elem) labels_pain) (labels_list labels).

Definition _base_labels_list (labels : list Z) : list Z :=
  filter (fun elem => existsb (Z.eqb elem) labels_base) (labels_list labels).

Definition num_classes (labels : list Z) : nat := length (labels_list labels).

(** [self.classes]: the class index of every base label, then of every
    pain label; [None] for a KeyError. *)
Definition classes (labels : list Z) (c : Z) : option Z :=
  get (_base_labels_list labels ++ _pain_labels_list labels) c.

(** [labels[labels == old] = new], on the array itself. *)
Definition assign_where (labels : list Z) (old new : Z) : list Z :=
  map (fun l => if l =? old then new else l) labels.

(** [for (i, x) in enumerate(xs): labels[labels == x] = i + offset], with
    [i] counted from [first]. *)
Fixpoint relabel (first offset : Z) (xs : list Z) (labels : list Z) : list Z :=
  match xs with
  | [] => labels
  | x :: rest => relabel (first + 1) offset rest (assign_where labels x (first + offset))
  end.

(** [_transform_labels]: the array [self.labels] after the two loops. *)
Definition _transform_labels (labels : list Z) : list Z :=
  let base := _base_labels_list labels in
  let pain := _pain_labels_list labels in
  relabel 0 (Z.of_nat (length base)) pain (relabel 0 0 base labels).

(** What the loop of [relabel] does to one cell of the array. *)
Fixpoint relabel_cell (first offset : Z) (xs : list Z) (v : Z) : Z :=
  match xs with
  | [] => v
  | x :: rest => relabel_cell (first + 1) offset rest (if v =? x then first + offset else v)
  end.

(** Samples of one baseline and one pain class. *)
Definition labels_binary : list Z := [100; -3; -3; 100; -3].

(** Samples of two baseline and two pain classes. *)
Definition labels_four_classes : list Z := [100; 200; 1; 2].

End OpenFace.

(** ** Conditional frequencies ([compute_rel_AU_freqs_cond]) *)

Module Conditional.
Import Np Float Adjacency.

(** [df_counts_and.loc[AUi, AUj] / df_counts_and.loc[AUj, AUj]] *)
Definition ratio_cond (df_counts_and : frame Z) (AUi AUj : name) : option cell :=
  a <- loc df_counts_and AUi AUj ;;
  b <- loc df_counts_and AUj AUj ;;
  Some (divide (inject_Z a) b).

(** [df.fillna(value)]: a new frame, [df] itself stays as it is. *)
Definition fillna (df : frame cell) (value : Q) : frame cell := {|
  columns := columns df;
  loc := fun a b => option_map (fun c => if is_nan c then Fin value else c) (loc df a b)
|}.

Definition compute_rel_AU_freqs_cond (df_counts_and : frame Z) : option (frame cell) :=
  let AU_names := columns df_counts_and in
  df_rel_freqs <-
    for_each AU_names
      (fun AUi df =>
         for_each AU_names
           (fun AUj df =>
              v <- ratio_cond df_counts_and AUi AUj ;;
              Some (set_loc df AUi AUj v))
           df)
      (zeros AU_names) ;;
  let _ := fillna df_rel_freqs 0 in
  Some df_rel_freqs.

End Conditional.

(** ** Features of one slice ([Subject_Preprocessor._extract_features_from_slice]) *)

Module Features.
Import Np.

Definition name := String.string.

Definition mem (a : name) (l : list name) : bool := existsb (String.eqb a) l.

(** A settings dictionary of the config file: the function names of
    every channel, in the order of the file. *)
Definition settings := list (name * list name).

(** [list(d)] *)
Definition keys (d : settings) : list name := map fst d.

(** [d[channel]]: [None] for a KeyError. *)
Fixpoint lookup (d : settings) (channel : name) : option (list name) :=
  match d with
  | [] => None
  | (k, v) :: rest => if String.eqb channel k then Some v else lookup rest channel
  end.

(** [sum([len(val) for val in d.values()])] *)
Definition total (d : settings) : nat := list_sum (map (fun kv => length (snd kv)) d).

(** The number of function names [d] holds for [channel], 0 for a
    channel it does not have. *)
Definition width (d : settings) (channel : name) : nat :=
  match lookup d channel with
  | Some func_names => length func_names
  | None => 0%nat
  end.

Section Extraction.

(** The arrays handed to the feature functions and the numbers they
    return. *)
Variable signal : Type.
Variable value : Type.

(** A function of [feature_extraction_functions]: the names of the
    keyword parameters of its signature, and what it returns for a signal
    and the keyword arguments given ([None] when it raises). *)
Record feature_function := {
  parameters : list name;
  compute : signal -> list (name * Z) -> option value
}.

(** [func(x, **keywords)]: a TypeError for a keyword the signature does
    not have. *)
Definition call (func : feature_function) (x : signal) (keywords : list (name * Z))
  : option value :=
  if forallb (fun kw => mem (fst kw) (parameters func)) keywords
  then compute func x keywords
  else None.

(** [try: func(x, **keywords)], [except: func(x)] *)
Definition try_call (func : feature_function) (x : signal) (keywords : list (name * Z))
  : option value :=
  match call func x keywords with
  | Some v => Some v
  | None => call func x []
  end.

(** [getattr(feature_extraction_functions, func_name)]: [None] for an
    AttributeError. *)
Variable getattr : name -> option feature_function.

(** [compute_derivative] with its default step. *)
Variable compute_derivative : signal -> signal.

(** The slice: its column names and [data[channel].to_numpy()]. *)
Variable columns : list name.
Variable column : name -> signal.

Variable feature_extraction_settings : settings.
Variable feature_extraction_settings_d1 : settings.
Variable feature_extraction_settings_d2 : settings.

Definition nof_features : nat :=
  (total feature_extraction_settings + total feature_extraction_settings_d1
   + total feature_extraction_settings_d2)%nat.

(** The loop over the function names of one channel. *)
Fixpoint append_features (func_names : list name) (x : signal)
    (keywords : list (name * Z)) (features : list value) : option (list value) :=
  match func_names with
  | [] => Some features
  | func_name :: rest =>
      func <- getattr func_name ;;
      v <- try_call func x keywords ;;
      append_features rest x keywords (features ++ [v])
  end.

(** One of the three blocks of the loop body: [if channel in
    list(d):] the loop over [d[channel]]. *)
Definition block (d : settings) (channel : name) (x : signal)
    (keywords : list (name * Z)) (features : list value) : option (list value) :=
  if mem channel (keys d) then
    func_names <- lookup d channel ;;
    append_features func_names x keywords features
  else Some features.

Fixpoint channels_loop (sample_rate : Z) (channels : list name) (features : list value)
  : option (list value) :=
  match channels with
  | [] => Some features
  | channel :: rest =>
      f0 <- block feature_extraction_settings channel (column channel)
              [("sample_rate"%string, sample_rate)] features ;;
      f1 <- block feature_extraction_settings_d1 channel
              (compute_derivative (column channel))
              [("sampling_rate"%string, sample_rate)] f0 ;;
      f2 <- block feature_extraction_settings_d2 channel
              (compute_derivative (compute_derivative (column channel)))
              [("sample_rate"%string, sample_rate)] f1 ;;
      channels_loop sample_rate rest f2
  end.

Definition _extract_features_from_slice (sample_rate : Z) : option (list value) :=
  channels_loop sample_rate columns [].

(** The signals the feature functions are applied to. *)
Definition signals : list signal :=
  flat_map (fun channel =>
              [column channel; compute_derivative (column channel);
               compute_derivative (compute_derivative (column channel))])
           columns.

Definition names_of (d : settings) : list name := concat (map snd d).

(** The function is in the module and returns on the signals of the
    slice when called without keywords. *)
Definition returns (func_name : name) : Prop :=
  exists func, getattr func_name = Some func /\
               forall x, In x signals -> compute func x [] <> None.

(** The config and the slice fit together: no channel twice among the
    columns or in a settings dictionary, every channel of a settings
    dictionary among the columns, and every function named in the
    settings returns. *)
Definition fits : Prop :=
  NoDup columns /\
  NoDup (keys feature_extraction_settings) /\
  NoDup (keys feature_extraction_settings_d1) /\
  NoDup (keys feature_extraction_settings_d2) /\
  incl (keys feature_extraction_settings) columns /\
  incl (keys feature_extraction_settings_d1) columns /\
  incl (keys feature_extraction_settings_d2) columns /\
  (forall func_name,
     In func_name (names_of feature_extraction_settings
                   ++ names_of feature_extraction_settings_d1
                   ++ names_of feature_extraction_settings_d2) ->
     returns func_name).

(** The functions named in a settings dictionary do not have the keyword
    parameter [keyword]. *)
Definition without_parameter (keyword : name) (d : settings) : Prop :=
  forall func_name func,
    In func_name (names_of d) -> getattr func_name = Some func ->
    ~ In keyword (parameters func).

End Extraction.

(** Two functions of the module on signals of whole numbers:
    [signal_max] and [signal_tmax]. *)
Definition argmax (x : list Z) : Z :=
  snd (fold_left (fun (acc : Z * Z * Z) v =>
                    let '(i, best, at_) := acc in
                    if (i =? 0) || (best <? v) then (i + 1, v, i) else (i + 1, best, at_))
                 x (0, 0, 0)).

Definition signal_max : feature_function (list Z) Float.cell := {|
  parameters := [];
  compute := fun x _ => match x with
                        | [] => None
                        | a :: t => Some (Float.Fin (inject_Z (fold_left Z.max t a)))
                        end
|}.

Definition signal_tmax : feature_function (list Z) Float.cell := {|
  parameters := ["sample_rate"%string];
  compute := fun x keywords =>
               match x with
               | [] => None
               | _ => Some (Float.divide (inject_Z (argmax x))
                              match keywords with
                              | (_, sample_rate) :: _ => sample_rate
                              | [] => 1000
                              end)
               end
|}.

Definition demo_getattr (func_name : name)
  : option (feature_function (list Z) Float.cell) :=
  if String.eqb func_name "signal_max" then Some signal_max
  else if String.eqb func_name "signal_tmax" then Some signal_tmax
  else None.

(** Forward differences with step 1 of a signal of whole numbers. *)
Definition demo_derivative (x : list Z) : list Z :=
  map (fun i => nth (i + 1) x 0 - nth i x 0) (seq 0 (length x - 1 - 1)).

Definition demo_columns : list name := ["AU01_r"%string; "AU02_r"%string].

Definition demo_column (channel : name) : list Z :=
  if String.eqb channel "AU01_r" then [0; 1; 4; 9; 7; 2] else [3; 3; 5; 8; 8; 1].

Definition demo_settings : settings :=
  [("AU01_r"%string, ["signal_max"%string]); ("AU02_r"%string, ["signal_max"%string])].

Definition demo_settings_d1 : settings :=
  [("AU01_r"%string, ["signal_max"%string; "signal_tmax"%string])].

Definition demo_settings_d2 : settings :=
  [("AU02_r"%string, ["signal_max"%string])].

End Features.

(** ** Normalising an adjacency frame ([normalize_adj]) *)

Module Normalize.
Import Np Float Adjacency.

(** [a - b] on float cells. *)
Definition sub (a b : cell) : cell :=
  match a, b with
  | Fin x, Fin y => Fin (x - y)
  | NaN, _ | _, NaN => NaN
  | PInf, PInf | NInf, NInf => NaN
  | PInf, _ | _, NInf => PInf
  | NInf, _ | _, PInf => NInf
  end.

(** [a / b] on float cells; the sign of a zero divisor is left out. *)
Definition div (a b : cell) : cell :=
  match a, b with
  | NaN, _ | _, NaN => NaN
  | Fin x, Fin y =>
      if Qeq_bool y 0 then
        if Qeq_bool x 0 then NaN else if Qle_bool 0 x then PInf else NInf
      else Fin (x / y)
  | Fin _, _ => Fin 0
  | PInf, Fin y => if Qle_bool 0 y then PInf else NInf
  | NInf, Fin y => if Qle_bool 0 y then NInf else PInf
  | _, _ => NaN
  end.

(** [a <= b] on cells that are not NaN. *)
Definition cell_le (a b : cell) : bool :=
  match a, b with
  | NInf, _ | _, PInf => true
  | Fin x, Fin y => Qle_bool x y
  | _, _ => false
  end.

(** One step of a reduction that skips NaN: the better of the value so
    far and the next cell. *)
Definition pick (better : cell -> cell -> bool) (acc c : cell) : cell :=
  match acc, c with
  | NaN, _ => c
  | _, NaN => acc
  | _, _ => if better acc c then acc else c
  end.

(** [Series.min()] and [Series.max()]: NaN is skipped, and NaN is the
    result when nothing is left. *)
Definition reduce (better : cell -> cell -> bool) (l : list cell) : cell :=
  fold_left (pick better) l NaN.

Definition smaller (a b : cell) : bool := cell_le a b.
Definition larger (a b : cell) : bool := cell_le b a.

(** The cells of column [b], row after row. *)
Definition column_cells (df : frame cell) (b : name) : list cell :=
  flat_map (fun a => match loc df a b with
                     | Some c => [c]
                     | None => []
                     end)
           (columns df).

(** [df.min().min()] and [df.max().max()]: the reduction of every
    column, then the reduction of these. *)
Definition min_min (df : frame cell) : cell :=
  reduce smaller (map (fun b => reduce smaller (column_cells df b)) (columns df)).

Definition max_max (df : frame cell) : cell :=
  reduce larger (map (fun b => reduce larger (column_cells df b)) (columns df)).

Definition normalize_adj (df_adj : frame cell) : frame cell := {|
  columns := columns df_adj;
  loc := fun a b =>
           option_map (fun c => div (sub c (min_min df_adj))
                                    (sub (max_max df_adj) (min_min df_adj)))
                      (loc df_adj a b)
|}.

(** The cells of a frame are finite numbers. *)
Definition finite (df : frame cell) : Prop :=
  forall a b, mem a (columns df) = true -> mem b (columns df) = true ->
              exists q, loc df a b = Some (Fin q).

(** A frame of two Action Units with the weights 0, 1/4, 1/4 and 1/2. *)
Definition demo_adj : frame cell := {|
  columns := ["AU04_c"%string; "AU06_c"%string];
  loc := fun a b =>
           if mem a ["AU04_c"%string; "AU06_c"%string]
              && mem b ["AU04_c"%string; "AU06_c"%string]
           then Some (Fin (if String.eqb a b
                           then (if String.eqb a "AU04_c" then 0 else 1 # 2)
                           else 1 # 4))
           else None
|}.

End Normalize.

(** ** Video labels from the labels of the bio signals
       ([generate_subject_video_labels]) *)

Module VideoLabels.
Import Np.

(** [np.diff(labels).nonzero()[0]]: the places whose successor holds
    another label. *)
Definition change_points (labels : list Z) : list Z :=
  nonzero (zip_with (fun a b => negb (b - a =? 0)) labels (tl labels)).

(** [np.squeeze] leaves an array that has a length only for two samples
    and more, and [labels[0]] needs one. *)
Definition has_length (labels : list Z) : bool :=
  match labels with
  | _ :: _ :: _ => true
  | _ => false
  end.

(** [np.concatenate([[labels[0]], labels[idxs_start]])] *)
Definition interval_labels (labels : list Z) : option (list Z) :=
  first <- get labels 0 ;;
  rest <- take labels (map (fun idx_end => idx_end + 1) (change_points labels)) ;;
  Some (first :: rest).

(** Python's reading of a slice bound for a sequence of [len] cells. *)
Definition bound (len i : Z) : Z :=
  if i <? 0 then Z.max 0 (i + len) else Z.min i len.

(** [labels_video[start:stop] = label] *)
Definition assign_slice (labels_video : list label) (start stop : Z) (v : label)
  : list label :=
  let len := Z.of_nat (length labels_video) in
  map (fun cell => if (bound len start <=? fst cell) && (fst cell <? bound len stop)
                   then v else snd cell)
      (combine (map Z.of_nat (seq 0 (length labels_video))) labels_video).

(** The loop over the intervals, left as soon as an interval reaches the
    last frame of the video. *)
Fixpoint fill (nof_samples_video : Z) (intervals : list (Z * Z * Z))
    (labels_video : list label) : list label :=
  match intervals with
  | [] => labels_video
  | (start_idx, end_idx, l) :: rest =>
      let labels_video' := assign_slice labels_video start_idx (end_idx + 1) (Some l) in
      if end_idx >=? nof_samples_video - 1 then labels_video'
      else fill nof_samples_video rest labels_video'
  end.

Section Resampling.

(** The float arithmetic of the change of rate is left to two functions
    of the sample index [x]: [np.round(x * (fs_video / fs_label))], and
    whether that rounded frame lies at least as close to the scaled [x]
    as to the scaled [x + 1] ([is_endidx_mask]). *)
Variable round_scaled : Z -> Z.
Variable is_endidx : Z -> bool.

Definition end_of (x : Z) : Z :=
  if is_endidx x then round_scaled x else round_scaled x - 1.

Definition start_after (x : Z) : Z :=
  if is_endidx x then round_scaled x + 1 else round_scaled x.

Definition idxs_start (labels : list Z) : list Z :=
  0 :: map start_after (change_points labels).

Definition idxs_end (labels : list Z) : list Z :=
  map end_of (change_points labels) ++ [round_scaled (Z.of_nat (length labels))].

(** The array written to the label file of the subject, for a video of
    [nof_samples_video] frames; [None] where the function raises. *)
Definition generate_subject_video_labels (labels : list Z) (nof_samples_video : nat)
  : option (list label) :=
  if has_length labels then
    labels_of_intervals <- interval_labels labels ;;
    Some (fill (Z.of_nat nof_samples_video)
               (combine (combine (idxs_start labels) (idxs_end labels))
                        labels_of_intervals)
               (repeat None nof_samples_video))
  else None.

(** The intervals of the loop, one after the other: every interval
    starts one frame after the end of the one before. *)
Fixpoint chain (start : Z) (points : list Z) (last_end : Z) (ls : list Z)
  : list (Z * Z * Z) :=
  match points, ls with
  | [], l :: _ => [(start, last_end, l)]
  | x :: rest, l :: ls' => (start, end_of x, l) :: chain (start_after x) rest last_end ls'
  | _, [] => []
  end.

End Resampling.

(** The frames below [m] hold labels of [labels], the frames from [m] on
    hold NaN. *)
Definition labelled_to (labels : list Z) (labels_video : list label) (m : Z) : Prop :=
  (forall j, 0 <= j < m -> j < Z.of_nat (length labels_video) ->
             exists l, get labels_video j = Some (Some l) /\ In l labels) /\
  (forall j, m <= j < Z.of_nat (length labels_video) -> get labels_video j = Some None).

(** Bio labels at 1000 Hz around one stimulus, and the rounding to 25 Hz
    written with whole numbers: 40 samples make a frame, and a sample
    halfway between two frames goes to the even one, as [np.round] has
    it. *)
Definition demo_bio_labels : list Z := repeat 0 100 ++ repeat 3 200 ++ repeat 0 100.

Definition demo_round (x : Z) : Z :=
  if x mod 40 <? 20 then x / 40
  else if 20 <? x mod 40 then x / 40 + 1
  else if Z.even (x / 40) then x / 40 else x / 40 + 1.

Definition demo_is_endidx (x : Z) : bool :=
  Z.abs (40 * demo_round x - x) <=? Z.abs (40 * demo_round x - (x + 1)).

End VideoLabels.

(** * Theorems *)

(** ** Facts about the numpy primitives *)

Module NpFacts.
Import Np.

Lemma get_of_nat A (l : list A) (k : nat) : get l (Z.of_nat k) = nth_error l k.
Proof.
  unfold get. destruct (Z.ltb_spec (Z.of_nat k) 0); [lia|].
  now rewrite Nat2Z.id.
Qed.

Lemma get_Some_range A (l : list A) (i : Z) (a : A) :
  get l i = Some a -> 0 <= i < Z.of_nat (length l).
Proof.
  unfold get. destruct (Z.ltb_spec i 0) as [Hneg|Hpos]; [discriminate|].
  intro Hget. assert (Hn : nth_error l (Z.to_nat i) <> None) by congruence.
  apply nth_error_Some in Hn. lia.
Qed.

Lemma get_in_range A (l : list A) (i : Z) :
  0 <= i < Z.of_nat (length l) -> exists a, get l i = Some a.
Proof.
  intros Hi. unfold get. destruct (Z.ltb_spec i 0) as [Hneg|Hpos]; [lia|].
  destruct (nth_error l (Z.to_nat i)) eqn:E; [eauto|].
  apply nth_error_None in E. lia.
Qed.

Lemma neq_false (a b : label) : neq a b = false -> a = b.
Proof.
  destruct a as [x|], b as [y|]; simpl; try discriminate.
  intro H. apply negb_false_iff, Z.eqb_eq in H. now subst.
Qed.

Lemma zip_with_length A B C (f : A -> B -> C) l m :
  length (zip_with f l m) = Nat.min (length l) (length m).
Proof.
  revert m; induction l as [|a l IH]; intros [|b m]; simpl; auto.
Qed.

Lemma zip_with_nth A B C (f : A -> B -> C) l m i a b :
  nth_error l i = Some a -> nth_error m i = Some b ->
  nth_error (zip_with f l m) i = Some (f a b).
Proof.
  revert m i; induction l as [|x l IH]; intros [|y m] [|i]; simpl; try discriminate.
  - now intros [= ->] [= ->].
  - apply IH.
Qed.

Lemma nonzero_from_app i a b :
  nonzero_from i (a ++ b)
  = nonzero_from i a ++ nonzero_from (i + Z.of_nat (length a)) b.
Proof.
  revert i; induction a as [|x a IH]; intro i.
  - simpl. now replace (i + 0) with i by lia.
  - cbn [app nonzero_from length]. rewrite IH.
    replace (i + 1 + Z.of_nat (length a)) with (i + Z.of_nat (S (length a))) by lia.
    now destruct x.
Qed.

Lemma nonzero_from_succ i m :
  nonzero_from (i + 1) m = map Z.succ (nonzero_from i m).
Proof.
  revert i; induction m as [|b m IH]; intro i; simpl; [reflexivity|].
  rewrite IH. now destruct b.
Qed.

Lemma nonzero_from_In i m k :
  In k (nonzero_from i m) <-> i <= k /\ nth_error m (Z.to_nat (k - i)) = Some true.
Proof.
  revert i; induction m as [|b m IH]; intro i.
  - simpl. split; [tauto|]. intros [_ H]. now destruct (Z.to_nat (k - i)).
  - assert (Hstep : i < k -> Z.to_nat (k - i) = S (Z.to_nat (k - (i + 1)))) by lia.
    destruct b; cbn [nonzero_from In]; rewrite IH.
    + split.
      * intros [<- | [H1 H2]].
        -- split; [lia|]. now replace (i - i) with 0 by lia.
        -- split; [lia|]. rewrite Hstep by lia. exact H2.
      * intros [H1 H2]. destruct (Z.eq_dec i k) as [E|E]; [now left|right].
        split; [lia|]. rewrite Hstep in H2 by lia. exact H2.
    + split.
      * intros [H1 H2]. split; [lia|]. rewrite Hstep by lia. exact H2.
      * intros [H1 H2].
        assert (i <> k).
        { intros ->. replace (k - k) with 0 in H2 by lia. discriminate. }
        split; [lia|]. rewrite Hstep in H2 by lia. exact H2.
Qed.

Lemma nonzero_from_sorted i m : StronglySorted Z.lt (nonzero_from i m).
Proof.
  revert i; induction m as [|b m IH]; intro i; simpl; [constructor|].
  destruct b; [|apply IH].
  constructor; [apply IH|].
  apply Forall_forall. intros x Hx. apply nonzero_from_In in Hx. lia.
Qed.

(** No element of a strictly ascending list lies strictly between two
    neighbours, or after the last one. *)
Lemma sorted_gap (xs : list Z) (i : nat) (a k : Z) :
  StronglySorted Z.lt xs -> nth_error xs i = Some a -> a < k ->
  (forall b, nth_error xs (S i) = Some b -> k < b) -> ~ In k xs.
Proof.
  revert i; induction xs as [|x xs IH]; intros i Hs Hi Hak Hnext Hin.
  - now destruct i.
  - inversion Hs as [|? ? Hs' Hall]; subst. rewrite Forall_forall in Hall.
    destruct i as [|i]; simpl in Hi.
    + injection Hi as ->. destruct Hin as [-> | Hin]; [lia|].
      destruct xs as [|b xs']; [contradiction|].
      specialize (Hnext b eq_refl).
      inversion Hs' as [|? ? _ Hall']; subst. rewrite Forall_forall in Hall'.
      destruct Hin as [-> | Hin]; [lia|]. specialize (Hall' k Hin). lia.
    + destruct Hin as [-> | Hin].
      * apply nth_error_In in Hi. specialize (Hall a Hi). lia.
      * eapply IH; eauto.
Qed.

Lemma sorted_nth_lt (xs : list Z) (i : nat) (a b : Z) :
  StronglySorted Z.lt xs -> nth_error xs i = Some a -> nth_error xs (S i) = Some b ->
  a < b.
Proof.
  revert i; induction xs as [|x xs IH]; intros i Hs Ha Hb; [now destruct i|].
  inversion Hs as [|? ? Hs' Hall]; subst. rewrite Forall_forall in Hall.
  destruct i as [|i]; simpl in Ha, Hb.
  - injection Ha as ->. apply Hall. now apply nth_error_In with (n := 0%nat).
  - eapply IH; eauto.
Qed.

Lemma take_total A (l : list A) (idxs : list Z) :
  (forall i, In i idxs -> 0 <= i < Z.of_nat (length l)) ->
  exists r, take l idxs = Some r /\ length r = length idxs.
Proof.
  induction idxs as [|i idxs IH]; intro H; simpl.
  - now exists [].
  - destruct (@get_in_range _ l i) as [a Ha]; [apply H; now left|].
    destruct IH as [r [Hr Hlen]]; [intros; apply H; now right|].
    rewrite Ha, Hr. exists (a :: r). simpl. auto.
Qed.

Lemma put_length A (mask : list bool) (target vals : list A) :
  length (put mask target vals) = length target.
Proof.
  revert target vals; induction mask as [|b m IH]; intros [|a t] vals; simpl; auto.
  destruct b; [destruct vals|]; simpl; now rewrite IH.
Qed.

End NpFacts.

(** ** The interval segmenter partitions the frames *)

Module IntervalsFacts.
Import Np NpFacts Intervals.

Lemma adjacent_neq_cons (a b : label) (t : list label) :
  adjacent_neq (a :: b :: t) = neq a b :: adjacent_neq (b :: t).
Proof. reflexivity. Qed.

Lemma adjacent_neq_length (labels : list label) :
  length (adjacent_neq labels) = pred (length labels).
Proof.
  induction labels as [|a [|b t] IH]; try reflexivity.
  rewrite adjacent_neq_cons. cbn [length] in *. now rewrite IH.
Qed.

Lemma adjacent_neq_nth (labels : list label) (k : nat) (a b : label) :
  nth_error labels k = Some a -> nth_error labels (S k) = Some b ->
  nth_error (adjacent_neq labels) k = Some (neq a b).
Proof.
  revert k; induction labels as [|x [|y t] IH]; intros k Ha Hb.
  - now destruct k.
  - destruct k as [|k]; simpl in Hb; [discriminate | now destruct k].
  - rewrite adjacent_neq_cons. destruct k as [|k].
    + simpl in Ha, Hb. now injection Ha as ->; injection Hb as ->.
    + apply (IH k); assumption.
Qed.

Lemma starts_eq (labels : list label) :
  nonzero (is_interval_start labels) = 0 :: cuts labels.
Proof. reflexivity. Qed.

Lemma ends_eq (labels : list label) :
  labels <> [] ->
  nonzero (roll_left (is_interval_start labels))
  = map Z.pred (cuts labels) ++ [Z.of_nat (length labels) - 1].
Proof.
  intro Hne. unfold nonzero, is_interval_start, roll_left, cuts.
  rewrite nonzero_from_app, adjacent_neq_length.
  change 1 with (0 + 1). rewrite (nonzero_from_succ 0), map_map.
  rewrite map_ext with (g := fun x => x) by (intro; lia). rewrite map_id.
  f_equal. simpl. f_equal. destruct labels; [congruence|]. simpl length. lia.
Qed.

Lemma cuts_In (labels : list label) (c : Z) :
  In c (cuts labels) <->
  1 <= c /\ nth_error (adjacent_neq labels) (Z.to_nat (c - 1)) = Some true.
Proof. apply nonzero_from_In. Qed.

Lemma cuts_range (labels : list label) (c : Z) :
  In c (cuts labels) -> 1 <= c < Z.of_nat (length labels).
Proof.
  intro H. apply cuts_In in H. destruct H as [H1 H2].
  assert (Hn : nth_error (adjacent_neq labels) (Z.to_nat (c - 1)) <> None) by congruence.
  apply nth_error_Some in Hn. rewrite adjacent_neq_length in Hn. lia.
Qed.

Lemma starts_sorted (labels : list label) : StronglySorted Z.lt (0 :: cuts labels).
Proof.
  constructor; [apply nonzero_from_sorted|].
  apply Forall_forall. intros c Hc. apply cuts_range in Hc. lia.
Qed.

(** Two neighbouring frames with no cut between them carry one label. *)
Lemma same_run (labels : list label) (j : Z) :
  1 <= j < Z.of_nat (length labels) -> ~ In j (cuts labels) ->
  get labels j = get labels (j - 1).
Proof.
  intros Hj Hnot.
  destruct (@get_in_range _ labels (j - 1)) as [a Ha]; [lia|].
  destruct (@get_in_range _ labels j) as [b Hb]; [lia|].
  rewrite Ha, Hb. f_equal. symmetry. apply neq_false.
  destruct (neq a b) eqn:E; [|reflexivity]. exfalso. apply Hnot.
  apply cuts_In. split; [lia|].
  rewrite <- E. apply adjacent_neq_nth.
  - unfold get in Ha. destruct (Z.ltb_spec (j - 1) 0); [lia|]. exact Ha.
  - unfold get in Hb. destruct (Z.ltb_spec j 0); [lia|].
    now replace (S (Z.to_nat (j - 1))) with (Z.to_nat j) by lia.
Qed.

(** A cut separates two frames whose labels differ. *)
Lemma cut_differs (labels : list label) (c : Z) :
  In c (cuts labels) ->
  exists a b, get labels (c - 1) = Some a /\ get labels c = Some b /\ neq a b = true.
Proof.
  intro Hc. pose proof (cuts_range _ _ Hc) as Hr. apply cuts_In in Hc.
  destruct Hc as [_ Hc].
  destruct (@get_in_range _ labels (c - 1)) as [a Ha]; [lia|].
  destruct (@get_in_range _ labels c) as [b Hb]; [lia|].
  exists a, b. repeat split; try assumption.
  assert (E : nth_error (adjacent_neq labels) (Z.to_nat (c - 1)) = Some (neq a b)).
  { apply adjacent_neq_nth.
    - unfold get in Ha. destruct (Z.ltb_spec (c - 1) 0); [lia|]. exact Ha.
    - unfold get in Hb. destruct (Z.ltb_spec c 0); [lia|].
      now replace (S (Z.to_nat (c - 1))) with (Z.to_nat c) by lia. }
  congruence.
Qed.

Lemma ends_nth (X : list Z) (last : Z) (i : nat) (e : Z) :
  nth_error (map Z.pred X ++ [last]) i = Some e ->
  nth_error X i = Some (e + 1) \/ (i = length X /\ e = last).
Proof.
  intro H. destruct (Nat.lt_ge_cases i (length X)) as [Hlt|Hge].
  - left. rewrite nth_error_app1 in H by now rewrite length_map.
    rewrite nth_error_map in H. destruct (nth_error X i); [|discriminate].
    injection H as <-. f_equal. lia.
  - right. rewrite nth_error_app2 in H by now rewrite length_map.
    rewrite length_map in H. destruct (i - length X)%nat as [|d] eqn:E.
    + simpl in H. injection H as <-. split; [lia|reflexivity].
    + simpl in H. now destruct d.
Qed.

(** Interval [i] runs from its start to the frame before the next start,
    or to the last frame. *)
Lemma interval_shape (labels : list label) (i : nat) (s e : Z) :
  labels <> [] ->
  nth_error (0 :: cuts labels) i = Some s ->
  nth_error (map Z.pred (cuts labels) ++ [Z.of_nat (length labels) - 1]) i = Some e ->
  0 <= s <= e /\ e < Z.of_nat (length labels) /\
  (forall b, nth_error (0 :: cuts labels) (S i) = Some b -> e + 1 = b).
Proof.
  intros Hne Hs He.
  assert (Hlen : 0 < Z.of_nat (length labels)) by (destruct labels; [congruence|simpl; lia]).
  assert (Hs0 : 0 <= s < Z.of_nat (length labels)).
  { apply nth_error_In in Hs. destruct Hs as [<- | Hs]; [lia|].
    apply cuts_range in Hs. lia. }
  apply ends_nth in He. destruct He as [He | [Hi ->]].
  - pose proof (@sorted_nth_lt (0 :: cuts labels) i s (e + 1) (starts_sorted labels) Hs He) as Hlt.
    pose proof (cuts_range _ _ (nth_error_In _ _ He)) as Hr.
    repeat split; try lia. intros b Hb. simpl in Hb. congruence.
  - repeat split; try lia. intros b Hb. simpl in Hb.
    assert (Hn : nth_error (cuts labels) i <> None) by congruence.
    apply nth_error_Some in Hn. lia.
Qed.

Lemma interval_constant (labels : list label) (i : nat) (s e : Z) :
  labels <> [] ->
  nth_error (0 :: cuts labels) i = Some s ->
  nth_error (map Z.pred (cuts labels) ++ [Z.of_nat (length labels) - 1]) i = Some e ->
  forall j, s <= j <= e -> get labels j = get labels s.
Proof.
  intros Hne Hs He.
  destruct (interval_shape _ Hne Hs He) as [Hse [Hen Hnext]].
  assert (Hd : forall d : nat, s + Z.of_nat d <= e ->
                 get labels (s + Z.of_nat d) = get labels s).
  { induction d as [|d IH]; intro Hle.
    - now replace (s + Z.of_nat 0) with s by lia.
    - rewrite <- IH by lia.
      replace (s + Z.of_nat d) with (s + Z.of_nat (S d) - 1) by lia.
      apply same_run; [lia|]. intro Hin.
      apply (@sorted_gap (0 :: cuts labels) i s (s + Z.of_nat (S d))
               (starts_sorted labels) Hs); [lia | | now right].
      intros b Hb. specialize (Hnext b Hb). lia. }
  intros j Hj. replace j with (s + Z.of_nat (Z.to_nat (j - s))) by lia.
  apply Hd. lia.
Qed.

(** C2. For every non-empty label array the segmenter returns four arrays
    of one length that partition the frames: the first interval starts at
    frame 0, the last one ends at the final frame, every interval [i]
    satisfies [0 <= start <= end < n] and [duration = end - start + 1], the
    input labels are constant on [start..end], and at each boundary the end
    index is the next start minus one while the two frames across it carry
    labels that differ. *)
Theorem compute_intervals_info_partition (labels : list label) :
  labels <> [] ->
  exists r, _compute_intervals_info labels = Some r /\
    let m := length (start_idxs r) in
    let n := Z.of_nat (length labels) in
    length (end_idxs r) = m /\ length (interval_labels r) = m /\
    length (durations r) = m /\
    nth_error (start_idxs r) 0 = Some 0 /\
    nth_error (end_idxs r) (m - 1) = Some (n - 1) /\
    (forall i s e,
        nth_error (start_idxs r) i = Some s -> nth_error (end_idxs r) i = Some e ->
        0 <= s <= e /\ e < n /\
        nth_error (durations r) i = Some (e - s + 1) /\
        forall j, s <= j <= e -> get labels j = get labels s) /\
    (forall i e s',
        nth_error (end_idxs r) i = Some e -> nth_error (start_idxs r) (S i) = Some s' ->
        e = s' - 1 /\
        exists a b, get labels e = Some a /\ get labels s' = Some b /\ neq a b = true).
Proof.
  intro Hne. unfold _compute_intervals_info.
  rewrite starts_eq, (ends_eq Hne).
  destruct (@take_total _ labels (0 :: cuts labels)) as [il [Htake Hlen]].
  { intros i [<- | Hi]; [|apply cuts_range in Hi; lia].
    destruct labels; [congruence|simpl; lia]. }
  rewrite Htake. eexists. split; [reflexivity|]. cbn [start_idxs end_idxs interval_labels durations].
  assert (Hel : length (map Z.pred (cuts labels) ++ [Z.of_nat (length labels) - 1])
                = length (0 :: cuts labels)).
  { rewrite length_app, length_map. simpl. lia. }
  split; [exact Hel|]. split; [now rewrite put_length|].
  split; [rewrite zip_with_length, Hel; apply Nat.min_id|].
  split; [reflexivity|]. split.
  { cbn [length]. rewrite Nat.sub_succ, Nat.sub_0_r.
    rewrite nth_error_app2 by (rewrite length_map; lia).
    now rewrite length_map, Nat.sub_diag. }
  split.
  - intros i s e Hs He.
    destruct (interval_shape _ Hne Hs He) as [Hse [Hen _]].
    split; [exact Hse|]. split; [exact Hen|]. split.
    + apply (@zip_with_nth Z Z Z (fun e0 s0 => e0 - s0 + 1)); assumption.
    + now apply interval_constant with (i := i) (e := e).
  - intros i e s' He Hs'.
    assert (Hcut : nth_error (cuts labels) i = Some s') by exact Hs'.
    apply ends_nth in He. destruct He as [He | [Hi _]].
    + assert (s' = e + 1) by congruence. subst s'. split; [lia|].
      destruct (cut_differs _ _ (nth_error_In _ _ Hcut)) as [a [b [Ha [Hb Hab]]]].
      exists a, b. replace (e + 1 - 1) with e in Ha by lia. auto.
    + assert (Hn : nth_error (cuts labels) i <> None) by congruence.
      apply nth_error_Some in Hn. lia.
Qed.

Lemma compute_intervals_info_partition_witness :
  map Some [0; 0; 1] <> [] /\
  exists r, _compute_intervals_info (map Some [0; 0; 1]) = Some r /\
            nth_error (start_idxs r) 0 = Some 0 /\
            nth_error (end_idxs r) (length (start_idxs r) - 1) = Some 2.
Proof.
  assert (Hne : map Some [0; 0; 1] <> []) by discriminate.
  split; [exact Hne|].
  destruct (compute_intervals_info_partition Hne)
    as [r [Hr [_ [_ [_ [H0 [Hlast _]]]]]]].
  exists r. split; [exact Hr|]. split; [exact H0 | exact Hlast].
Defined.

(** The mask of the relabelling step never looks at the predecessor: it
    selects exactly the intervals whose own label is 0. *)
Lemma is_baseline_interval_own_label (il pre : list label) :
  is_baseline_interval il pre = zip_with (fun l _ => eqb l (Some 0)) il pre.
Proof. reflexivity. Qed.

Lemma put_compress A B (g : A -> B -> bool) (f : B -> A) (raw : list A) (pre : list B) :
  (length raw <= length pre)%nat ->
  put (zip_with g raw pre) raw (map f (compress (zip_with g raw pre) pre))
  = zip_with (fun l p => if g l p then f p else l) raw pre.
Proof.
  revert pre; induction raw as [|l raw IH]; intros [|p pre] Hlen; simpl in *;
    try reflexivity; try lia.
  destruct (g l p); simpl; rewrite IH by lia; reflexivity.
Qed.

Lemma pre_of_length A (nan : A) (l : list A) : (length l <= length (pre_of nan l))%nat.
Proof.
  unfold pre_of. cbn [length].
  rewrite removelast_firstn_len, length_firstn. lia.
Qed.

(** What the relabelling step does: an interval whose own label is 0
    takes 100 times the label before it (NaN for the first interval),
    every other interval keeps its label. *)
Lemma relabel_elementwise (labels : list label) (r : info) (raw : list label) :
  _compute_intervals_info labels = Some r ->
  raw_interval_labels labels = Some raw ->
  interval_labels r
  = zip_with (fun l p => if eqb l (Some 0) then mul p 100 else l) raw (pre_of None raw).
Proof.
  unfold _compute_intervals_info, raw_interval_labels. intros Hr Hraw.
  rewrite Hraw in Hr. injection Hr as <-. cbn [interval_labels].
  rewrite is_baseline_interval_own_label.
  apply (put_compress (fun l _ => eqb l (Some 0)) (fun p => mul p 100)).
  apply pre_of_length.
Qed.

(** C1 (the code departs from it). The relabelling step changes every
    interval whose own label is 0 and never consults the predecessor, so a
    zero-labelled interval is relabelled to 100 times its predecessor
    whatever the predecessor is: after the invalid label -10, which is no
    pain label, the baseline becomes -1000, and a baseline that opens the
    recording, with no predecessor at all, becomes NaN. *)
Theorem relabel_without_pain_predecessor :
  (forall labels r raw,
      _compute_intervals_info labels = Some r ->
      raw_interval_labels labels = Some raw ->
      interval_labels r
      = zip_with (fun l p => if eqb l (Some 0) then mul p 100 else l)
                 raw (pre_of None raw)) /\
  isin (Some (-10)) XITE.labels_pain = false /\
  raw_interval_labels (map Some [-10; 0]) = Some [Some (-10); Some 0] /\
  option_map interval_labels (_compute_intervals_info (map Some [-10; 0]))
    = Some [Some (-10); Some (-1000)] /\
  raw_interval_labels (map Some [0; 1]) = Some [Some 0; Some 1] /\
  option_map interval_labels (_compute_intervals_info (map Some [0; 1]))
    = Some [None; Some 1].
Proof.
  split; [exact relabel_elementwise|].
  repeat split.
Qed.

End IntervalsFacts.

(** ** Slices of the scenario and of a recording that ends in a baseline *)

Module SlicesFacts.
Import Np XITE Intervals Slices.

(** C3 (the code departs from it). On the scenario labels with sampling
    factor 1 the opening baseline interval is relabelled to NaN, so the
    pain interval at frames 3..6 has no baseline predecessor and no slice
    with label 1 is produced, whatever the slicing tables are; with the
    scenario policy the only slice is the baseline slice of label 100 that
    starts at frame 7. *)
Theorem scenario_has_no_pain_slice :
  _compute_slices_info config_scenario labels_scenario 1 = Some ([7], [100]) /\
  forall cfg : config,
    exists r, _compute_slices_info cfg labels_scenario 1 = Some r /\
              existsb (Z.eqb 1) (snd r) = false.
Proof.
  split; [reflexivity|].
  intros [sh ln im pm].
  cbv -[Z.leb].
  destruct (_ <=? 8); eexists; split; reflexivity.
Qed.

Lemma In_firstn A (n : nat) (l : list A) (x : A) : In x (firstn n l) -> In x l.
Proof.
  revert l; induction n as [|n IH]; intros [|a l] H; simpl in H; try contradiction.
  destruct H as [-> | H]; [now left|right; now apply IH].
Qed.

Lemma In_skipn A (n : nat) (l : list A) (x : A) : In x (skipn n l) -> In x l.
Proof.
  revert l; induction n as [|n IH]; intros [|a l] H; simpl in H; try assumption.
  right. now apply IH.
Qed.

(** [iloc] hands back rows of the table only. *)
Lemma iloc_incl A (data : list A) (a b : Z) (x : A) :
  In x (iloc data a b) -> In x data.
Proof.
  unfold iloc. intro H. apply In_firstn in H. now apply In_skipn in H.
Qed.

(** C9 (the code departs from it). [iloc] never reads outside the
    table, but the window the code computes can pass the last frame: with
    the tables of [config_video.py] and sampling factor 1, a recording of
    17 frames that ends in a ten-frame baseline after a pain interval
    yields a baseline slice whose window is 11..17: its end index is the
    frame count itself, one past the last frame 16, and [iloc] hands back
    six rows instead of seven. *)
Theorem baseline_window_passes_last_frame :
  (forall (data : list Z) (a b : Z) (x : Z), In x (iloc data a b) -> In x data) /\
  let labels := map Some [0; 0; 0; 1; 1; 1; 1; 0; 0; 0; 0; 0; 0; 0; 0; 0; 0] in
  let data := map Z.of_nat (seq 0 17) in
  Z.of_nat (length data) = 17 /\
  _extract_slices config_video data labels 1
  = Some [{| slice_label := 100; start_idx := 11; end_idx := 17;
             slice_data := [(11, 11); (12, 12); (13, 13); (14, 14); (15, 15); (16, 16)] |}].
Proof.
  split; [intros data a b x; apply iloc_incl|]. split; reflexivity.
Qed.

End SlicesFacts.

(** ** Feature repair *)

Module RepairFacts.
Import Float Repair.

Lemma replace_inf_free (t : list row) : inf_free (replace_inf t).
Proof.
  intros r Hr. apply in_map_iff in Hr. destruct Hr as [r0 [<- _]]. simpl.
  apply forallb_forall. intros c Hc. apply in_map_iff in Hc.
  destruct Hc as [c0 [<- _]]. now destruct c0.
Qed.

Lemma fold_add_finite (l : list cell) (acc : cell) :
  forallb is_finite l = true -> is_finite acc = true ->
  is_finite (fold_left add l acc) = true.
Proof.
  revert acc; induction l as [|c l IH]; intros acc Hl Hacc; simpl; [exact Hacc|].
  simpl in Hl. apply andb_prop in Hl. destruct Hl as [Hc Hl].
  apply IH; [exact Hl|]. destruct acc, c; try discriminate. reflexivity.
Qed.

Lemma mean_of_no_inf (column : list cell) :
  forallb no_inf column = true -> no_inf (mean_of column) = true.
Proof.
  intro Hcol. unfold mean_of.
  set (present := filter (fun c => negb (is_nan c)) column).
  assert (Hfin : forallb is_finite present = true).
  { apply forallb_forall. intros c Hc. apply filter_In in Hc. destruct Hc as [Hin Hnn].
    rewrite forallb_forall in Hcol. specialize (Hcol c Hin). now destruct c. }
  destruct present as [|c0 rest] eqn:E; [reflexivity|].
  pose proof (@fold_add_finite (c0 :: rest) (Fin 0) Hfin eq_refl) as Hsum.
  destruct (fold_left add (c0 :: rest) (Fin 0)); try discriminate.
  simpl length. unfold div_count, divide.
  destruct (Z.eqb_spec (Z.of_nat (S (length rest))) 0); [lia|reflexivity].
Qed.

Lemma means_no_inf (t : list row) : inf_free t -> forallb no_inf (means t) = true.
Proof.
  intro Ht. unfold means. apply forallb_forall. intros m Hm.
  apply in_map_iff in Hm. destruct Hm as [j [<- _]]. apply mean_of_no_inf.
  apply forallb_forall. intros c Hc. apply in_map_iff in Hc.
  destruct Hc as [r [<- Hr]]. specialize (Ht r Hr). rewrite forallb_forall in Ht.
  destruct (nth_in_or_default j (values r) NaN) as [Hin | ->]; [now apply Ht|reflexivity].
Qed.

Lemma fill_row_no_inf (ms vals : list cell) :
  forallb no_inf ms = true -> forallb no_inf vals = true ->
  forallb no_inf (fill_row ms vals) = true.
Proof.
  revert ms; induction vals as [|c vals IH]; intros [|m ms] Hms Hv; simpl; auto.
  simpl in Hms, Hv. apply andb_prop in Hms. apply andb_prop in Hv.
  destruct Hms as [Hm Hms], Hv as [Hc Hv].
  rewrite IH by assumption. now destruct (is_nan c); rewrite ?Hm, ?Hc.
Qed.

Lemma fill_label_inf_free (t : list row) (label : Z) :
  inf_free t -> inf_free (fill_label t label).
Proof.
  intros Ht r Hr. unfold fill_label in Hr. apply in_map_iff in Hr.
  destruct Hr as [r0 [<- Hr0]].
  destruct (row_label r0 =? label)%Z; [|now apply Ht]. simpl.
  apply fill_row_no_inf; [|now apply Ht].
  apply means_no_inf. intros r Hr. apply filter_In in Hr. now apply Ht.
Qed.

Lemma fold_fill_label_inf_free (labels : list Z) (t : list row) :
  inf_free t -> inf_free (fold_left fill_label labels t).
Proof.
  revert t; induction labels as [|l labels IH]; intros t Ht; simpl; [exact Ht|].
  apply IH. now apply fill_label_inf_free.
Qed.

Lemma dropna_finite (t : list row) :
  inf_free t -> forall r, In r (dropna t) -> forallb is_finite (values r) = true.
Proof.
  intros Ht r Hr. apply filter_In in Hr. destruct Hr as [Hin Hnn].
  specialize (Ht r Hin). apply negb_true_iff in Hnn.
  rewrite forallb_forall in Ht. apply forallb_forall. intros c Hc.
  specialize (Ht c Hc).
  assert (Hn : is_nan c = false).
  { destruct (is_nan c) eqn:E; [|reflexivity].
    assert (existsb is_nan (values r) = true) by (apply existsb_exists; eauto).
    congruence. }
  now destruct c.
Qed.

(** Under the "mean" strategy the table handed back holds finite cells only. *)
Lemma repair_mean_finite (features : list row) :
  exists t, _repair_features features Mean = (Table t, t) /\
            forall r, In r t -> forallb is_finite (values r) = true.
Proof.
  eexists. split; [reflexivity|].
  apply dropna_finite, fold_fill_label_inf_free, replace_inf_free.
Qed.

(** A finite replacement value leaves finite cells only. *)
Lemma repair_value_finite (features : list row) (q : Q) :
  exists t, _repair_features features (Replacement (Fin q)) = (Table t, t) /\
            forall r, In r t -> forallb is_finite (values r) = true.
Proof.
  eexists. split; [reflexivity|].
  intros r Hr. apply in_map_iff in Hr. destruct Hr as [r0 [<- Hr0]]. simpl.
  apply forallb_forall. intros c Hc. apply in_map_iff in Hc.
  destruct Hc as [c0 [<- Hc0]].
  pose proof (@replace_inf_free features r0 Hr0) as Hfree. rewrite forallb_forall in Hfree.
  specialize (Hfree c0 Hc0). now destruct c0.
Qed.

(** The "mean" strategy on a small table: the NaN of the first row takes
    the mean 3 of its column over the rows of label 1, the infinity of the
    second row is first turned into NaN and then takes the mean 1, and the
    only row of label 2, whose column has no value at all, is dropped. *)
Lemma repair_mean_example :
  fst (_repair_features
         [ {| row_label := 1; values := [Fin 1; NaN] |};
           {| row_label := 1; values := [PInf; Fin 3] |};
           {| row_label := 2; values := [Fin 1; NaN] |} ] Mean)
  = Table [ {| row_label := 1; values := [Fin 1; Fin 3] |};
            {| row_label := 1; values := [Fin 1; Fin 3] |} ].
Proof. reflexivity. Qed.

(** C4 (the code departs from it). For every feature table the "mean"
    strategy and a finite replacement value hand back a table of finite
    cells, but the "delete" strategy hands back Python's [None], not a
    table: the rows with a NaN or infinite entry are dropped from the
    table object in place only. *)
Theorem repair_delete_returns_none (features : list row) :
  _repair_features features Delete = (PyNone, dropna (replace_inf features)) /\
  (forall r, In r (dropna (replace_inf features)) ->
             forallb is_finite (values r) = true) /\
  (exists t, _repair_features features Mean = (Table t, t) /\
             forall r, In r t -> forallb is_finite (values r) = true) /\
  (forall q, exists t,
      _repair_features features (Replacement (Fin q)) = (Table t, t) /\
      forall r, In r t -> forallb is_finite (values r) = true).
Proof.
  split; [reflexivity|]. split; [apply dropna_finite, replace_inf_free|].
  split; [apply repair_mean_finite|]. intro q. apply repair_value_finite.
Qed.

End RepairFacts.

(** ** Finite differences *)

Module DerivativeFacts.
Import Float Derivative.

(** C10. For a signal of length [n] and a step [h] with [n >= h + 2] the
    result has exactly [n - 1 - h] values, the [i]-th being
    [(signal[i+h] - signal[i]) / h]: for a step [h >= 1] the finite
    number that is the difference of the two samples divided by [h]; for
    [h = 1] these are [n - 2] values and there is none at position
    [n - 2], where the last forward difference
    [signal[n-1] - signal[n-2]] would stand. *)
Theorem compute_derivative_spec (signal : list Q) (h : nat) :
  (h + 2 <= length signal)%nat ->
  length (compute_derivative signal h) = (length signal - 1 - h)%nat /\
  (forall i, (i < length signal - 1 - h)%nat ->
     exists a b,
       nth_error signal (i + h) = Some a /\ nth_error signal i = Some b /\
       nth_error (compute_derivative signal h) i
       = Some (divide (a - b) (Z.of_nat h)) /\
       ((1 <= h)%nat ->
        nth_error (compute_derivative signal h) i
        = Some (Fin ((a - b) / inject_Z (Z.of_nat h))))) /\
  (h = 1%nat ->
     length (compute_derivative signal h) = (length signal - 2)%nat /\
     nth_error (compute_derivative signal h) (length signal - 2) = None).
Proof.
  intro Hn. unfold compute_derivative.
  assert (Hlen : length (map (fun i => divide (nth (i + h) signal 0%Q - nth i signal 0%Q)
                                              (Z.of_nat h))
                             (seq 0 (length signal - 1 - h)))
                 = (length signal - 1 - h)%nat)
    by now rewrite length_map, length_seq.
  split; [exact Hlen|]. split.
  - intros i Hi.
    exists (nth (i + h) signal 0%Q), (nth i signal 0%Q).
    split; [apply nth_error_nth'; lia|]. split; [apply nth_error_nth'; lia|].
    rewrite nth_error_map.
    rewrite (nth_error_nth' _ 0%nat) by (rewrite length_seq; exact Hi).
    rewrite seq_nth by exact Hi. split; [reflexivity|].
    intro Hh. cbn [option_map plus]. unfold divide.
    destruct (Z.eqb_spec (Z.of_nat h) 0) as [E|_]; [lia|reflexivity].
  - intros ->. split; [rewrite Hlen; lia|].
    apply nth_error_None. rewrite Hlen. lia.
Qed.

Lemma compute_derivative_spec_witness :
  (2 + 2 <= length [1; 4; 9; 16; 25]%Q)%nat /\
  length (compute_derivative [1; 4; 9; 16; 25]%Q 2) = 2%nat /\
  exists a b,
    nth_error [1; 4; 9; 16; 25]%Q (0 + 2) = Some a /\
    nth_error [1; 4; 9; 16; 25]%Q 0 = Some b /\
    nth_error (compute_derivative [1; 4; 9; 16; 25]%Q 2) 0
    = Some (Fin ((a - b) / inject_Z (Z.of_nat 2))).
Proof.
  assert (Hn : (2 + 2 <= length [1; 4; 9; 16; 25]%Q)%nat) by (simpl; lia).
  split; [exact Hn|].
  destruct (@compute_derivative_spec [1; 4; 9; 16; 25]%Q 2%nat Hn) as [Hlen [Hval _]].
  split; [exact Hlen|].
  destruct (Hval 0%nat ltac:(simpl; lia)) as [a [b [Ha [Hb [_ Hq]]]]].
  exists a, b. split; [exact Ha|]. split; [exact Hb|]. apply Hq. lia.
Defined.

End DerivativeFacts.

(** ** The symmetrised adjacency *)

Module AdjacencyFacts.
Import Np Float Adjacency.

Lemma mem_cons (a x : name) (l : list name) :
  mem a (x :: l) = String.eqb a x || mem a l.
Proof. reflexivity. Qed.

(** The inner loop writes row [i]: the cells of the names it runs over. *)
Lemma inner_loop_loc (f : name -> option cell) (i : name) (js : list name)
    (df0 df' : frame cell) :
  for_each js (fun j df => v <- f j ;; Some (set_loc df i j v)) df0 = Some df' ->
  forall a b, loc df' a b = if String.eqb a i && mem b js then f b else loc df0 a b.
Proof.
  revert df0; induction js as [|j js IH]; intros df0 H a b.
  - simpl in H. injection H as <-. simpl. now rewrite andb_false_r.
  - cbn [for_each] in H. destruct (f j) as [v|] eqn:Ev; [|discriminate].
    cbn [bind] in H. rewrite (IH _ H a b). rewrite mem_cons. cbn [set_loc loc].
    destruct (String.eqb a i); cbn [andb]; [|reflexivity].
    destruct (mem b js); [now rewrite orb_true_r|]. rewrite orb_false_r.
    destruct (String.eqb_spec b j) as [->|]; [now rewrite Ev|reflexivity].
Qed.

Lemma inner_loop_total (f : name -> option cell) (i : name) (js : list name)
    (df0 : frame cell) :
  (forall j, mem j js = true -> f j <> None) ->
  exists df', for_each js (fun j df => v <- f j ;; Some (set_loc df i j v)) df0 = Some df'.
Proof.
  revert df0; induction js as [|j js IH]; intros df0 H; [now eexists|].
  cbn [for_each]. destruct (f j) as [v|] eqn:Ev.
  - cbn [bind]. apply IH. intros j' Hj'. apply H. rewrite mem_cons, Hj'.
    apply orb_true_r.
  - exfalso. apply (H j); [|exact Ev]. rewrite mem_cons, String.eqb_refl. reflexivity.
Qed.

(** The outer loop writes the rows of the names it runs over. *)
Lemma outer_loop_loc (f : name -> name -> option cell) (names is_ : list name)
    (df0 df' : frame cell) :
  for_each is_
    (fun i df => for_each names (fun j df => v <- f i j ;; Some (set_loc df i j v)) df)
    df0 = Some df' ->
  forall a b, loc df' a b = if mem a is_ && mem b names then f a b else loc df0 a b.
Proof.
  revert df0; induction is_ as [|i is_ IH]; intros df0 H a b.
  - simpl in H. injection H as <-. reflexivity.
  - cbn [for_each] in H.
    destruct (for_each names (fun j df => v <- f i j ;; Some (set_loc df i j v)) df0)
      as [df1|] eqn:E1; [|discriminate].
    cbn [bind] in H. rewrite (IH _ H a b), (inner_loop_loc _ _ _ _ E1 a b), mem_cons.
    destruct (mem a is_) eqn:Ea; cbn [andb].
    + rewrite orb_true_r. cbn [andb].
      destruct (mem b names); [reflexivity|now rewrite andb_false_r].
    + rewrite orb_false_r. destruct (String.eqb_spec a i) as [->|]; reflexivity.
Qed.

Lemma outer_loop_total (f : name -> name -> option cell) (names is_ : list name)
    (df0 : frame cell) :
  (forall i j, mem i is_ = true -> mem j names = true -> f i j <> None) ->
  exists df',
    for_each is_
      (fun i df => for_each names (fun j df => v <- f i j ;; Some (set_loc df i j v)) df)
      df0 = Some df'.
Proof.
  revert df0; induction is_ as [|i is_ IH]; intros df0 H; [now eexists|].
  cbn [for_each].
  destruct (@inner_loop_total (f i) i names df0) as [df1 E1].
  { intros j Hj. apply H; [|exact Hj]. rewrite mem_cons, String.eqb_refl. reflexivity. }
  rewrite E1. cbn [bind]. apply IH. intros i' j Hi' Hj. apply H; [|exact Hj].
  rewrite mem_cons, Hi'. apply orb_true_r.
Qed.

(** Every cell of the result is the AND count over the OR count. *)
Lemma symm_loc (df_and df_or : frame Z) (adj : frame cell) :
  compute_rel_AU_freq_cond_symm df_and df_or = Some adj ->
  forall a b,
    loc adj a b = if mem a (columns df_and) && mem b (columns df_and)
                  then ratio df_and df_or a b else None.
Proof.
  intros H a b. unfold compute_rel_AU_freq_cond_symm in H.
  rewrite (outer_loop_loc (ratio df_and df_or) _ _ _ H a b). cbn [zeros loc].
  now destruct (mem a (columns df_and) && mem b (columns df_and)).
Qed.

Lemma ratio_symmetric (df_and df_or : frame Z) :
  symmetric df_and -> symmetric df_or ->
  forall a b, ratio df_and df_or a b = ratio df_and df_or b a.
Proof. intros Ha Ho a b. unfold ratio. now rewrite (Ha a b), (Ho a b). Qed.

(** Symmetric count frames that hold a count for every pair of column
    names give an adjacency frame with equal cells at (AUi, AUj) and
    (AUj, AUi). *)
Lemma symm_frames_symmetric (df_and df_or : frame Z) :
  symmetric df_and -> symmetric df_or ->
  complete (columns df_and) df_and -> complete (columns df_and) df_or ->
  exists adj,
    compute_rel_AU_freq_cond_symm df_and df_or = Some adj /\
    forall AUi AUj, loc adj AUi AUj = loc adj AUj AUi.
Proof.
  intros Hs_and Hs_or Hc_and Hc_or.
  destruct (@outer_loop_total (ratio df_and df_or) (columns df_and) (columns df_and)
              (zeros (columns df_and))) as [adj Hadj].
  { intros i j Hi Hj. unfold ratio.
    destruct (loc df_and i j) eqn:Ea; [|now destruct (Hc_and i j Hi Hj)].
    destruct (loc df_or i j) eqn:Eo; [|now destruct (Hc_or i j Hi Hj)].
    discriminate. }
  exists adj. split; [exact Hadj|].
  intros AUi AUj. rewrite (symm_loc _ _ Hadj AUi AUj), (symm_loc _ _ Hadj AUj AUi).
  rewrite (andb_comm (mem AUj _)), (ratio_symmetric Hs_and Hs_or AUi AUj).
  reflexivity.
Qed.

Lemma frame_of_symmetric (names : list name) (f : name -> name -> Z) :
  (forall a b, f a b = f b a) -> symmetric (frame_of names f).
Proof.
  intros Hf a b. cbn [frame_of loc]. now rewrite (andb_comm (mem a names)), (Hf a b).
Qed.

Lemma frame_of_complete (names : list name) (f : name -> name -> Z) :
  complete names (frame_of names f).
Proof. intros a b Ha Hb. cbn [frame_of loc]. now rewrite Ha, Hb. Qed.

Lemma divide_nan (a b : Z) :
  divide (inject_Z a) b = NaN <-> a = 0 /\ b = 0.
Proof.
  unfold divide. destruct (Z.eqb_spec b 0) as [->|Hb].
  - destruct (Qeq_bool (inject_Z a) 0) eqn:E.
    + apply Qeq_bool_iff in E. unfold Qeq in E. simpl in E. split; [lia|reflexivity].
    + split.
      * destruct (Qle_bool 0 (inject_Z a)); discriminate.
      * intros [-> _]. discriminate.
  - split; [discriminate|lia].
Qed.

Lemma float_eq_self (c : cell) : float_eq c c = negb (is_nan c).
Proof. destruct c as [q| | |]; simpl; try reflexivity. apply Qeq_bool_refl. Qed.

(** C7 (amended). For every aggregated count table whose AND counts and
    OR counts are symmetric in their two Action-Unit arguments, the "symm"
    method returns an adjacency frame whose cell at (AUi, AUj) is its cell
    at (AUj, AUi); the comparison [adjacency(AUi, AUj) ==
    adjacency(AUj, AUi)] is true for every pair of Action Units of the
    table whose AND count and OR count are not both 0, and for a pair
    whose two counts are 0 both cells are NaN and the comparison is
    false. *)
Theorem symm_adjacency_symmetric (t : count_table) :
  (forall AUi AUj, counts_and t AUi AUj = counts_and t AUj AUi) ->
  (forall AUi AUj, counts_or t AUi AUj = counts_or t AUj AUi) ->
  exists adj,
    adjacency_symm t = Some adj /\
    (forall AUi AUj, loc adj AUi AUj = loc adj AUj AUi) /\
    forall AUi AUj, mem AUi (AU_names t) = true -> mem AUj (AU_names t) = true ->
      (~ (counts_and t AUi AUj = 0 /\ counts_or t AUi AUj = 0) ->
       cells_equal adj AUi AUj = Some true) /\
      (counts_and t AUi AUj = 0 -> counts_or t AUi AUj = 0 ->
       loc adj AUi AUj = Some NaN /\ loc adj AUj AUi = Some NaN /\
       cells_equal adj AUi AUj = Some false).
Proof.
  intros Hand Hor. unfold adjacency_symm.
  destruct (@symm_frames_symmetric (df_counts_and t) (df_counts_or t))
    as [adj [Hadj Hsym]].
  - now apply frame_of_symmetric.
  - now apply frame_of_symmetric.
  - apply frame_of_complete.
  - apply frame_of_complete.
  - exists adj. split; [exact Hadj|]. split; [exact Hsym|].
    intros AUi AUj Hi Hj.
    assert (Hloc : loc adj AUi AUj
                   = Some (divide (inject_Z (counts_and t AUi AUj))
                                  (counts_or t AUi AUj))).
    { rewrite (@symm_loc (df_counts_and t) (df_counts_or t) adj Hadj AUi AUj).
      cbn [df_counts_and frame_of columns]. rewrite Hi, Hj. cbn [andb].
      unfold ratio, df_counts_and, df_counts_or. cbn [frame_of loc].
      now rewrite Hi, Hj. }
    assert (Heq : cells_equal adj AUi AUj
                  = Some (negb (is_nan (divide (inject_Z (counts_and t AUi AUj))
                                               (counts_or t AUi AUj))))).
    { unfold cells_equal. rewrite <- (Hsym AUi AUj), Hloc. cbn [bind].
      now rewrite float_eq_self. }
    split.
    + intro Hnz. rewrite Heq.
      destruct (divide (inject_Z (counts_and t AUi AUj)) (counts_or t AUi AUj)) eqn:E;
        try reflexivity.
      exfalso. apply Hnz. now apply divide_nan.
    + intros Ha Ho.
      assert (E : divide (inject_Z (counts_and t AUi AUj)) (counts_or t AUi AUj) = NaN)
        by (apply divide_nan; split; assumption).
      split; [now rewrite Hloc, E|]. split; [now rewrite <- (Hsym AUi AUj), Hloc, E|].
      now rewrite Heq, E.
Qed.

Lemma symm_adjacency_symmetric_witness :
  ((forall AUi AUj, counts_and demo_table AUi AUj = counts_and demo_table AUj AUi) /\
   (forall AUi AUj, counts_or demo_table AUi AUj = counts_or demo_table AUj AUi)) /\
  exists adj,
    adjacency_symm demo_table = Some adj /\
    (forall AUi AUj, loc adj AUi AUj = loc adj AUj AUi) /\
    cells_equal adj "AU01_c"%string "AU02_c"%string = Some true.
Proof.
  assert (Ha : forall AUi AUj,
             counts_and demo_table AUi AUj = counts_and demo_table AUj AUi)
    by (intros a b; simpl; now rewrite (String.eqb_sym a b)).
  assert (Ho : forall AUi AUj,
             counts_or demo_table AUi AUj = counts_or demo_table AUj AUi)
    by (intros a b; simpl; now rewrite (String.eqb_sym a b)).
  split; [split; assumption|].
  destruct (symm_adjacency_symmetric demo_table Ha Ho) as [adj [Hadj [Hsym Hcells]]].
  exists adj. split; [exact Hadj|]. split; [exact Hsym|].
  apply (Hcells "AU01_c"%string "AU02_c"%string); [reflexivity|reflexivity|].
  simpl. intros [H _]. discriminate.
Defined.

(** C7 as stated, for every pair of Action Units: in this table with
    symmetric counts the second unit is never active, so its AND count
    and its OR count with itself are 0, the cell is 0/0 = NaN, and
    [adjacency(AU28_c, AU28_c) == adjacency(AU28_c, AU28_c)] is false. *)
Lemma symm_adjacency_nan_unequal :
  (forall AUi AUj,
     counts_and silent_unit_table AUi AUj = counts_and silent_unit_table AUj AUi) /\
  (forall AUi AUj,
     counts_or silent_unit_table AUi AUj = counts_or silent_unit_table AUj AUi) /\
  exists adj,
    adjacency_symm silent_unit_table = Some adj /\
    loc adj "AU28_c"%string "AU28_c"%string = Some NaN /\
    cells_equal adj "AU28_c"%string "AU28_c"%string = Some false.
Proof.
  split; [|split].
  - intros a b. simpl. now rewrite andb_comm.
  - intros a b. simpl. now rewrite orb_comm.
  - eexists. split; [reflexivity|]. split; reflexivity.
Qed.

End AdjacencyFacts.

(** ** The best checkpoint of a cross-validation run *)

Module TrainingFacts.
Import Training.

(** Whatever the training does, the value read from [best_params] after
    the run is the model's parameters as the last epoch left them. *)
Lemma kfold_CV_reads_final_model (params : Type)
    (reset_params : nat -> params -> params)
    (train_epoch : nat -> nat -> params -> params)
    (test_accuracy : nat -> params -> Q) (k num_epochs : nat) (initial : params) :
  kfold_CV reset_params train_epoch test_accuracy k num_epochs initial
  = option_map
      (fun _ => model (run reset_params train_epoch test_accuracy k num_epochs initial))
      (best_params (run reset_params train_epoch test_accuracy k num_epochs initial)).
Proof.
  unfold kfold_CV. now destruct (best_params _) as [[]|].
Qed.

(** C5 (the code departs from it). The value read from the returned
    [best_params] is, whenever it is set, the model's parameters at the
    end of the run.  In a run of two folds and two epochs whose test
    accuracy peaks at 75 percent after the first epoch of fold 0, where
    the single parameter is 1, that value is 2, the parameter after the
    last epoch of the last fold, while the checkpoint with the highest
    test accuracy holds 1. *)
Theorem best_params_follows_later_training :
  (forall (params : Type) (reset_params : nat -> params -> params)
          (train_epoch : nat -> nat -> params -> params)
          (test_accuracy : nat -> params -> Q) (k num_epochs : nat) (initial : params),
      kfold_CV reset_params train_epoch test_accuracy k num_epochs initial
      = option_map
          (fun _ => model (run reset_params train_epoch test_accuracy k num_epochs initial))
          (best_params (run reset_params train_epoch test_accuracy k num_epochs initial))) /\
  checkpoints demo_reset demo_train demo_accuracy 2 2 0%nat
  = [(75%Q, 1%nat); (50%Q, 2%nat); (50%Q, 1%nat); (50%Q, 2%nat)] /\
  best_checkpoint (checkpoints demo_reset demo_train demo_accuracy 2 2 0%nat) None
  = Some 1%nat /\
  kfold_CV demo_reset demo_train demo_accuracy 2 2 0%nat = Some 2%nat.
Proof.
  split; [exact kfold_CV_reads_final_model|].
  repeat split.
Qed.

End TrainingFacts.

(** ** Sequential and parallel frequency analysis *)

Module FrequencyFacts.
Import Np Float Frequency.

Lemma zip_add_zero (c : Z -> Z) (lv nof : list Z) :
  zip_with (fun l n => n + c l) lv nof
  = zip_with Z.add nof (zip_with (fun l n => n + c l) lv (map (fun _ => 0) lv)).
Proof.
  revert nof; induction lv as [|l lv IH]; intros [|n nof]; simpl; try reflexivity.
  now rewrite <- IH.
Qed.

Lemma add_frames_join (labels : list label) (nof : list Z) :
  add_frames labels nof = zip_with Z.add nof (add_frames labels zero_frames).
Proof. unfold add_frames, zero_frames. apply zip_add_zero. Qed.

Section Dataset.

Variable subject : Type.
Variable subject_list : list subject.
Variable subjects_no_use : subject -> bool.
Variable load_labels : subject -> list label.
Variable load_AUc : subject -> table.
Variable load_AUr : subject -> table.
Variable confidence : Type.
Variable load_confidence : subject -> option confidence.
Variable mask_by_confidence : confidence -> Q -> table -> option table.
Variable channels_AUc : nat.
Variable channels_AUr : nat.

Lemma confidence_filter_falsy (s : subject) (e : option Q) labels AUc_data AUr_data :
  falsy e = true ->
  confidence_filter load_confidence mask_by_confidence s e labels AUc_data AUr_data
  = Some (labels, AUc_data, AUr_data).
Proof.
  destruct e as [q|]; simpl; [|reflexivity]. now intros ->.
Qed.

(** Without a threshold the sequential loop adds up what the jobs hand back. *)
Lemma sequential_loop_falsy (e : option Q) (todo : list subject) (acc : result) :
  falsy e = true ->
  sequential_loop subjects_no_use load_labels load_AUc load_AUr
    load_confidence mask_by_confidence e todo acc
  = (results <- mapM (fun s => _subject_frequency_analysis load_labels load_AUc
                                 load_AUr load_confidence mask_by_confidence s None)
                     (filter (fun s => negb (subjects_no_use s)) todo) ;;
     Some (fold_left join results acc)).
Proof.
  intro He. revert acc; induction todo as [|s todo IH]; intro acc; [reflexivity|].
  cbn [sequential_loop filter].
  destruct (subjects_no_use s); cbn [negb]; [apply IH|].
  cbn [mapM]. unfold _subject_frequency_analysis at 1.
  rewrite (confidence_filter_falsy s e _ _ _ He).
  rewrite (confidence_filter_falsy s None _ _ _ eq_refl).
  cbn [bind fst snd].
  destruct (count_pair_occurrences (load_AUc s) (load_labels s) 1 andb); [|reflexivity].
  destruct (count_pair_occurrences (load_AUc s) (load_labels s) 1 orb); [|reflexivity].
  destruct (count_pair_occurrences (load_AUr s) (load_labels s) 1 andb); [|reflexivity].
  destruct (count_pair_occurrences (load_AUr s) (load_labels s) 1 orb); [|reflexivity].
  cbn [bind]. rewrite IH, add_frames_join.
  destruct (mapM _ _); reflexivity.
Qed.

(** When no threshold is in force the frames at the end of the
    sequential loop are the four count frames and the frame totals of the
    parallel analysis. *)
Lemma sequential_eq_parallel_without_threshold (e e' : option Q) :
  falsy e = true ->
  frames_after_loop subject_list subjects_no_use load_labels load_AUc load_AUr
    load_confidence mask_by_confidence channels_AUc channels_AUr e
  = frequency_analysis_parallel subject_list subjects_no_use load_labels load_AUc
      load_AUr load_confidence mask_by_confidence channels_AUc channels_AUr e'.
Proof. intro He. unfold frames_after_loop. now apply sequential_loop_falsy. Qed.

(** The sequential analysis never gets to write its frames. *)
Lemma frequency_analysis_raises (e : option Q) :
  frequency_analysis subject_list subjects_no_use load_labels load_AUc load_AUr
    load_confidence mask_by_confidence channels_AUc channels_AUr e = None.
Proof. unfold frequency_analysis. now destruct (frames_after_loop _ _ _ _ _ _ _ _ _ _). Qed.

(** The parallel analysis does not depend on its threshold. *)
Lemma parallel_ignores_threshold (e e' : option Q) :
  frequency_analysis_parallel subject_list subjects_no_use load_labels load_AUc
    load_AUr load_confidence mask_by_confidence channels_AUc channels_AUr e
  = frequency_analysis_parallel subject_list subjects_no_use load_labels load_AUc
      load_AUr load_confidence mask_by_confidence channels_AUc channels_AUr e'.
Proof. reflexivity. Qed.

End Dataset.

(** C6 (the code departs from it). For one subject with a single baseline
    frame and the threshold 0.5, the parallel analysis counts that frame
    (its total for label 0 is 1), because the job is started without the
    threshold; the sequential analysis keeps only the labels above 0.5, so
    it either raises or ends with the total 0 for label 0, whatever the
    confidence column and the masking do.  This holds of the frames the
    sequential loop has in memory when it is left; the sequential
    function itself raises before it writes them. *)
Theorem parallel_drops_confidence_threshold
    (confidence : Type) (load_confidence : unit -> option confidence)
    (mask_by_confidence : confidence -> Q -> table -> option table) :
  let parallel :=
    frequency_analysis_parallel [tt] (fun _ => false) (fun _ => [Some 0])
      (fun _ => one_frame) (fun _ => one_frame) load_confidence mask_by_confidence
      1 1 (Some (1 # 2)%Q) in
  let sequential :=
    frequency_analysis [tt] (fun _ => false) (fun _ => [Some 0])
      (fun _ => one_frame) (fun _ => one_frame) load_confidence mask_by_confidence
      1 1 (Some (1 # 2)%Q) in
  let frames :=
    frames_after_loop [tt] (fun _ => false) (fun _ => [Some 0])
      (fun _ => one_frame) (fun _ => one_frame) load_confidence mask_by_confidence
      1 1 (Some (1 # 2)%Q) in
  option_map nof_frames_per_label parallel = Some [1; 0; 0; 0; 0; 0; 0; 0; 0; 0; 0; 0; 0] /\
  (sequential = None \/
   option_map nof_frames_per_label sequential
   = Some [0; 0; 0; 0; 0; 0; 0; 0; 0; 0; 0; 0; 0]) /\
  (frames = None \/
   option_map nof_frames_per_label frames
   = Some [0; 0; 0; 0; 0; 0; 0; 0; 0; 0; 0; 0; 0]) /\
  sequential = None.
Proof.
  cbv zeta. split; [reflexivity|].
  split; [left; apply frequency_analysis_raises|].
  split; [|apply frequency_analysis_raises].
  unfold frames_after_loop. cbn [sequential_loop].
  unfold confidence_filter.
  change (Qeq_bool (1 # 2) 0) with false.
  change (negb (Qle_bool (1 # 2) 0) && Qle_bool (1 # 2) 1) with true.
  cbn iota.
  destruct (load_confidence tt) as [conf|]; [|now left]. cbn [bind].
  destruct (mask_by_confidence conf (1 # 2)%Q one_frame) as [t|]; [|now left].
  cbn [bind fst snd filter label_gt].
  change (negb (Qle_bool (inject_Z 0) (1 # 2))) with false. cbn iota.
  destruct (count_pair_occurrences t [] 1 andb); [|now left].
  destruct (count_pair_occurrences t [] 1 orb); [|now left].
  right. reflexivity.
Qed.

End FrequencyFacts.

(** ** The subject-wise k-fold split *)

Module KFoldFacts.
Import Np NpFacts KFold.

Lemma insert_unique_In (x y : Z) (l : list Z) :
  In y (insert_unique x l) <-> x = y \/ In y l.
Proof.
  induction l as [|a l IH]; simpl; [tauto|].
  destruct (Z.ltb_spec x a); [simpl; tauto|].
  destruct (Z.eqb_spec x a) as [->|]; simpl; [tauto|].
  rewrite IH. tauto.
Qed.

Lemma insert_unique_sorted (x : Z) (l : list Z) :
  StronglySorted Z.lt l -> StronglySorted Z.lt (insert_unique x l).
Proof.
  induction l as [|a l IH]; intro Hs; simpl.
  - constructor; constructor.
  - inversion Hs as [|? ? Hs' Hall]; subst.
    destruct (Z.ltb_spec x a).
    + constructor; [exact Hs|]. constructor; [assumption|].
      eapply Forall_impl; [|exact Hall]. simpl. intros; lia.
    + destruct (Z.eqb_spec x a); [exact Hs|].
      constructor; [now apply IH|].
      apply Forall_forall. intros y Hy. apply insert_unique_In in Hy.
      destruct Hy as [<- | Hy]; [lia|]. rewrite Forall_forall in Hall. now apply Hall.
Qed.

Lemma unique_sorted (l : list Z) : StronglySorted Z.lt (unique l).
Proof.
  induction l as [|a l IH]; simpl; [constructor|now apply insert_unique_sorted].
Qed.

Lemma sorted_NoDup (l : list Z) : StronglySorted Z.lt l -> NoDup l.
Proof.
  induction 1 as [|a l Hs IH Hall]; constructor; [|exact IH].
  intro Hin. rewrite Forall_forall in Hall. specialize (Hall a Hin). lia.
Qed.

Lemma subject_list_NoDup (subjects : list Z) : NoDup (subject_list subjects).
Proof. apply sorted_NoDup, unique_sorted. Qed.

Lemma sizes_sum (q r k : nat) :
  list_sum (map (fun f => if (f <? r)%nat then S q else q) (seq 0 k))
  = (k * q + Nat.min r k)%nat.
Proof.
  induction k as [|k IH]; [simpl; lia|].
  rewrite seq_S, map_app, list_sum_app, IH. simpl.
  destruct (Nat.ltb_spec k r); lia.
Qed.

Lemma fold_sizes_sum (n k : nat) : (0 < k)%nat -> list_sum (fold_sizes n k) = n.
Proof.
  intro Hk. unfold fold_sizes. rewrite sizes_sum.
  pose proof (Nat.mod_upper_bound n k ltac:(lia)).
  pose proof (Nat.div_mod_eq n k). lia.
Qed.

Lemma folds_from_tests (current : nat) (sizes : list nat) (n : nat) :
  concat (map snd (folds_from current sizes n)) = seq current (list_sum sizes).
Proof.
  revert current; induction sizes as [|a sizes IH]; intro current; simpl; [reflexivity|].
  now rewrite IH, seq_app.
Qed.

Lemma folds_from_length (current : nat) (sizes : list nat) (n : nat) :
  length (folds_from current sizes n) = length sizes.
Proof.
  revert current; induction sizes as [|a sizes IH]; intro current; simpl; auto.
Qed.

Lemma folds_from_train (current : nat) (sizes : list nat) (n : nat) x i :
  In x (folds_from current sizes n) -> In i (fst x) -> (i < n)%nat.
Proof.
  revert current; induction sizes as [|a sizes IH]; intros current Hx Hi; simpl in Hx.
  - contradiction.
  - destruct Hx as [<- | Hx]; [|eauto].
    simpl in Hi. apply filter_In in Hi. destruct Hi as [Hi _].
    apply in_seq in Hi. lia.
Qed.

Lemma NoDup_app_disjoint A (l l' : list A) (x : A) :
  NoDup (l ++ l') -> In x l -> In x l' -> False.
Proof.
  induction l as [|a l IH]; intros Hnd Hl Hl'; [contradiction|].
  simpl in Hnd. inversion Hnd as [|? ? Hnot Hnd']; subst.
  destruct Hl as [-> | Hl]; [|now apply IH].
  apply Hnot. apply in_or_app. now right.
Qed.

(** In a duplicate-free concatenation an element sits in one piece only. *)
Lemma concat_unique_position A (ls : list (list A)) (f f' : nat) (l1 l2 : list A) (x : A) :
  NoDup (concat ls) -> nth_error ls f = Some l1 -> nth_error ls f' = Some l2 ->
  In x l1 -> In x l2 -> f = f'.
Proof.
  revert f f'; induction ls as [|a ls IH]; intros f f' Hnd H1 H2 Hx1 Hx2.
  - now destruct f.
  - simpl in Hnd. destruct f as [|f], f' as [|f']; simpl in H1, H2.
    + reflexivity.
    + injection H1 as ->. exfalso. apply (@NoDup_app_disjoint _ _ _ x Hnd Hx1).
      apply in_concat. exists l2. split; [eapply nth_error_In; eauto|exact Hx2].
    + injection H2 as ->. exfalso. apply (@NoDup_app_disjoint _ _ _ x Hnd Hx2).
      apply in_concat. exists l1. split; [eapply nth_error_In; eauto|exact Hx1].
    + f_equal. apply IH; try assumption. now apply NoDup_app_remove_l in Hnd.
Qed.

Lemma take_In A (l : list A) (idxs : list Z) (r : list A) (a : A) :
  take l idxs = Some r ->
  (In a r <-> exists i, In i idxs /\ get l i = Some a).
Proof.
  revert r; induction idxs as [|i idxs IH]; intros r H; simpl in H.
  - injection H as <-. simpl. split; [tauto|]. now intros [i [[] _]].
  - destruct (get l i) as [b|] eqn:Eb; [|discriminate].
    destruct (take l idxs) as [r'|]; [|discriminate]. injection H as <-.
    specialize (IH r' eq_refl). simpl. rewrite IH. split.
    + intros [-> | [j [Hj Hg]]]; [exists i; auto|exists j; auto].
    + intros [j [[-> | Hj] Hg]]; [left; congruence|right; eauto].
Qed.

Lemma mapM_total A B (f : A -> option B) (l : list A) :
  (forall a, In a l -> f a <> None) -> exists r, mapM f l = Some r.
Proof.
  induction l as [|a l IH]; intro H; [now eexists|].
  cbn [mapM]. destruct (f a) as [b|] eqn:Eb.
  - destruct IH as [r Hr]; [intros; apply H; now right|].
    rewrite Hr. now eexists.
  - exfalso. apply (H a); [now left|exact Eb].
Qed.

Lemma mapM_nth_error A B (f : A -> option B) (l : list A) (r : list B) (i : nat) :
  mapM f l = Some r ->
  (forall a, nth_error l i = Some a ->
             exists b, nth_error r i = Some b /\ f a = Some b) /\
  (forall b, nth_error r i = Some b ->
             exists a, nth_error l i = Some a /\ f a = Some b).
Proof.
  revert r i; induction l as [|x l IH]; intros r i H.
  - simpl in H. injection H as <-. split; intros ? Hn; now destruct i.
  - cbn [mapM] in H. destruct (f x) as [y|] eqn:Ey; [|discriminate].
    destruct (mapM f l) as [r'|] eqn:Er; [|discriminate].
    injection H as <-. destruct i as [|i]; simpl.
    + split; intros ? [= <-]; eauto.
    + now apply IH.
Qed.

Lemma mapM_length A B (f : A -> option B) (l : list A) (r : list B) :
  mapM f l = Some r -> length r = length l.
Proof.
  revert r; induction l as [|x l IH]; intros r H.
  - simpl in H. now injection H as <-.
  - cbn [mapM] in H. destruct (f x); [|discriminate].
    destruct (mapM f l) as [r'|]; [|discriminate].
    injection H as <-. simpl. now rewrite (IH r' eq_refl).
Qed.

Lemma nonzero_In (mask : list bool) (j : Z) :
  In j (nonzero mask) <-> 0 <= j /\ nth_error mask (Z.to_nat j) = Some true.
Proof.
  unfold nonzero. rewrite nonzero_from_In. now replace (j - 0) with j by lia.
Qed.

(** The sample indices of one fold: every sample is on exactly one side. *)
Lemma get_train_test_idxs_partition (subjects test_subjects : list Z) (j : Z) :
  let tt := get_train_test_idxs subjects test_subjects in
  (0 <= j < Z.of_nat (length subjects) ->
   (In j (fst tt) /\ ~ In j (snd tt)) \/ (In j (snd tt) /\ ~ In j (fst tt))) /\
  (In j (fst tt) \/ In j (snd tt) -> 0 <= j < Z.of_nat (length subjects)).
Proof.
  cbv zeta. unfold get_train_test_idxs. cbn [fst snd].
  set (mask := map (fun s => existsb (Z.eqb s) test_subjects) subjects).
  assert (Hlen : length mask = length subjects) by (unfold mask; apply length_map).
  rewrite !nonzero_In, nth_error_map. split.
  - intros Hj. destruct (nth_error mask (Z.to_nat j)) as [b|] eqn:E.
    + destruct b; simpl; [right|left]; (split; [split; [lia|reflexivity]|]);
        intros [_ H]; discriminate.
    + apply nth_error_None in E. lia.
  - intros [[H0 H] | [H0 H]]; (split; [exact H0|]);
      destruct (nth_error mask (Z.to_nat j)) eqn:E; try discriminate;
      assert (Hn : nth_error mask (Z.to_nat j) <> None) by congruence;
      apply nth_error_Some in Hn; lia.
Qed.

(** C8 (amended). For every data set and every fold count [k] with
    [2 <= k <=] the number of subjects, the split is produced, has [k]
    folds, puts every subject into the test subjects of exactly one fold,
    and in every fold each sample index of the data set is either a
    training index or a test index, never both, and no other index
    occurs. *)
Theorem kfold_split_covers_subjects (subjects : list Z) (k : nat) :
  (2 <= k <= length (subject_list subjects))%nat ->
  exists folds,
    cv_folds subjects k = Some folds /\ length folds = k /\
    (forall s, In s (subject_list subjects) ->
       exists f fd,
         nth_error folds f = Some fd /\ In s (test_subjects fd) /\
         forall f' fd', nth_error folds f' = Some fd' ->
                        In s (test_subjects fd') -> f' = f) /\
    (forall fd, In fd folds ->
       forall j, 0 <= j < Z.of_nat (length subjects) ->
         (In j (train_idxs fd) /\ ~ In j (test_idxs fd)) \/
         (In j (test_idxs fd) /\ ~ In j (train_idxs fd))) /\
    (forall fd, In fd folds ->
       forall j, In j (train_idxs fd) \/ In j (test_idxs fd) ->
                 0 <= j < Z.of_nat (length subjects)).
Proof.
  intro Hk. unfold cv_folds.
  set (S := subject_list subjects) in *. set (n := length S) in *.
  set (sp := folds_from 0 (fold_sizes n k) n).
  assert (Hsplit : split n k = Some sp).
  { unfold split. destruct (Nat.ltb_spec k 2); [lia|].
    destruct (Nat.ltb_spec n k); [lia|]. reflexivity. }
  rewrite Hsplit. cbn [bind].
  assert (Htests : concat (map snd sp) = seq 0 n).
  { unfold sp. rewrite folds_from_tests, fold_sizes_sum by lia. reflexivity. }
  assert (Htest_range : forall x i, In x sp -> In i (snd x) -> (i < n)%nat).
  { intros x i Hx Hi.
    assert (Hin : In i (concat (map snd sp))).
    { apply in_concat. exists (snd x). split; [now apply in_map|exact Hi]. }
    rewrite Htests in Hin. apply in_seq in Hin. lia. }
  assert (Htake : forall idxs, (forall i, In i idxs -> (i < n)%nat) ->
                    exists r, take S (map Z.of_nat idxs) = Some r).
  { intros idxs Hidx. destruct (@take_total _ S (map Z.of_nat idxs)) as [r [Hr _]];
      [|now exists r].
    intros z Hz. apply in_map_iff in Hz. destruct Hz as [i [<- Hi]].
    specialize (Hidx i Hi). fold n. lia. }
  set (g := fun idxs : list nat * list nat =>
              train_subjcets <- take S (map Z.of_nat (fst idxs)) ;;
              test_subjects <- take S (map Z.of_nat (snd idxs)) ;;
              Some {| train_subjects := train_subjcets; test_subjects := test_subjects;
                      train_idxs := fst (get_train_test_idxs subjects test_subjects);
                      test_idxs := snd (get_train_test_idxs subjects test_subjects) |}).
  assert (Hg : forall x fd, In x sp -> g x = Some fd ->
                 take S (map Z.of_nat (snd x)) = Some (test_subjects fd) /\
                 train_idxs fd = fst (get_train_test_idxs subjects (test_subjects fd)) /\
                 test_idxs fd = snd (get_train_test_idxs subjects (test_subjects fd))).
  { intros x fd Hx Hgx. unfold g in Hgx.
    destruct (take S (map Z.of_nat (fst x))); [|discriminate].
    destruct (take S (map Z.of_nat (snd x))); [|discriminate].
    cbn [bind] in Hgx. injection Hgx as <-. auto. }
  destruct (@mapM_total _ _ g sp) as [folds Hfolds].
  { intros x Hx. unfold g.
    destruct (Htake (fst x)) as [r1 ->]; [intros i Hi; eapply folds_from_train; eauto|].
    destruct (Htake (snd x)) as [r2 ->]; [intros i Hi; eapply Htest_range; eauto|].
    discriminate. }
  exists folds. split; [exact Hfolds|]. split.
  { rewrite (mapM_length _ _ Hfolds). unfold sp.
    rewrite folds_from_length. unfold fold_sizes. now rewrite length_map, length_seq. }
  assert (Hfd : forall fd, In fd folds -> exists x, In x sp /\ g x = Some fd).
  { intros fd Hin. apply In_nth_error in Hin. destruct Hin as [f Hf].
    destruct (mapM_nth_error _ _ f Hfolds) as [_ Hback].
    destruct (Hback fd Hf) as [x [Hx Hgx]]. exists x. split; [|exact Hgx].
    eapply nth_error_In; eauto. }
  split; [|split].
  - intros s Hs. apply In_nth_error in Hs. destruct Hs as [i Hi].
    assert (Hin : (i < n)%nat) by (apply nth_error_Some; congruence).
    assert (Hic : In i (concat (map snd sp))) by (rewrite Htests; apply in_seq; lia).
    apply in_concat in Hic. destruct Hic as [te [Hte Hite]].
    apply In_nth_error in Hte. destruct Hte as [f Hf].
    rewrite nth_error_map in Hf.
    destruct (nth_error sp f) as [x|] eqn:Ex; [|discriminate].
    simpl in Hf. injection Hf as <-.
    destruct (mapM_nth_error _ _ f Hfolds) as [Hfwd _].
    destruct (Hfwd x Ex) as [fd [Hfd1 Hgx]].
    destruct (Hg x fd (nth_error_In _ _ Ex) Hgx) as [Htk _].
    exists f, fd. split; [exact Hfd1|]. split.
    + apply (take_In _ _ s Htk). exists (Z.of_nat i). split; [now apply in_map|].
      now rewrite get_of_nat.
    + intros f' fd' Hfd' Hs'.
      destruct (mapM_nth_error _ _ f' Hfolds) as [_ Hback].
      destruct (Hback fd' Hfd') as [x' [Ex' Hgx']].
      destruct (Hg x' fd' (nth_error_In _ _ Ex') Hgx') as [Htk' _].
      apply (take_In _ _ s Htk') in Hs'. destruct Hs' as [z [Hz Hgz]].
      apply in_map_iff in Hz. destruct Hz as [i' [<- Hi']].
      rewrite get_of_nat in Hgz.
      assert (i' = i).
      { apply (proj1 (NoDup_nth_error S) (subject_list_NoDup subjects)).
        - apply nth_error_Some. congruence.
        - congruence. }
      subst i'.
      apply (@concat_unique_position _ (map snd sp) f' f (snd x') (snd x) i).
      * rewrite Htests. apply seq_NoDup.
      * now rewrite nth_error_map, Ex'.
      * now rewrite nth_error_map, Ex.
      * exact Hi'.
      * exact Hite.
  - intros fd Hin j Hj. destruct (Hfd fd Hin) as [x [Hx Hgx]].
    destruct (Hg x fd Hx Hgx) as [_ [-> ->]].
    now apply get_train_test_idxs_partition.
  - intros fd Hin j Hj. destruct (Hfd fd Hin) as [x [Hx Hgx]].
    destruct (Hg x fd Hx Hgx) as [_ [Htr Hte]]. rewrite Htr, Hte in Hj.
    now apply (get_train_test_idxs_partition subjects (test_subjects fd) j).
Qed.

Lemma kfold_split_covers_subjects_witness :
  (le 2 2 /\ le 2 (length (subject_list [3; 3; 1; 2; 2; 5; 1; 4]))) /\
  exists folds, cv_folds [3; 3; 1; 2; 2; 5; 1; 4] 2 = Some folds /\ length folds = 2%nat.
Proof.
  assert (Hk : le 2 2 /\ le 2 (length (subject_list [3; 3; 1; 2; 2; 5; 1; 4])))
    by (vm_compute; lia).
  split; [exact Hk|].
  destruct (kfold_split_covers_subjects [3; 3; 1; 2; 2; 5; 1; 4] Hk)
    as [folds [Hf [Hlen _]]].
  exists folds. split; [exact Hf | exact Hlen].
Defined.

(** C8 as stated, without the lower bound on [k]: with a single fold,
    which does not exceed the number of subjects, scikit-learn refuses the
    split and no fold is produced. *)
Lemma kfold_single_fold_raises :
  le 1 (length (subject_list [1; 2; 3])) /\ cv_folds [1; 2; 3] 1 = None.
Proof. split; [vm_compute; lia|reflexivity]. Qed.

End KFoldFacts.

(** ** Label groups *)

Module LabelGroupFacts.
Import Np XITE.

(** X1. [_get_label_group] raises exactly for the labels that are neither
    a pain label nor one of the baseline labels introduced by the
    segmenter (the plain baseline 0 among them), and the baseline label
    100 times a pain label falls into the baseline group paired with the
    group of that pain label. *)
Theorem get_label_group_domain :
  (forall l, _get_label_group l = None <-> ~ In l (labels_pain ++ labels_base)) /\
  (forall l, In l labels_pain ->
     exists g, _get_label_group l = Some g /\
               _get_label_group (l * 100) = Some (B g) /\
               In g [pH; pE; tH; tE]).
Proof.
  split.
  - intro l. unfold _get_label_group, labels_pain, labels_base.
    cbn [existsb app].
    repeat match goal with
           | |- context [Z.eqb l ?c] =>
               destruct (Z.eqb_spec l c) as [->|];
               [cbn; split; [discriminate|intro H; exfalso; apply H; cbn; tauto]|]
           end.
    cbn. split; [|reflexivity]. intros _ H.
    repeat destruct H as [H|H]; try contradiction; congruence.
  - intros l Hl. cbn in Hl.
    repeat destruct Hl as [<-|Hl]; try contradiction;
      eexists; (split; [reflexivity|]); (split; [reflexivity|]); cbn; tauto.
Qed.

End LabelGroupFacts.

(** ** Durations of the intervals *)

Module DurationFacts.
Import Np NpFacts Intervals IntervalsFacts.

Lemma sum_zip_durations (E S : list Z) :
  length E = length S ->
  fold_right Z.add 0 (zip_with (fun e s => e - s + 1) E S)
  = fold_right Z.add 0 E - fold_right Z.add 0 S + Z.of_nat (length S).
Proof.
  revert S; induction E as [|e E IH]; intros [|s S] Hlen; simpl in Hlen;
    try discriminate; [reflexivity|].
  cbn [zip_with fold_right length]. rewrite IH by lia. lia.
Qed.

Lemma sum_app (a b : list Z) :
  fold_right Z.add 0 (a ++ b) = fold_right Z.add 0 a + fold_right Z.add 0 b.
Proof. induction a as [|x a IH]; simpl; [reflexivity|]. rewrite IH. lia. Qed.

Lemma sum_map_pred (X : list Z) :
  fold_right Z.add 0 (map Z.pred X) = fold_right Z.add 0 X - Z.of_nat (length X).
Proof. induction X as [|x X IH]; simpl fold_right; [reflexivity|]. rewrite IH. simpl length. lia. Qed.

Lemma zip_with_nth_inv A B C (f : A -> B -> C) l m i c :
  nth_error (zip_with f l m) i = Some c ->
  exists a b, nth_error l i = Some a /\ nth_error m i = Some b /\ c = f a b.
Proof.
  revert m i; induction l as [|x l IH]; intros [|y m] [|i] H; simpl in H;
    try discriminate.
  - injection H as <-. now exists x, y.
  - simpl. now apply IH.
Qed.

(** X2. For every non-empty label array the durations of the intervals
    are all at least one frame and add up to the number of frames. *)
Theorem durations_sum_to_frames (labels : list label) :
  labels <> [] ->
  exists r, _compute_intervals_info labels = Some r /\
            Forall (fun d => 1 <= d) (durations r) /\
            fold_right Z.add 0 (durations r) = Z.of_nat (length labels).
Proof.
  intro Hne. unfold _compute_intervals_info.
  rewrite starts_eq, (ends_eq Hne).
  destruct (@take_total _ labels (0 :: cuts labels)) as [il [Htake _]].
  { intros i [<- | Hi]; [|apply cuts_range in Hi; lia].
    destruct labels; [congruence|simpl; lia]. }
  rewrite Htake. eexists. split; [reflexivity|]. cbn [durations]. split.
  - apply Forall_forall. intros d Hd. apply In_nth_error in Hd. destruct Hd as [i Hi].
    apply zip_with_nth_inv in Hi. destruct Hi as [e [s [He [Hs ->]]]].
    destruct (interval_shape _ Hne Hs He) as [Hse _]. lia.
  - rewrite sum_zip_durations by (rewrite length_app, length_map; simpl; lia).
    rewrite sum_app, sum_map_pred. cbn [fold_right length]. lia.
Qed.

Lemma durations_sum_to_frames_witness :
  map Some [0; 0; 1; 1; 1; 0] <> [] /\
  exists r, _compute_intervals_info (map Some [0; 0; 1; 1; 1; 0]) = Some r /\
            fold_right Z.add 0 (durations r) = 6.
Proof.
  assert (Hne : map Some [0; 0; 1; 1; 1; 0] <> []) by discriminate.
  split; [exact Hne|].
  destruct (durations_sum_to_frames Hne) as [r [Hr [_ Hsum]]].
  exists r. split; [exact Hr | exact Hsum].
Defined.

End DurationFacts.

(** ** Selection of the slices *)

Module SliceSelectionFacts.
Import Np NpFacts XITE Intervals IntervalsFacts DurationFacts KFoldFacts Slices.

Lemma nonzero_range (mask : list bool) (j : Z) :
  In j (nonzero mask) -> 0 <= j < Z.of_nat (length mask).
Proof.
  intro H. apply nonzero_In in H. destruct H as [H0 H].
  assert (Hn : nth_error mask (Z.to_nat j) <> None) by congruence.
  apply nth_error_Some in Hn. lia.
Qed.

Lemma compress_In A (mask : list bool) (l : list A) (x : A) :
  In x (compress mask l) -> In x l.
Proof.
  revert l; induction mask as [|b mask IH]; intros [|a l] H; simpl in H;
    try contradiction.
  destruct b; [destruct H as [-> | H]; [now left|]|]; right; now apply IH.
Qed.

Lemma and_mask_length (A B : list bool) :
  length (and_mask A B) = Nat.min (length A) (length B).
Proof. apply zip_with_length. Qed.

Lemma and_mask_true (A B : list bool) (i : nat) :
  nth_error (and_mask A B) i = Some true ->
  nth_error A i = Some true /\ nth_error B i = Some true.
Proof.
  intro H. apply zip_with_nth_inv in H. destruct H as [a [b [Ha [Hb Hab]]]].
  symmetry in Hab. apply andb_prop in Hab. destruct Hab as [-> ->]. auto.
Qed.

Lemma map_nth_true A (f : A -> bool) (l : list A) (i : nat) :
  nth_error (map f l) i = Some true ->
  exists x, nth_error l i = Some x /\ f x = true.
Proof.
  rewrite nth_error_map. destruct (nth_error l i) as [x|]; simpl; [|discriminate].
  intros [= H]. eauto.
Qed.

Lemma post_of_length A (nan : A) (l : list A) :
  (length l <= length (post_of nan l))%nat.
Proof. unfold post_of. rewrite length_app. destruct l; simpl; lia. Qed.

Lemma post_of_get (durs : list Z) (id dpost : Z) :
  0 <= id ->
  get (post_of None (map Some durs)) id = Some (Some dpost) ->
  nth_error durs (S (Z.to_nat id)) = Some dpost.
Proof.
  intros Hid H. unfold get in H. destruct (Z.ltb_spec id 0); [lia|].
  unfold post_of in H. destruct durs as [|d0 durs]; simpl in H.
  - destruct (Z.to_nat id) as [|k]; simpl in H; [discriminate|now destruct k].
  - simpl. destruct (Nat.lt_ge_cases (Z.to_nat id) (length (map Some durs))) as [Hlt|Hge].
    + rewrite nth_error_app1 in H by exact Hlt. rewrite nth_error_map in H.
      destruct (nth_error durs (Z.to_nat id)); simpl in H; congruence.
    + rewrite nth_error_app2 in H by exact Hge.
      destruct (Z.to_nat id - length (map Some durs))%nat as [|k]; simpl in H;
        [discriminate|now destruct k].
Qed.

Lemma take_Some_get A (l : list A) (idxs : list Z) (r : list A) (i : Z) :
  take l idxs = Some r -> In i idxs -> exists a, get l i = Some a.
Proof.
  revert r; induction idxs as [|j idxs IH]; intros r H Hi; [contradiction|].
  simpl in H. destruct (get l j) as [a|] eqn:Ea; [|discriminate].
  destruct (take l idxs) as [r'|]; [|discriminate].
  destruct Hi as [-> | Hi]; [eauto|]. now apply (IH r').
Qed.

Lemma take_mask A (l : list A) (mask : list bool) (idxs : list Z) :
  (length mask <= length l)%nat -> (forall i, In i idxs -> In i (nonzero mask)) ->
  exists r, take l idxs = Some r.
Proof.
  intros Hlen Hsub. destruct (@take_total _ l idxs) as [r [Hr _]]; [|eauto].
  intros i Hi. apply Hsub, nonzero_range in Hi. lia.
Qed.

(** Filtering indices by a test on two arrays read at those indices. *)
Lemma compress_take2 A B C (g : C -> B -> bool) (fA : A -> C)
    (D : list A) (P : list B) (L : list Z) (DL : list A) (PL : list B) (x : Z) :
  take D L = Some DL -> take P L = Some PL ->
  In x (compress (zip_with g (map fA DL) PL) L) ->
  exists d p, get D x = Some d /\ get P x = Some p /\ g (fA d) p = true /\ In x L.
Proof.
  revert DL PL; induction L as [|i L IH]; intros DL PL HD HP Hx.
  - simpl in HD. injection HD as <-. contradiction.
  - simpl in HD, HP.
    destruct (get D i) as [d0|] eqn:Ed; [|discriminate].
    destruct (take D L) as [DL'|] eqn:EDL; [|discriminate]. injection HD as <-.
    destruct (get P i) as [p0|] eqn:Ep; [|discriminate].
    destruct (take P L) as [PL'|] eqn:EPL; [|discriminate]. injection HP as <-.
    cbn [map zip_with compress] in Hx.
    destruct (g (fA d0) p0) eqn:Eg.
    + destruct Hx as [<- | Hx].
      * exists d0, p0. repeat split; auto. now left.
      * destruct (IH DL' PL' eq_refl eq_refl Hx) as [d [p [H1 [H2 [H3 H4]]]]].
        exists d, p. repeat split; auto. now right.
    + destruct (IH DL' PL' eq_refl eq_refl Hx) as [d [p [H1 [H2 [H3 H4]]]]].
      exists d, p. repeat split; auto. now right.
Qed.

(** Filtering indices by a test on one array read at those indices. *)
Lemma compress_take1 A (h : A -> bool) (D : list A) (L : list Z) (DL : list A) (x : Z) :
  take D L = Some DL ->
  In x (compress (map h DL) L) ->
  exists d, get D x = Some d /\ h d = true /\ In x L.
Proof.
  revert DL; induction L as [|i L IH]; intros DL HD Hx.
  - simpl in HD. injection HD as <-. contradiction.
  - simpl in HD.
    destruct (get D i) as [d0|] eqn:Ed; [|discriminate].
    destruct (take D L) as [DL'|] eqn:EDL; [|discriminate]. injection HD as <-.
    cbn [map compress] in Hx. destruct (h d0) eqn:Eh.
    + destruct Hx as [<- | Hx].
      * exists d0. repeat split; auto. now left.
      * destruct (IH DL' eq_refl Hx) as [d [H1 [H2 H3]]].
        exists d. repeat split; auto. now right.
    + destruct (IH DL' eq_refl Hx) as [d [H1 [H2 H3]]].
      exists d. repeat split; auto. now right.
Qed.

Lemma combine_app A B (a b : list A) (c d : list B) :
  length a = length c -> combine (a ++ b) (c ++ d) = combine a c ++ combine b d.
Proof.
  revert c; induction a as [|x a IH]; intros [|y c] H; simpl in H; try discriminate;
    [reflexivity|]. simpl. f_equal. apply IH. lia.
Qed.

Lemma group_of_pain (l : Z) :
  In l labels_pain ->
  exists g, _get_label_group l = Some g /\ _get_label_group (l * 100) = Some (B g).
Proof.
  intro Hl. cbn in Hl.
  repeat destruct Hl as [<-|Hl]; try contradiction; eexists; split; reflexivity.
Qed.

(** The shape of what the segmenter returns. *)
Lemma info_shape (labels : list label) (r : info) :
  _compute_intervals_info labels = Some r ->
  labels <> [] /\
  start_idxs r = 0 :: cuts labels /\
  end_idxs r = map Z.pred (cuts labels) ++ [Z.of_nat (length labels) - 1] /\
  durations r = zip_with (fun e s => e - s + 1) (end_idxs r) (start_idxs r) /\
  length (interval_labels r) = length (start_idxs r) /\
  length (durations r) = length (start_idxs r).
Proof.
  intro H. assert (Hne : labels <> []) by (intros ->; discriminate).
  unfold _compute_intervals_info in H. rewrite starts_eq, (ends_eq Hne) in H.
  destruct (@take_total _ labels (0 :: cuts labels)) as [il [Htake Hlen]].
  { intros i [<- | Hi]; [|apply cuts_range in Hi; lia].
    destruct labels; [congruence|simpl; lia]. }
  rewrite Htake in H. injection H as <-. cbn [start_idxs end_idxs interval_labels durations].
  repeat split; try assumption.
  - now rewrite put_length.
  - rewrite zip_with_length, length_app, length_map. simpl. lia.
Qed.

(** An interval ends inside the recording, where the next one starts. *)
Lemma interval_extent (labels : list label) (r : info) (i : nat) (s d : Z) :
  _compute_intervals_info labels = Some r ->
  nth_error (start_idxs r) i = Some s -> nth_error (durations r) i = Some d ->
  0 <= s /\ 1 <= d /\ s + d <= Z.of_nat (length labels) /\
  forall s', nth_error (start_idxs r) (S i) = Some s' -> s + d = s'.
Proof.
  intros Hr Hs Hd.
  destruct (info_shape _ Hr) as [Hne [Hst [Hen [Hdu _]]]].
  rewrite Hdu in Hd. apply zip_with_nth_inv in Hd.
  destruct Hd as [e [s0 [He [Hs0 ->]]]].
  assert (s0 = s) by congruence. subst s0.
  rewrite Hst in Hs. rewrite Hen in He.
  destruct (interval_shape _ Hne Hs He) as [Hse [Hen' Hnext]].
  repeat split; try lia.
  intros s' Hs'. rewrite Hst in Hs'. specialize (Hnext s' Hs'). lia.
Qed.

(** One turn of the loop never raises on what the segmenter returns. *)
Lemma slices_of_label_total (cfg : config) (f : Z) (r : info) (label : Z) :
  length (interval_labels r) = length (start_idxs r) ->
  length (durations r) = length (start_idxs r) ->
  In label labels_pain ->
  exists pb,
    slices_of_label cfg f r (pre_of None (interval_labels r))
      (post_of None (interval_labels r)) (pre_of None (map Some (durations r)))
      (post_of None (map Some (durations r))) label = Some pb.
Proof.
  intros Hil Hdu Hl. destruct (@group_of_pain label Hl) as [g [Hg _]].
  unfold slices_of_label. rewrite Hg. cbn [bind].
  match goal with |- context [nonzero ?m] => set (is_pain := m) end.
  assert (Hpl : (length is_pain <= length (durations r))%nat).
  { unfold is_pain. rewrite and_mask_length, length_map. lia. }
  destruct (@take_mask _ (durations r) is_pain (nonzero is_pain) Hpl (fun _ H => H))
    as [durs ->]. cbn [bind].
  destruct (@take_mask _ (post_of None (map Some (durations r))) is_pain
              (nonzero is_pain)) as [posts ->]; [|auto|].
  { pose proof (post_of_length None (map Some (durations r))) as Hp.
    rewrite length_map in Hp. lia. }
  cbn [bind].
  match goal with
  | |- context [nonzero (and_mask ?a ?b)] => set (is_base := and_mask a b)
  end.
  assert (Hbl : (length is_base <= length (durations r))%nat).
  { unfold is_base. rewrite and_mask_length, length_map. lia. }
  destruct (@take_mask _ (durations r) is_base (nonzero is_base) Hbl (fun _ H => H))
    as [bdurs ->]. cbn [bind].
  destruct (@take_mask _ (start_idxs r) is_pain
              (compress (zip_with le
                 (map (fun d => slice_shifts cfg g * f + slice_lengths cfg g * f - d) durs)
                 posts) (nonzero is_pain))) as [pstarts ->];
    [lia | intros i Hi; now apply compress_In in Hi|].
  cbn [bind].
  destruct (@take_mask _ (start_idxs r) is_base
              (compress (map (fun d => slice_shifts cfg (B g) * f
                                       + slice_lengths cfg (B g) * f <=? d) bdurs)
                 (nonzero is_base))) as [bstarts ->];
    [lia | intros i Hi; now apply compress_In in Hi|].
  cbn [bind]. eauto.
Qed.

(** Where the slice starts of one turn come from: a pain slice starts at
    the shift from an interval that is followed by another one, which is
    at least as long as the part of the window that passes the interval;
    a baseline slice starts at the shift from an interval that holds shift
    plus slice length. *)
Lemma slices_of_label_sound (cfg : config) (f : Z) (r : info) (label : Z)
    (g : group) (p b : list Z) :
  _get_label_group label = Some g ->
  slices_of_label cfg f r (pre_of None (interval_labels r))
    (post_of None (interval_labels r)) (pre_of None (map Some (durations r)))
    (post_of None (map Some (durations r))) label = Some (p, b) ->
  (forall s, In s p ->
     exists id st d dpost,
       0 <= id /\ s = st + slice_shifts cfg g * f /\
       get (start_idxs r) id = Some st /\ get (durations r) id = Some d /\
       nth_error (durations r) (S (Z.to_nat id)) = Some dpost /\
       slice_shifts cfg g * f + slice_lengths cfg g * f - d <= dpost /\
       get (interval_labels r) id = Some (Some label) /\
       exists z, nth_error (pre_of None (interval_labels r)) (Z.to_nat id)
                 = Some (Some z) /\ In z (labels_base ++ [0])) /\
  (forall s, In s b ->
     exists id st d,
       0 <= id /\ s = st + slice_shifts cfg (B g) * f /\
       get (start_idxs r) id = Some st /\ get (durations r) id = Some d /\
       slice_shifts cfg (B g) * f + slice_lengths cfg (B g) * f <= d /\
       get (interval_labels r) id = Some (Some (label * 100))).
Proof.
  intros Hg H. unfold slices_of_label in H. rewrite Hg in H. cbn [bind] in H.
  match type of H with context [nonzero ?m] => set (is_pain := m) in H end.
  destruct (take (durations r) (nonzero is_pain)) as [durs|] eqn:Edurs; [|discriminate].
  cbn [bind] in H.
  destruct (take (post_of None (map Some (durations r))) (nonzero is_pain))
    as [posts|] eqn:Eposts; [|discriminate].
  cbn [bind] in H.
  match type of H with
  | context [nonzero (and_mask ?a ?c)] => set (is_base := and_mask a c) in H
  end.
  destruct (take (durations r) (nonzero is_base)) as [bdurs|] eqn:Ebdurs; [|discriminate].
  cbn [bind] in H.
  match type of H with
  | context [take (start_idxs r) ?ids] => destruct (take (start_idxs r) ids) as [pstarts|] eqn:Eps
  end; [|discriminate].
  cbn [bind] in H.
  match type of H with
  | context [take (start_idxs r) ?ids] => destruct (take (start_idxs r) ids) as [bstarts|] eqn:Ebs
  end; [|discriminate].
  cbn [bind] in H. injection H as <- <-. split.
  - intros s Hs. apply in_map_iff in Hs. destruct Hs as [st [<- Hst]].
    apply (take_In _ _ st Eps) in Hst. destruct Hst as [id [Hid Hget]].
    destruct (@compress_take2 _ _ _ le
                (fun d => slice_shifts cfg g * f + slice_lengths cfg g * f - d)
                _ _ _ _ _ _ Edurs Eposts Hid) as [d [po [Hd [Hpo [Hle Hin]]]]].
    pose proof (@nonzero_range _ _ Hin) as Hr.
    destruct po as [dpost|]; [|discriminate].
    apply Z.leb_le in Hle.
    apply nonzero_In in Hin. destruct Hin as [_ Hin].
    unfold is_pain in Hin.
    apply and_mask_true in Hin. destruct Hin as [Hin _].
    apply and_mask_true in Hin. destruct Hin as [Hin _].
    apply and_mask_true in Hin. destruct Hin as [Hin _].
    apply and_mask_true in Hin. destruct Hin as [Hin Hpre].
    apply map_nth_true in Hin. destruct Hin as [l [Hl Heq]].
    apply map_nth_true in Hpre. destruct Hpre as [pl [Hpl Hisin]].
    destruct pl as [z|]; [|discriminate]. unfold isin in Hisin.
    apply existsb_exists in Hisin. destruct Hisin as [z' [Hz' Hzz]].
    apply Z.eqb_eq in Hzz. subst z'.
    exists id, st, d, dpost.
    split; [lia|]. split; [reflexivity|]. split; [exact Hget|]. split; [exact Hd|].
    split; [apply post_of_get; [lia|exact Hpo]|]. split; [exact Hle|]. split.
    + unfold get. destruct (Z.ltb_spec id 0); [lia|]. rewrite Hl. f_equal.
      unfold eqb in Heq. apply negb_true_iff, neq_false in Heq. exact Heq.
    + exists z. split; assumption.
  - intros s Hs. apply in_map_iff in Hs. destruct Hs as [st [<- Hst]].
    apply (take_In _ _ st Ebs) in Hst. destruct Hst as [id [Hid Hget]].
    destruct (@compress_take1 _
                (fun d => slice_shifts cfg (B g) * f + slice_lengths cfg (B g) * f <=? d)
                _ _ _ _ Ebdurs Hid) as [d [Hd [Hle Hin]]].
    pose proof (@nonzero_range _ _ Hin) as Hr.
    apply Z.leb_le in Hle.
    apply nonzero_In in Hin. destruct Hin as [_ Hin].
    unfold is_base in Hin.
    apply and_mask_true in Hin. destruct Hin as [Hin _].
    apply map_nth_true in Hin. destruct Hin as [l [Hl Heq]].
    exists id, st, d. repeat split; try assumption; try lia.
    unfold get. destruct (Z.ltb_spec id 0); [lia|]. rewrite Hl. f_equal.
    unfold eqb in Heq. apply negb_true_iff, neq_false in Heq. exact Heq.
Qed.

(** The loop over the pain labels keeps the two lists aligned, and every
    entry comes from the turn of one label. *)
Lemma slices_loop_sound (body : Z -> option (list Z * list Z)) (todo : list Z)
    (acc_s acc_l starts labs : list Z) :
  length acc_s = length acc_l ->
  slices_loop body todo acc_s acc_l = Some (starts, labs) ->
  length starts = length labs /\
  forall s l, In (s, l) (combine starts labs) ->
    In (s, l) (combine acc_s acc_l) \/
    exists label p b,
      In label todo /\ body label = Some (p, b) /\
      ((l = label /\ In s p) \/ (l = label * 100 /\ In s b)).
Proof.
  revert acc_s acc_l; induction todo as [|label todo IH]; intros acc_s acc_l Hlen H.
  - simpl in H. injection H as <- <-. auto.
  - cbn [slices_loop] in H. destruct (body label) as [[p b]|] eqn:Eb; [|discriminate].
    cbn [bind fst snd] in H.
    apply IH in H; [|rewrite !length_app, !repeat_length; lia].
    destruct H as [Hl Hin]. split; [exact Hl|].
    intros s l Hsl. destruct (Hin s l Hsl) as [Hacc | [label' [p' [b' [H1 [H2 H3]]]]]].
    + rewrite !combine_app in Hacc by (rewrite ?length_app, ?repeat_length; lia).
      apply in_app_or in Hacc. destruct Hacc as [Hacc | Hb].
      * apply in_app_or in Hacc. destruct Hacc as [Hacc | Hp]; [now left|].
        right. exists label, p, b. split; [now left|]. split; [exact Eb|]. left.
        split; [|eapply in_combine_l; eauto].
        apply in_combine_r in Hp. now apply repeat_spec in Hp.
      * right. exists label, p, b. split; [now left|]. split; [exact Eb|]. right.
        split; [|eapply in_combine_l; eauto].
        apply in_combine_r in Hb. now apply repeat_spec in Hb.
    + right. exists label', p', b'. split; [now right|]. auto.
Qed.

Lemma slices_loop_total (body : Z -> option (list Z * list Z)) (todo : list Z)
    (acc_s acc_l : list Z) :
  (forall label, In label todo -> exists pb, body label = Some pb) ->
  exists res, slices_loop body todo acc_s acc_l = Some res.
Proof.
  revert acc_s acc_l; induction todo as [|label todo IH]; intros acc_s acc_l H.
  - simpl. eauto.
  - cbn [slices_loop]. destruct (H label) as [pb ->]; [now left|]. cbn [bind].
    apply IH. intros; apply H; now right.
Qed.

(** The slice records follow the list of starts and labels. *)
Lemma slices_of_sound A (cfg : config) (data : list (Z * A)) (f : Z)
    (info : list (Z * Z)) (slices : list (slice A)) :
  slices_of cfg data f info = Some slices ->
  map (fun s => (start_idx s, slice_label s)) slices = info /\
  forall s, In s slices ->
    exists g, _get_label_group (slice_label s) = Some g /\
              end_idx s = start_idx s + slice_lengths cfg g * f /\
              slice_data s = iloc data (start_idx s) (end_idx s + 1).
Proof.
  revert slices; induction info as [|[start label] info IH]; intros slices H.
  - simpl in H. injection H as <-. split; [reflexivity|contradiction].
  - cbn [slices_of] in H.
    destruct (_get_label_group label) as [g|] eqn:Eg; [|discriminate].
    cbn [bind] in H.
    destruct (slices_of cfg data f info) as [more|]; [|discriminate].
    cbn [bind] in H. injection H as <-.
    destruct (IH more eq_refl) as [Hmap Hall]. split.
    + simpl. now rewrite Hmap.
    + intros s [<- | Hs]; [|now apply Hall]. exists g. simpl. auto.
Qed.

Lemma slices_of_total A (cfg : config) (data : list (Z * A)) (f : Z)
    (info : list (Z * Z)) :
  (forall sl, In sl info -> _get_label_group (snd sl) <> None) ->
  exists slices, slices_of cfg data f info = Some slices.
Proof.
  induction info as [|[start label] info IH]; intro H; [simpl; eauto|].
  cbn [slices_of].
  destruct (_get_label_group label) as [g|] eqn:Eg;
    [|exfalso; apply (H (start, label)); [now left|exact Eg]].
  cbn [bind]. destruct IH as [more ->]; [intros; apply H; now right|].
  cbn [bind]. eauto.
Qed.

End SliceSelectionFacts.

(** ** What the slice extractor returns *)

Module SliceExtractionFacts.
Import Np NpFacts XITE Intervals IntervalsFacts DurationFacts KFoldFacts Slices
  SliceSelectionFacts.

Lemma intervals_info_total (labels : list label) :
  labels <> [] -> exists r, _compute_intervals_info labels = Some r.
Proof.
  intro Hne. unfold _compute_intervals_info. rewrite starts_eq.
  destruct (@take_total _ labels (0 :: cuts labels)) as [il [-> _]]; [|eauto].
  intros i [<- | Hi]; [|apply cuts_range in Hi; lia].
  destruct labels; [congruence|simpl; lia].
Qed.

Lemma in_combine_exists A B (a : list A) (b : list B) (y : B) :
  length a = length b -> In y b -> exists x, In (x, y) (combine a b).
Proof.
  revert b; induction a as [|x a IH]; intros [|y' b] Hlen Hy; simpl in Hlen;
    try discriminate; [contradiction|].
  destruct Hy as [-> | Hy]; [exists x; now left|].
  destruct (IH b ltac:(lia) Hy) as [x' Hx']. exists x'. now right.
Qed.

Lemma base_label_of_pain (l : Z) : In l labels_pain -> In (l * 100) labels_base.
Proof.
  intro Hl. cbn in Hl. repeat destruct Hl as [<-|Hl]; try contradiction; cbn; tauto.
Qed.

(** Every entry of the returned lists comes from one pain label. *)
Lemma slices_info_origin (cfg : config) (labels : list label) (f : Z) (r : info)
    (starts labs : list Z) :
  _compute_intervals_info labels = Some r ->
  _compute_slices_info cfg labels f = Some (starts, labs) ->
  length starts = length labs /\
  forall s l, In (s, l) (combine starts labs) ->
    exists label g p b,
      In label labels_pain /\ _get_label_group label = Some g /\
      _get_label_group (label * 100) = Some (B g) /\
      slices_of_label cfg f r (pre_of None (interval_labels r))
        (post_of None (interval_labels r)) (pre_of None (map Some (durations r)))
        (post_of None (map Some (durations r))) label = Some (p, b) /\
      ((l = label /\ In s p) \/ (l = label * 100 /\ In s b)).
Proof.
  intros Hr H. unfold _compute_slices_info in H. rewrite Hr in H. cbn [bind] in H.
  apply slices_loop_sound in H; [|reflexivity]. destruct H as [Hlen Hin].
  split; [exact Hlen|]. intros s l Hsl.
  destruct (Hin s l Hsl) as [[] | [label [p [b [Hl [Hb Hc]]]]]].
  destruct (@group_of_pain label Hl) as [g [Hg HB]].
  exists label, g, p, b. auto.
Qed.

(** X3. On every non-empty label array the slice extractor returns: the
    list of start indices and the list of labels have one length, every
    label is a pain label or a baseline label of the segmenter, and there
    is one slice per entry, with that start index and label. *)
Theorem extract_slices_aligned (A : Type) (cfg : config) (data : list A)
    (labels : list label) (f : Z) :
  labels <> [] ->
  exists starts labs slices,
    _compute_slices_info cfg labels f = Some (starts, labs) /\
    length starts = length labs /\
    Forall (fun l => In l (labels_pain ++ labels_base)) labs /\
    _extract_slices cfg data labels f = Some slices /\
    map (fun s => (start_idx s, slice_label s)) slices = combine starts labs.
Proof.
  intro Hne. destruct (intervals_info_total Hne) as [r Hr].
  destruct (info_shape _ Hr) as [_ [_ [_ [_ [Hil Hdu]]]]].
  assert (Htot : exists res, _compute_slices_info cfg labels f = Some res).
  { unfold _compute_slices_info. rewrite Hr. cbn [bind].
    apply slices_loop_total. intros label Hl. now apply slices_of_label_total. }
  destruct Htot as [[starts labs] Hinfo].
  destruct (slices_info_origin _ _ _ Hr Hinfo) as [Hlen Horigin].
  assert (Hlabs : forall s l, In (s, l) (combine starts labs) ->
                    In l (labels_pain ++ labels_base)).
  { intros s l Hsl.
    destruct (Horigin s l Hsl) as [label [g [p [b [Hl [_ [_ [_ [[-> _] | [-> _]]]]]]]]]];
      apply in_or_app; [now left|right; now apply base_label_of_pain]. }
  destruct (@slices_of_total A cfg (with_index data) f (combine starts labs))
    as [slices Hslices].
  { intros [s l] Hsl. simpl. specialize (Hlabs s l Hsl).
    apply in_app_or in Hlabs. destruct Hlabs as [Hp | Hb].
    - destruct (@group_of_pain l Hp) as [g [-> _]]. discriminate.
    - cbn in Hb. repeat destruct Hb as [<-|Hb]; try contradiction; discriminate. }
  exists starts, labs, slices. split; [exact Hinfo|]. split; [exact Hlen|]. split.
  - apply Forall_forall. intros l Hl.
    destruct (@in_combine_exists _ _ starts labs l Hlen Hl) as [s Hs]. now apply (Hlabs s).
  - unfold _extract_slices. rewrite Hinfo. cbn [bind fst snd]. split; [exact Hslices|].
    now apply slices_of_sound in Hslices.
Qed.

Lemma extract_slices_aligned_witness :
  labels_scenario <> [] /\
  exists starts labs slices,
    _compute_slices_info config_scenario labels_scenario 1 = Some (starts, labs) /\
    length starts = length labs /\
    _extract_slices config_scenario (map Z.of_nat (seq 0 15)) labels_scenario 1
    = Some slices.
Proof.
  assert (Hne : labels_scenario <> []) by discriminate.
  split; [exact Hne|].
  destruct (@extract_slices_aligned Z config_scenario (map Z.of_nat (seq 0 15))
              labels_scenario 1 Hne) as [starts [labs [slices [H1 [H2 [_ [H3 _]]]]]]].
  exists starts, labs, slices. auto.
Defined.

(** X4. The window of a slice never ends after the index one past the
    last frame: for every slice the extractor returns, its end index is
    at most the number of label frames. *)
Theorem slice_window_upper_bound (A : Type) (cfg : config) (data : list A)
    (labels : list label) (f : Z) (slices : list (slice A)) :
  _extract_slices cfg data labels f = Some slices ->
  forall s, In s slices -> end_idx s <= Z.of_nat (length labels).
Proof.
  intros H s Hs. unfold _extract_slices in H.
  destruct (_compute_slices_info cfg labels f) as [[starts labs]|] eqn:Einfo;
    [|discriminate].
  cbn [bind fst snd] in H. apply slices_of_sound in H. destruct H as [Hmap Hall].
  destruct (Hall s Hs) as [g' [Hg' [Hend _]]].
  assert (Hsl : In (start_idx s, slice_label s) (combine starts labs)).
  { rewrite <- Hmap. apply in_map_iff. now exists s. }
  destruct (_compute_intervals_info labels) as [r|] eqn:Er;
    [|unfold _compute_slices_info in Einfo; rewrite Er in Einfo; discriminate].
  destruct (slices_info_origin _ _ _ Er Einfo) as [_ Horigin].
  destruct (Horigin _ _ Hsl) as [label [g [p [b [Hl [Hg [HB [Hbody Hcase]]]]]]]].
  destruct (slices_of_label_sound _ _ _ _ Hg Hbody) as [Hpain Hbase].
  destruct (info_shape _ Er) as [_ [_ [_ [_ [_ Hdu]]]]].
  destruct Hcase as [[Hlab Hin] | [Hlab Hin]].
  - rewrite Hlab, Hg in Hg'. injection Hg' as <-.
    destruct (Hpain _ Hin) as [id [st [d [dpost [Hid [Hst [Hgs [Hgd [Hdp [Hle _]]]]]]]]]].
    unfold get in Hgs, Hgd. destruct (Z.ltb_spec id 0); [lia|].
    destruct (interval_extent _ _ Er Hgs Hgd) as [_ [_ [_ Hnext]]].
    destruct (nth_error (start_idxs r) (S (Z.to_nat id))) as [s'|] eqn:Es'.
    + specialize (Hnext s' eq_refl).
      destruct (interval_extent _ _ Er Es' Hdp) as [_ [_ [Hup _]]]. lia.
    + apply nth_error_None in Es'.
      assert (Hn : nth_error (durations r) (S (Z.to_nat id)) <> None) by congruence.
      apply nth_error_Some in Hn. lia.
  - rewrite Hlab, HB in Hg'. injection Hg' as <-.
    destruct (Hbase _ Hin) as [id [st [d [Hid [Hst [Hgs [Hgd [Hle _]]]]]]]].
    unfold get in Hgs, Hgd. destruct (Z.ltb_spec id 0); [lia|].
    destruct (interval_extent _ _ Er Hgs Hgd) as [_ [_ [Hup _]]]. lia.
Qed.

Lemma slice_window_upper_bound_witness :
  _extract_slices config_scenario (map Z.of_nat (seq 0 15)) labels_scenario 1
  = Some [{| slice_label := 100; start_idx := 7; end_idx := 11;
             slice_data := [(7, 7); (8, 8); (9, 9); (10, 10); (11, 11)] |}] /\
  forall s,
    In s [{| slice_label := 100; start_idx := 7; end_idx := 11;
             slice_data := [(7, 7); (8, 8); (9, 9); (10, 10); (11, 11)] |}] ->
    end_idx s <= Z.of_nat (length labels_scenario).
Proof.
  assert (H : _extract_slices config_scenario (map Z.of_nat (seq 0 15)) labels_scenario 1
              = Some [{| slice_label := 100; start_idx := 7; end_idx := 11;
                         slice_data := [(7, 7); (8, 8); (9, 9); (10, 10); (11, 11)] |}])
    by reflexivity.
  split; [exact H|].
  exact (slice_window_upper_bound _ _ _ _ H).
Defined.

Lemma removelast_nth A (l : list A) (i : nat) (x : A) :
  nth_error (removelast l) i = Some x -> nth_error l i = Some x.
Proof.
  rewrite removelast_firstn_len. revert i.
  generalize (Nat.pred (length l)) as k.
  induction l as [|a l IH]; intros k i H.
  - now rewrite firstn_nil in H.
  - destruct k as [|k]; simpl in H; [now destruct i|].
    destruct i as [|i]; simpl in *; [exact H|]. now apply (IH k).
Qed.

Lemma pain_not_base (l : Z) : In l labels_pain -> In (l * 100) labels_pain -> False.
Proof.
  intros Hl H. cbn in Hl.
  repeat destruct Hl as [<-|Hl]; try contradiction;
    cbn in H; repeat destruct H as [H|H]; try contradiction; discriminate.
Qed.

(** X5. Every pain slice is taken from an interval that carries the pain
    label of the slice, is neither the first nor the last interval of the
    recording, and whose predecessor is labelled, after the relabelling
    step, with one of the baseline labels or 0; the slice starts at the
    shift of its pain group from the start of that interval. *)
Theorem pain_slice_provenance (cfg : config) (labels : list label) (f : Z)
    (r : info) (starts labs : list Z) :
  _compute_intervals_info labels = Some r ->
  _compute_slices_info cfg labels f = Some (starts, labs) ->
  forall s l, In (s, l) (combine starts labs) -> In l labels_pain ->
    exists i g st z,
      _get_label_group l = Some g /\ s = st + slice_shifts cfg g * f /\
      nth_error (start_idxs r) (S i) = Some st /\
      nth_error (interval_labels r) (S i) = Some (Some l) /\
      nth_error (interval_labels r) i = Some (Some z) /\
      In z (labels_base ++ [0]) /\
      (S (S i) < length (start_idxs r))%nat.
Proof.
  intros Hr Hinfo s l Hsl Hl.
  destruct (slices_info_origin _ _ _ Hr Hinfo) as [_ Horigin].
  destruct (Horigin _ _ Hsl) as [label [g [p [b [Hlab [Hg [_ [Hbody Hcase]]]]]]]].
  destruct (info_shape _ Hr) as [_ [_ [_ [_ [_ Hdu]]]]].
  destruct Hcase as [[-> Hin] | [-> _]]; [|exfalso; now apply (@pain_not_base label)].
  destruct (slices_of_label_sound _ _ _ _ Hg Hbody) as [Hpain _].
  destruct (Hpain _ Hin)
    as [id [st [d [dpost [Hid [Hst [Hgs [Hgd [Hdp [_ [Hil [z [Hz Hzin]]]]]]]]]]]]].
  unfold get in Hgs, Hil. destruct (Z.ltb_spec id 0); [lia|].
  unfold pre_of in Hz. destruct (Z.to_nat id) as [|i] eqn:Ei; [discriminate|].
  simpl in Hz. apply removelast_nth in Hz.
  exists i, g, st, z. repeat split; try assumption.
  assert (Hn : nth_error (durations r) (S (S i)) <> None) by congruence.
  apply nth_error_Some in Hn. lia.
Qed.

Lemma pain_slice_provenance_witness :
  exists r starts labs,
    _compute_intervals_info Recordings.labels_two_stimuli = Some r /\
    _compute_slices_info config_scenario Recordings.labels_two_stimuli 1
    = Some (starts, labs) /\
    In (15, 1) (combine starts labs) /\ In 1 labels_pain /\
    exists i g st z,
      _get_label_group 1 = Some g /\ 15 = st + slice_shifts config_scenario g * 1 /\
      nth_error (start_idxs r) (S i) = Some st /\
      nth_error (interval_labels r) (S i) = Some (Some 1) /\
      nth_error (interval_labels r) i = Some (Some z) /\
      In z (labels_base ++ [0]) /\
      (S (S i) < length (start_idxs r))%nat.
Proof.
  destruct (_compute_intervals_info Recordings.labels_two_stimuli) as [r|] eqn:Er;
    [|discriminate].
  destruct (_compute_slices_info config_scenario Recordings.labels_two_stimuli 1)
    as [[starts labs]|] eqn:Es; [|discriminate].
  assert (Hin : In (15, 1) (combine starts labs)).
  { vm_compute in Es. injection Es as <- <-. cbn. tauto. }
  assert (Hp : In 1 labels_pain) by (cbn; tauto).
  exists r, starts, labs. split; [reflexivity|]. split; [reflexivity|].
  split; [exact Hin|]. split; [exact Hp|].
  exact (@pain_slice_provenance config_scenario Recordings.labels_two_stimuli 1 r
           starts labs Er Es 15 1 Hin Hp).
Defined.

Lemma firstn_seq (k a m : nat) : firstn k (seq a m) = seq a (Nat.min k m).
Proof.
  revert a m; induction k as [|k IH]; intros a [|m]; simpl; try reflexivity.
  now rewrite IH.
Qed.

Lemma map_fst_combine A B (l : list A) (l' : list B) :
  length l = length l' -> map fst (combine l l') = l.
Proof.
  revert l'; induction l as [|a l IH]; intros [|b l'] H; simpl in *;
    try discriminate; [reflexivity|]. f_equal. apply IH. lia.
Qed.

Lemma with_index_fst A (data : list A) :
  map fst (with_index data) = map Z.of_nat (seq 0 (length data)).
Proof.
  unfold with_index. apply map_fst_combine. now rewrite length_map, length_seq.
Qed.

Lemma indexed_In A (data : list A) (k : nat) (i : Z) (a : A) :
  In (i, a) (combine (map Z.of_nat (seq k (length data))) data) ->
  Z.of_nat k <= i < Z.of_nat (k + length data) /\
  nth_error data (Z.to_nat i - k) = Some a.
Proof.
  revert k; induction data as [|x data IH]; intros k H; [contradiction|].
  simpl in H. destruct H as [H | H].
  - injection H as <- <-. split; [simpl; lia|].
    replace (Z.to_nat (Z.of_nat k) - k)%nat with 0%nat by lia. reflexivity.
  - apply IH in H. destruct H as [Hr Hn]. split; [simpl; lia|].
    replace (Z.to_nat i - k)%nat with (S (Z.to_nat i - S k)) by lia. exact Hn.
Qed.

(** X6. A slice holds rows of the data table only, each under its own
    row index; and when the window of the slice lies inside the table,
    the slice holds exactly the rows from its start index to its end
    index, both included. *)
Theorem slice_rows_of_window (A : Type) (cfg : config) (data : list A)
    (labels : list label) (f : Z) (slices : list (slice A)) :
  _extract_slices cfg data labels f = Some slices ->
  forall s, In s slices ->
    (forall i a, In (i, a) (slice_data s) ->
       0 <= i < Z.of_nat (length data) /\ nth_error data (Z.to_nat i) = Some a) /\
    (0 <= start_idx s <= end_idx s -> end_idx s < Z.of_nat (length data) ->
     map fst (slice_data s)
     = map Z.of_nat (seq (Z.to_nat (start_idx s))
                         (Z.to_nat (end_idx s - start_idx s + 1)))).
Proof.
  intros H s Hs. unfold _extract_slices in H.
  destruct (_compute_slices_info cfg labels f) as [info|]; [|discriminate].
  cbn [bind] in H. apply slices_of_sound in H. destruct H as [_ Hall].
  destruct (Hall s Hs) as [g [_ [_ Hdata]]]. rewrite Hdata. split.
  - intros i a Hin. apply SlicesFacts.iloc_incl in Hin.
    unfold with_index in Hin. apply indexed_In in Hin. destruct Hin as [Hr Hn].
    rewrite Nat.sub_0_r in Hn. split; [simpl in Hr; lia|exact Hn].
  - intros Hse Hen. unfold iloc.
    assert (Hlen : length (with_index data) = length data).
    { unfold with_index. rewrite length_combine, length_map, length_seq. lia. }
    rewrite Hlen.
    destruct (Z.ltb_spec (start_idx s) 0); [lia|].
    destruct (Z.ltb_spec (end_idx s + 1) 0); [lia|].
    rewrite (Z.min_l (start_idx s)), (Z.min_l (end_idx s + 1)) by lia.
    rewrite <- firstn_map, <- skipn_map, with_index_fst.
    rewrite skipn_map, firstn_map, skipn_seq, firstn_seq. simpl Nat.add.
    f_equal. f_equal. lia.
Qed.

Lemma slice_rows_of_window_witness :
  _extract_slices config_scenario (map Z.of_nat (seq 0 15)) labels_scenario 1
  = Some [{| slice_label := 100; start_idx := 7; end_idx := 11;
             slice_data := [(7, 7); (8, 8); (9, 9); (10, 10); (11, 11)] |}] /\
  forall s,
    In s [{| slice_label := 100; start_idx := 7; end_idx := 11;
             slice_data := [(7, 7); (8, 8); (9, 9); (10, 10); (11, 11)] |}] ->
    (forall i a, In (i, a) (slice_data s) ->
       0 <= i < Z.of_nat (length (map Z.of_nat (seq 0 15))) /\
       nth_error (map Z.of_nat (seq 0 15)) (Z.to_nat i) = Some a) /\
    (0 <= start_idx s <= end_idx s ->
     end_idx s < Z.of_nat (length (map Z.of_nat (seq 0 15))) ->
     map fst (slice_data s)
     = map Z.of_nat (seq (Z.to_nat (start_idx s))
                         (Z.to_nat (end_idx s - start_idx s + 1)))).
Proof.
  assert (H : _extract_slices config_scenario (map Z.of_nat (seq 0 15)) labels_scenario 1
              = Some [{| slice_label := 100; start_idx := 7; end_idx := 11;
                         slice_data := [(7, 7); (8, 8); (9, 9); (10, 10); (11, 11)] |}])
    by reflexivity.
  split; [exact H|].
  exact (slice_rows_of_window _ _ _ _ H).
Defined.

End SliceExtractionFacts.

(** ** Counting co-occurrences *)

Module CountFacts.
Import Np NpFacts Float Frequency FrequencyFacts Counts.

Lemma mapM_nth A B (f : A -> option B) (l : list A) (r : list B) (i : nat) :
  mapM f l = Some r -> nth_error r i = bind (nth_error l i) f.
Proof.
  revert r i; induction l as [|x l IH]; intros r i H.
  - simpl in H. injection H as <-. now destruct i.
  - cbn [mapM] in H. destruct (f x) as [y|] eqn:Ey; [|discriminate].
    destruct (mapM f l) as [r'|] eqn:Er; [|discriminate].
    cbn [bind] in H. injection H as <-. destruct i as [|i]; simpl.
    + now rewrite Ey.
    + now apply IH.
Qed.

(** Every cell of the returned frame is the count of its label and pair. *)
Lemma count_pair_occurrences_cell (t : table) (labels : list label) (eps : Q)
    (comparator : bool -> bool -> bool) (c : counts) (l i j : nat) :
  count_pair_occurrences t labels eps comparator = Some c ->
  cell_at c l i j
  = (label <- nth_error labels_valid l ;;
     AUi <- nth_error (seq 0 (width t)) i ;;
     AUj <- nth_error (seq 0 (width t)) j ;;
     count_cell t labels eps comparator label AUi AUj).
Proof.
  unfold count_pair_occurrences. destruct (_ && _); [|discriminate]. intro H.
  unfold cell_at.
  destruct (nth_error labels_valid l) as [label|] eqn:El;
    [|now rewrite (mapM_nth _ _ l H), El].
  destruct (KFoldFacts.mapM_nth_error _ _ l H) as [Hfwd _].
  destruct (Hfwd label El) as [m [-> Hm]]. cbn [bind].
  destruct (nth_error (seq 0 (width t)) i) as [AUi|] eqn:Ei;
    [|now rewrite (mapM_nth _ _ i Hm), Ei].
  destruct (KFoldFacts.mapM_nth_error _ _ i Hm) as [Hfwd' _].
  destruct (Hfwd' AUi Ei) as [row [-> Hrow]]. cbn [bind].
  now rewrite (mapM_nth _ _ j Hrow).
Qed.

Lemma count_cell_swap (t : table) (labels : list label) (eps : Q)
    (comparator : bool -> bool -> bool) (label : Z) (AUi AUj : nat) :
  (forall a b, comparator a b = comparator b a) ->
  count_cell t labels eps comparator label AUi AUj
  = count_cell t labels eps comparator label AUj AUi.
Proof.
  intro Hc. unfold count_cell. f_equal. f_equal. apply map_ext. intro row. apply Hc.
Qed.

(** X7. Counting is symmetric under a swap of the two Action Units: for a
    comparator that does not depend on the order of its arguments (as
    [np.logical_and] and [np.logical_or]), the count frame has the same
    cell at (label, AUi, AUj) and at (label, AUj, AUi). *)
Theorem count_pair_occurrences_symmetric (t : table) (labels : list label) (eps : Q)
    (comparator : bool -> bool -> bool) (c : counts) :
  (forall a b, comparator a b = comparator b a) ->
  count_pair_occurrences t labels eps comparator = Some c ->
  forall label AUi AUj, cell_at c label AUi AUj = cell_at c label AUj AUi.
Proof.
  intros Hc H label AUi AUj.
  rewrite !(count_pair_occurrences_cell _ _ _ _ _ _ _ H).
  destruct (nth_error labels_valid label) as [lab|]; [|reflexivity]. cbn [bind].
  destruct (nth_error (seq 0 (width t)) AUi) as [i|],
           (nth_error (seq 0 (width t)) AUj) as [j|]; cbn [bind]; try reflexivity.
  now apply count_cell_swap.
Qed.

Lemma count_pair_occurrences_symmetric_witness :
  (forall a b, andb a b = andb b a) /\
  exists c, count_pair_occurrences three_frames three_labels 1 andb = Some c /\
            forall label AUi AUj, cell_at c label AUi AUj = cell_at c label AUj AUi.
Proof.
  split; [exact andb_comm|].
  destruct (count_pair_occurrences three_frames three_labels 1 andb) as [c|] eqn:E;
    [|discriminate].
  exists c. split; [reflexivity|].
  exact (@count_pair_occurrences_symmetric three_frames three_labels 1 andb c
           andb_comm E).
Defined.

Lemma selected_mono (p : list cell -> bool) (g1 g2 : list cell -> bool)
    (lm : list bool) (rows : list (list cell)) :
  (forall row, g1 row = true -> g2 row = true) ->
  (length (filter p (compress (zip_with andb lm (map g1 rows)) rows))
   <= length (filter p (compress (zip_with andb lm (map g2 rows)) rows)))%nat.
Proof.
  intro Hg. revert lm; induction rows as [|row rows IH]; intros [|b lm]; simpl;
    try lia.
  specialize (IH lm). specialize (Hg row).
  destruct b, (g1 row) eqn:E1, (g2 row) eqn:E2; simpl;
    try (discriminate (Hg eq_refl)); destruct (p row); simpl; lia.
Qed.

Lemma selected_mono_stretched (p : list cell -> bool) (g1 g2 : list cell -> bool)
    (b : bool) (rows : list (list cell)) :
  (forall row, g1 row = true -> g2 row = true) ->
  (length (filter p (compress (map (andb b) (map g1 rows)) rows))
   <= length (filter p (compress (map (andb b) (map g2 rows)) rows)))%nat.
Proof.
  intro Hg. induction rows as [|row rows IH]; simpl; [lia|].
  specialize (Hg row).
  destruct b, (g1 row) eqn:E1, (g2 row) eqn:E2; simpl;
    try (discriminate (Hg eq_refl)); destruct (p row); simpl; lia.
Qed.

Lemma count_cell_and_le_or (t : table) (labels : list label) (eps : Q)
    (label : Z) (AUi AUj : nat) (a o : Z) :
  count_cell t labels eps andb label AUi AUj = Some a ->
  count_cell t labels eps orb label AUi AUj = Some o ->
  0 <= a <= o.
Proof.
  unfold count_cell, row_mask. rewrite !length_map.
  destruct (_ =? _)%nat.
  - cbn [bind]. intros [= <-] [= <-]. split; [lia|]. apply inj_le.
    apply selected_mono. intros row H. apply andb_prop in H. destruct H as [-> _].
    reflexivity.
  - destruct (map _ labels) as [|b [|? ?]]; cbn [bind]; try discriminate.
    intros [= <-] [= <-]. split; [lia|]. apply inj_le.
    apply selected_mono_stretched. intros row H. apply andb_prop in H.
    destruct H as [-> _]. reflexivity.
Qed.

Lemma count_cell_diagonal (t : table) (labels : list label) (eps : Q)
    (label : Z) (AU : nat) :
  count_cell t labels eps andb label AU AU = count_cell t labels eps orb label AU AU.
Proof.
  unfold count_cell. f_equal. f_equal. apply map_ext. intro row.
  now destruct (active row AU eps).
Qed.

(** X8. For one table and label array, no AND count exceeds the OR count
    of the same label and pair, counts are never negative, and on the
    diagonal (AUi = AUj) the AND count frame and the OR count frame
    agree. *)
Theorem and_counts_below_or_counts (t : table) (labels : list label) (eps : Q)
    (c_and c_or : counts) :
  count_pair_occurrences t labels eps andb = Some c_and ->
  count_pair_occurrences t labels eps orb = Some c_or ->
  (forall label AUi AUj a o,
      cell_at c_and label AUi AUj = Some a -> cell_at c_or label AUi AUj = Some o ->
      0 <= a <= o) /\
  (forall label AU, cell_at c_and label AU AU = cell_at c_or label AU AU).
Proof.
  intros Ha Ho. split.
  - intros label AUi AUj a o.
    rewrite (count_pair_occurrences_cell _ _ _ _ _ _ _ Ha),
            (count_pair_occurrences_cell _ _ _ _ _ _ _ Ho).
    destruct (nth_error labels_valid label) as [lab|]; [|discriminate]. cbn [bind].
    destruct (nth_error (seq 0 (width t)) AUi) as [i|]; [|discriminate]. cbn [bind].
    destruct (nth_error (seq 0 (width t)) AUj) as [j|]; [|discriminate]. cbn [bind].
    apply count_cell_and_le_or.
  - intros label AU.
    rewrite (count_pair_occurrences_cell _ _ _ _ _ _ _ Ha),
            (count_pair_occurrences_cell _ _ _ _ _ _ _ Ho).
    destruct (nth_error labels_valid label) as [lab|]; [|reflexivity]. cbn [bind].
    destruct (nth_error (seq 0 (width t)) AU) as [i|]; [|reflexivity]. cbn [bind].
    apply count_cell_diagonal.
Qed.

Lemma and_counts_below_or_counts_witness :
  exists c_and c_or,
    count_pair_occurrences three_frames three_labels 1 andb = Some c_and /\
    count_pair_occurrences three_frames three_labels 1 orb = Some c_or /\
    cell_at c_and 1 0 1 = Some 1 /\ cell_at c_or 1 0 1 = Some 1 /\
    cell_at c_and 0 0 1 = Some 0 /\ cell_at c_or 0 0 1 = Some 1 /\
    (forall label AUi AUj a o,
        cell_at c_and label AUi AUj = Some a -> cell_at c_or label AUi AUj = Some o ->
        0 <= a <= o).
Proof.
  destruct (count_pair_occurrences three_frames three_labels 1 andb) as [c_and|] eqn:Ea;
    [|discriminate].
  destruct (count_pair_occurrences three_frames three_labels 1 orb) as [c_or|] eqn:Eo;
    [|discriminate].
  exists c_and, c_or. split; [reflexivity|]. split; [reflexivity|].
  assert (Ha' := Ea). assert (Ho' := Eo).
  vm_compute in Ha'. injection Ha' as <-. vm_compute in Ho'. injection Ho' as <-.
  split; [reflexivity|]. split; [reflexivity|].
  split; [reflexivity|]. split; [reflexivity|].
  exact (proj1 (@and_counts_below_or_counts three_frames three_labels 1 _ _ Ea Eo)).
Defined.

End CountFacts.

(** ** Aggregation over the subjects *)

Module AggregationFacts.
Import Np Float Frequency FrequencyFacts.

(** X9. When no confidence threshold is in force ([eps_conf] is [None] or
    0), the frames the sequential loop has aggregated when it is left are
    the frames the parallel analysis writes (whatever threshold the
    latter is called with): both raise on the way or they are the same
    four count frames and the same frame totals.  The sequential
    function never writes them: what follows the loop raises, for every
    threshold. *)
Theorem analyses_agree_without_threshold (subject confidence : Type)
    (subject_list : list subject) (subjects_no_use : subject -> bool)
    (load_labels : subject -> list label) (load_AUc load_AUr : subject -> table)
    (load_confidence : subject -> option confidence)
    (mask_by_confidence : confidence -> Q -> table -> option table)
    (channels_AUc channels_AUr : nat) (e e' : option Q) :
  falsy e = true ->
  frames_after_loop subject_list subjects_no_use load_labels load_AUc load_AUr
    load_confidence mask_by_confidence channels_AUc channels_AUr e
  = frequency_analysis_parallel subject_list subjects_no_use load_labels load_AUc
      load_AUr load_confidence mask_by_confidence channels_AUc channels_AUr e' /\
  forall eps_conf,
    frequency_analysis subject_list subjects_no_use load_labels load_AUc load_AUr
      load_confidence mask_by_confidence channels_AUc channels_AUr eps_conf = None.
Proof.
  intro He. split.
  - unfold frames_after_loop, frequency_analysis_parallel.
    now apply sequential_loop_falsy.
  - intro eps_conf. apply frequency_analysis_raises.
Qed.

Lemma analyses_agree_without_threshold_witness :
  falsy None = true /\
  frames_after_loop [tt; tt] (fun _ => false) (fun _ => [Some 0])
    (fun _ => one_frame) (fun _ => one_frame) (fun _ => @None unit)
    (fun _ _ _ => None) 1 1 None
  = frequency_analysis_parallel [tt; tt] (fun _ => false) (fun _ => [Some 0])
      (fun _ => one_frame) (fun _ => one_frame) (fun _ => @None unit)
      (fun _ _ _ => None) 1 1 (Some (1 # 2)%Q).
Proof.
  split; [reflexivity|].
  exact (proj1 (@analyses_agree_without_threshold unit unit [tt; tt] (fun _ => false)
                  (fun _ => [Some 0]) (fun _ => one_frame) (fun _ => one_frame)
                  (fun _ => None) (fun _ _ _ => None) 1%nat 1%nat None
                  (Some (1 # 2)%Q) eq_refl)).
Defined.

Lemma bind_ext A B (m : option A) (k k' : A -> option B) :
  (forall a, k a = k' a) -> bind m k = bind m k'.
Proof. intro H. destruct m as [a|]; [apply H|reflexivity]. Qed.

Lemma sequential_loop_skips_excluded (subject confidence : Type)
    (subjects_no_use : subject -> bool)
    (load_labels : subject -> list label) (load_AUc load_AUr : subject -> table)
    (load_confidence : subject -> option confidence)
    (mask_by_confidence : confidence -> Q -> table -> option table)
    (e : option Q) (todo : list subject) (acc : result) :
  sequential_loop subjects_no_use load_labels load_AUc load_AUr load_confidence
    mask_by_confidence e todo acc
  = sequential_loop subjects_no_use load_labels load_AUc load_AUr load_confidence
      mask_by_confidence e (filter (fun s => negb (subjects_no_use s)) todo) acc.
Proof.
  revert acc; induction todo as [|s todo IH]; intro acc; [reflexivity|].
  cbn [sequential_loop filter].
  destruct (subjects_no_use s) eqn:Es; cbn [negb]; [apply IH|].
  cbn [sequential_loop]. rewrite Es.
  apply bind_ext; intro d. cbv zeta.
  do 4 (apply bind_ext; intro).
  apply IH.
Qed.

(** X10. The subjects on the exclusion list have no influence on the
    result of either analysis: both give what they give on the subject
    list with the excluded subjects removed, for every threshold; so do
    the frames the sequential loop has in memory when it is left. *)
Theorem excluded_subjects_do_not_count (subject confidence : Type)
    (subject_list : list subject) (subjects_no_use : subject -> bool)
    (load_labels : subject -> list label) (load_AUc load_AUr : subject -> table)
    (load_confidence : subject -> option confidence)
    (mask_by_confidence : confidence -> Q -> table -> option table)
    (channels_AUc channels_AUr : nat) (e : option Q) :
  frequency_analysis subject_list subjects_no_use load_labels load_AUc load_AUr
    load_confidence mask_by_confidence channels_AUc channels_AUr e
  = frequency_analysis (filter (fun s => negb (subjects_no_use s)) subject_list)
      subjects_no_use load_labels load_AUc load_AUr load_confidence
      mask_by_confidence channels_AUc channels_AUr e /\
  frequency_analysis_parallel subject_list subjects_no_use load_labels load_AUc
    load_AUr load_confidence mask_by_confidence channels_AUc channels_AUr e
  = frequency_analysis_parallel
      (filter (fun s => negb (subjects_no_use s)) subject_list)
      subjects_no_use load_labels load_AUc load_AUr load_confidence
      mask_by_confidence channels_AUc channels_AUr e /\
  frames_after_loop subject_list subjects_no_use load_labels load_AUc load_AUr
    load_confidence mask_by_confidence channels_AUc channels_AUr e
  = frames_after_loop (filter (fun s => negb (subjects_no_use s)) subject_list)
      subjects_no_use load_labels load_AUc load_AUr load_confidence
      mask_by_confidence channels_AUc channels_AUr e.
Proof.
  assert (Hloop : frames_after_loop subject_list subjects_no_use load_labels load_AUc
                    load_AUr load_confidence mask_by_confidence channels_AUc
                    channels_AUr e
                  = frames_after_loop
                      (filter (fun s => negb (subjects_no_use s)) subject_list)
                      subjects_no_use load_labels load_AUc load_AUr load_confidence
                      mask_by_confidence channels_AUc channels_AUr e)
    by (unfold frames_after_loop; apply sequential_loop_skips_excluded).
  split; [|split; [|exact Hloop]].
  - unfold frequency_analysis. now rewrite Hloop.
  - clear Hloop. unfold frequency_analysis_parallel. f_equal. f_equal.
    induction subject_list as [|s l IH]; [reflexivity|]. simpl.
    destruct (subjects_no_use s) eqn:Es; simpl; [exact IH|].
    rewrite Es. simpl. now f_equal.
Qed.

End AggregationFacts.

(** ** Rows the repair leaves alone *)

Module RepairKeepsFacts.
Import Np Float Repair RepairFacts.

Lemma replace_inf_row_clean (r : row) :
  forallb is_finite (values r) = true ->
  {| row_label := row_label r;
     values := map (fun c => match c with
                             | PInf | NInf => NaN
                             | other => other
                             end) (values r) |} = r.
Proof.
  intro H. destruct r as [l vs]. simpl in *. f_equal.
  induction vs as [|c vs IH]; [reflexivity|]. simpl in H.
  apply andb_prop in H. destruct H as [Hc Hvs]. simpl. rewrite IH by exact Hvs.
  now destruct c.
Qed.

Lemma fill_row_clean (ms vals : list cell) :
  forallb is_finite vals = true -> fill_row ms vals = vals.
Proof.
  revert ms; induction vals as [|c vals IH]; intros [|m ms] H; try reflexivity.
  simpl in H. apply andb_prop in H. destruct H as [Hc Hv]. simpl.
  rewrite IH by exact Hv. now destruct c.
Qed.

Lemma fill_label_keeps (t : list row) (label : Z) (r : row) :
  forallb is_finite (values r) = true -> In r t -> In r (fill_label t label).
Proof.
  intros Hr Hin. unfold fill_label. apply in_map_iff. exists r. split; [|exact Hin].
  destruct (row_label r =? label)%Z; [|reflexivity].
  rewrite fill_row_clean by exact Hr. now destruct r.
Qed.

Lemma fold_fill_label_keeps (labels : list Z) (t : list row) (r : row) :
  forallb is_finite (values r) = true -> In r t ->
  In r (fold_left fill_label labels t).
Proof.
  revert t; induction labels as [|l labels IH]; intros t Hr Hin; [exact Hin|].
  simpl. apply IH; [exact Hr|]. now apply fill_label_keeps.
Qed.

Lemma finite_no_nan (vals : list cell) :
  forallb is_finite vals = true -> existsb is_nan vals = false.
Proof.
  induction vals as [|c vals IH]; [reflexivity|]. simpl. intro H.
  apply andb_prop in H. destruct H as [Hc Hv]. rewrite (IH Hv). now destruct c.
Qed.

Lemma fill_label_length (t : list row) (label : Z) :
  length (fill_label t label) = length t.
Proof. unfold fill_label. apply length_map. Qed.

Lemma fold_fill_label_length (labels : list Z) (t : list row) :
  length (fold_left fill_label labels t) = length t.
Proof.
  revert t; induction labels as [|l labels IH]; intro t; [reflexivity|].
  simpl. now rewrite IH, fill_label_length.
Qed.

(** X11. The repair never loses or alters a valid sample: a row of the
    feature table all of whose entries are finite is, unchanged, a row of
    the table after the "mean" strategy, after the "delete" strategy (in
    the table object) and after a replacement by any value; and no
    strategy leaves more rows than it was given. *)
Theorem repair_keeps_finite_rows (features : list row) (r : row) :
  In r features -> forallb is_finite (values r) = true ->
  (forall s, s <> Unsupported -> In r (snd (_repair_features features s))) /\
  (forall s, (length (snd (_repair_features features s)) <= length features)%nat).
Proof.
  intros Hin Hr.
  assert (Hri : In r (replace_inf features)).
  { unfold replace_inf. apply in_map_iff. exists r. split; [|exact Hin].
    now apply replace_inf_row_clean. }
  split.
  - intros [| |v|] Hs; try congruence; cbn [_repair_features snd].
    + apply filter_In. split; [now apply fold_fill_label_keeps|].
      now rewrite finite_no_nan.
    + apply filter_In. split; [exact Hri|]. now rewrite finite_no_nan.
    + unfold fillna. apply in_map_iff. exists r. split; [|exact Hri].
      destruct r as [l vs]. simpl in *. f_equal.
      clear Hin Hri. induction vs as [|c vs IH]; [reflexivity|]. simpl in Hr.
      apply andb_prop in Hr. destruct Hr as [Hc Hv]. simpl. rewrite IH by exact Hv.
      now destruct c.
  - intros [| |v|]; cbn [_repair_features snd]; unfold dropna, fillna, replace_inf.
    + eapply Nat.le_trans; [apply filter_length_le|].
      rewrite fold_fill_label_length. now rewrite length_map.
    + eapply Nat.le_trans; [apply filter_length_le|]. now rewrite length_map.
    + now rewrite !length_map.
    + now rewrite length_map.
Qed.

Lemma repair_keeps_finite_rows_witness :
  (In {| row_label := 1; values := [Fin 2; Fin 3] |}
      [ {| row_label := 1; values := [Fin 2; Fin 3] |};
        {| row_label := 1; values := [NaN; PInf] |} ] /\
   forallb is_finite (values {| row_label := 1; values := [Fin 2; Fin 3] |}) = true) /\
  In {| row_label := 1; values := [Fin 2; Fin 3] |}
     (snd (_repair_features
             [ {| row_label := 1; values := [Fin 2; Fin 3] |};
               {| row_label := 1; values := [NaN; PInf] |} ] Mean)).
Proof.
  assert (Hin : In {| row_label := 1; values := [Fin 2; Fin 3] |}
                   [ {| row_label := 1; values := [Fin 2; Fin 3] |};
                     {| row_label := 1; values := [NaN; PInf] |} ]) by (now left).
  assert (Hr : forallb is_finite
                 (values {| row_label := 1; values := [Fin 2; Fin 3] |}) = true)
    by reflexivity.
  split; [split; assumption|].
  apply (proj1 (repair_keeps_finite_rows _ _ Hin Hr)). discriminate.
Defined.

End RepairKeepsFacts.

(** ** The history and the best accuracy of a run *)

Module HistoryFacts.
Import Training Tracking.

Section Run.

Variable params : Type.
Variable reset_params : nat -> params -> params.
Variable train_epoch : nat -> nat -> params -> params.
Variable test_accuracy : nat -> params -> Q.

Lemma epochs_history (fold : nat) (es : list nat) (st : state params) :
  map fst (test_acc_history
             (fold_left (epoch_step train_epoch test_accuracy fold) es st))
  = map fst (test_acc_history st) ++ repeat fold (length es).
Proof.
  revert st; induction es as [|e es IH]; intro st; simpl.
  - now rewrite app_nil_r.
  - rewrite IH. unfold epoch_step. cbn [test_acc_history].
    destruct (Qgt_bool _ _); cbn [test_acc_history];
      rewrite map_app, <- app_assoc; reflexivity.
Qed.

Lemma folds_history (num_epochs : nat) (fs : list nat) (st : state params) :
  map fst (test_acc_history
             (fold_left (fold_step reset_params train_epoch test_accuracy num_epochs)
                        fs st))
  = map fst (test_acc_history st)
    ++ concat (map (fun f => repeat f (S num_epochs)) fs).
Proof.
  revert st; induction fs as [|f fs IH]; intro st; simpl.
  - now rewrite app_nil_r.
  - rewrite IH. unfold fold_step. rewrite epochs_history.
    cbn [test_acc_history]. rewrite map_app, length_seq, <- !app_assoc. reflexivity.
Qed.

Lemma epochs_track (fold : nat) (es : list nat) (st : state params)
    (tr : list (Q * params)) :
  tracks st tr ->
  let st' := fold_left (epoch_step train_epoch test_accuracy fold) es st in
  let c := fold_left
             (fun acc epoch =>
                let trained := train_epoch fold epoch (fst acc) in
                (trained, snd acc ++ [(test_accuracy fold trained, trained)]))
             es (model st, tr) in
  model st' = fst c /\ tracks st' (snd c).
Proof.
  revert st tr; induction es as [|e es IH]; intros st tr Htr; [simpl; auto|].
  cbn [fold_left fst snd].
  set (trained := train_epoch fold e (model st)).
  set (acc := test_accuracy fold trained).
  assert (Hstep : model (epoch_step train_epoch test_accuracy fold st e) = trained /\
                  tracks (epoch_step train_epoch test_accuracy fold st e)
                         (tr ++ [(acc, trained)])).
  { destruct Htr as [Hle [H0 Hbest]]. unfold epoch_step. fold trained. fold acc.
    cbn [best_acc model best_params test_acc_history].
    unfold Qgt_bool. destruct (Qle_bool acc (best_acc st)) eqn:E; cbn [negb].
    - apply Qle_bool_iff in E. cbn [model best_acc best_params].
      split; [reflexivity|]. split; [|split; [exact H0|]].
      + intros a q Hin. apply in_app_or in Hin. destruct Hin as [Hin | [Hin | []]].
        * now apply (Hle a q).
        * injection Hin as <- <-. exact E.
      + destruct Hbest as [Hn | [Hs [Hpos [q Hq]]]]; [now left|right].
        split; [exact Hs|]. split; [exact Hpos|]. exists q. apply in_or_app. now left.
    - assert (Hlt : (best_acc st < acc)%Q).
      { apply Qnot_le_lt. intro Hc. apply Qle_bool_iff in Hc. congruence. }
      cbn [model best_acc best_params].
      split; [reflexivity|]. split; [|split].
      + intros a q Hin. apply in_app_or in Hin. destruct Hin as [Hin | [Hin | []]].
        * apply Qle_trans with (best_acc st); [now apply (Hle a q)|].
          now apply Qlt_le_weak.
        * injection Hin as <- <-. apply Qle_refl.
      + apply Qle_trans with (best_acc st); [exact H0|]. now apply Qlt_le_weak.
      + right. split; [reflexivity|].
        split; [apply Qle_lt_trans with (best_acc st); assumption|].
        exists trained. apply in_or_app. right. now left. }
  destruct Hstep as [Hm Ht]. specialize (IH _ _ Ht). cbv zeta in IH.
  rewrite Hm in IH. exact IH.
Qed.

Lemma checkpoints_shift (fold : nat) (es : list nat) (p : params)
    (tr : list (Q * params)) :
  fold_left
    (fun acc epoch =>
       let trained := train_epoch fold epoch (fst acc) in
       (trained, snd acc ++ [(test_accuracy fold trained, trained)]))
    es (p, tr)
  = (fst (fold_left
            (fun acc epoch =>
               let trained := train_epoch fold epoch (fst acc) in
               (trained, snd acc ++ [(test_accuracy fold trained, trained)]))
            es (p, [])),
     tr ++ snd (fold_left
                  (fun acc epoch =>
                     let trained := train_epoch fold epoch (fst acc) in
                     (trained, snd acc ++ [(test_accuracy fold trained, trained)]))
                  es (p, []))).
Proof.
  revert p tr; induction es as [|e es IH]; intros p tr; simpl.
  - now rewrite app_nil_r.
  - rewrite IH. rewrite (IH _ [_]). cbn [fst snd]. now rewrite <- app_assoc.
Qed.

Lemma folds_track (num_epochs : nat) (fs : list nat) (st : state params)
    (tr : list (Q * params)) :
  tracks st tr ->
  let st' := fold_left (fold_step reset_params train_epoch test_accuracy num_epochs)
                       fs st in
  let c := fold_left
             (fun acc fold =>
                let r := epoch_checkpoints train_epoch test_accuracy fold num_epochs
                           (reset_params fold (fst acc)) in
                (fst r, snd acc ++ snd r))
             fs (model st, tr) in
  model st' = fst c /\ tracks st' (snd c).
Proof.
  revert st tr; induction fs as [|f fs IH]; intros st tr Htr; [simpl; auto|].
  cbn [fold_left fst snd].
  set (st0 := {| model := reset_params f (model st); best_params := best_params st;
                 best_acc := best_acc st;
                 test_acc_history :=
                   test_acc_history st
                   ++ [(f, test_accuracy f (reset_params f (model st)))] |}).
  assert (H0 : tracks st0 tr) by exact Htr.
  destruct (epochs_track f (seq 0 num_epochs) H0) as [Hm Ht].
  cbn [model] in Hm, Ht. rewrite checkpoints_shift in Hm, Ht. cbn [fst snd] in Hm, Ht.
  change (fold_left (epoch_step train_epoch test_accuracy f) (seq 0 num_epochs) st0)
    with (fold_step reset_params train_epoch test_accuracy num_epochs st f) in Hm, Ht.
  specialize (IH _ _ Ht). cbv zeta in IH. rewrite Hm in IH. exact IH.
Qed.

End Run.

Lemma length_concat_repeat (m : nat) (l : list nat) :
  length (concat (map (fun f => repeat f m) l)) = (length l * m)%nat.
Proof.
  induction l as [|f l IH]; [reflexivity|].
  simpl. rewrite length_app, repeat_length, IH. reflexivity.
Qed.

(** X12. The test-accuracy history of a run of [k] folds and
    [num_epochs] epochs holds, fold after fold, [num_epochs + 1] entries
    for every fold (the evaluation before training and one per epoch),
    [k * (num_epochs + 1)] entries in all. *)
Theorem test_history_shape (params : Type) (reset_params : nat -> params -> params)
    (train_epoch : nat -> nat -> params -> params)
    (test_accuracy : nat -> params -> Q) (k num_epochs : nat) (initial : params) :
  map fst (test_acc_history
             (run reset_params train_epoch test_accuracy k num_epochs initial))
  = concat (map (fun f => repeat f (S num_epochs)) (seq 0 k)) /\
  length (test_acc_history
            (run reset_params train_epoch test_accuracy k num_epochs initial))
  = (k * S num_epochs)%nat.
Proof.
  assert (H : map fst (test_acc_history
                         (run reset_params train_epoch test_accuracy k num_epochs initial))
              = concat (map (fun f => repeat f (S num_epochs)) (seq 0 k))).
  { unfold run. now rewrite folds_history. }
  split; [exact H|].
  rewrite <- (length_map fst), H, length_concat_repeat, length_seq. reflexivity.
Qed.

(** X13. After a run, [best_acc] is at least 0 and at least the test
    accuracy of every checkpoint of the run.  If no checkpoint has an
    accuracy above 0, [best_params] is still unset and [best_acc] is
    still 0; if some checkpoint has, [best_params] is set and [best_acc]
    is above 0 and is the accuracy of one of the checkpoints.  So
    [best_params] is unset exactly when no checkpoint exceeded 0. *)
Theorem best_acc_is_highest_accuracy (params : Type)
    (reset_params : nat -> params -> params)
    (train_epoch : nat -> nat -> params -> params)
    (test_accuracy : nat -> params -> Q) (k num_epochs : nat) (initial : params) :
  let st := run reset_params train_epoch test_accuracy k num_epochs initial in
  let cps := checkpoints reset_params train_epoch test_accuracy k num_epochs initial in
  (forall a q, In (a, q) cps -> (a <= best_acc st)%Q) /\
  (0 <= best_acc st)%Q /\
  ((forall a q, In (a, q) cps -> (a <= 0)%Q) ->
   best_params st = None /\ best_acc st = 0%Q) /\
  ((exists a q, In (a, q) cps /\ (0 < a)%Q) ->
   best_params st = Some model_tensors /\ (0 < best_acc st)%Q /\
   exists q, In (best_acc st, q) cps) /\
  (best_params st = None <-> forall a q, In (a, q) cps -> (a <= 0)%Q).
Proof.
  cbv zeta. unfold run, checkpoints.
  set (st0 := {| model := initial; best_params := None; best_acc := 0%Q;
                 test_acc_history := [] |}).
  assert (H0 : tracks st0 (@nil (Q * params))).
  { split; [intros a q []|]. split; [apply Qle_refl|]. left. split; reflexivity. }
  destruct (folds_track reset_params train_epoch test_accuracy num_epochs (seq 0 k) H0)
    as [_ Ht].
  cbv zeta in Ht. cbn [model] in Ht.
  set (st := fold_left (fold_step reset_params train_epoch test_accuracy num_epochs)
                       (seq 0 k) st0) in *.
  set (cps := snd (fold_left
                     (fun acc fold =>
                        let r := epoch_checkpoints train_epoch test_accuracy fold
                                   num_epochs (reset_params fold (fst acc)) in
                        (fst r, snd acc ++ snd r))
                     (seq 0 k) (initial, []))) in *.
  destruct Ht as [Hle [Hpos Hside]].
  assert (Hnone : (forall a q, In (a, q) cps -> (a <= 0)%Q) ->
                  best_params st = None /\ best_acc st = 0%Q).
  { intro Hall. destruct Hside as [Hn|[_ [Hgt [q Hq]]]]; [exact Hn|].
    exfalso. apply (Qlt_not_le _ _ Hgt). now apply (Hall _ q). }
  assert (Hsome : (exists a q, In (a, q) cps /\ (0 < a)%Q) ->
                  best_params st = Some model_tensors /\ (0 < best_acc st)%Q /\
                  exists q, In (best_acc st, q) cps).
  { intros [a [q [Hin Ha]]]. destruct Hside as [[_ Hz]|Hs]; [|exact Hs].
    exfalso. apply (Qlt_not_le _ _ Ha). rewrite <- Hz. now apply (Hle a q). }
  split; [exact Hle|]. split; [exact Hpos|]. split; [exact Hnone|].
  split; [exact Hsome|]. split.
  - intros Hn a q Hin. destruct Hside as [[_ Hz]|[Hs _]]; [|congruence].
    rewrite <- Hz. now apply (Hle a q).
  - intro Hall. now destruct (Hnone Hall).
Qed.

End HistoryFacts.

(** ** The folds keep the subjects apart ([kfold_CV], [get_train_test_idxs]) *)

Module FoldFacts.
Import Np NpFacts KFold KFoldFacts Samples.

Lemma unique_In (l : list Z) (s : Z) : In s (unique l) <-> In s l.
Proof.
  induction l as [|a l IH]; simpl; [tauto|].
  rewrite insert_unique_In, IH. tauto.
Qed.

Lemma filter_all A (p : A -> bool) (l : list A) :
  (forall x, In x l -> p x = true) -> filter p l = l.
Proof.
  induction l as [|a l IH]; intro H; simpl; [reflexivity|].
  rewrite (H a (or_introl eq_refl)), IH; [reflexivity|].
  intros x Hx. apply H. now right.
Qed.

Lemma filter_none A (p : A -> bool) (l : list A) :
  (forall x, In x l -> p x = false) -> filter p l = [].
Proof.
  induction l as [|a l IH]; intro H; simpl; [reflexivity|].
  rewrite (H a (or_introl eq_refl)). apply IH.
  intros x Hx. apply H. now right.
Qed.

Lemma in_block (i c sz : nat) :
  existsb (Nat.eqb i) (seq c sz) = true <-> (c <= i < c + sz)%nat.
Proof.
  rewrite existsb_exists. split.
  - intros [x [Hx He]]. apply Nat.eqb_eq in He. subst x. now apply in_seq in Hx.
  - intro H. exists i. split; [now apply in_seq|apply Nat.eqb_refl].
Qed.

(** The training positions of a fold whose test positions are the block
    [c .. c + sz - 1]: what lies before the block and what lies after it. *)
Lemma train_positions (c sz n : nat) :
  (c + sz <= n)%nat ->
  filter (fun i => negb (existsb (Nat.eqb i) (seq c sz))) (seq 0 n)
  = seq 0 c ++ seq (c + sz) (n - c - sz).
Proof.
  intro H.
  assert (Hn : seq 0 n = seq 0 c ++ seq c sz ++ seq (c + sz) (n - c - sz)).
  { rewrite <- !seq_app. f_equal. lia. }
  rewrite Hn, !filter_app.
  rewrite filter_all, filter_none, filter_all; [reflexivity| | |].
  - intros x Hx. apply in_seq in Hx.
    destruct (existsb (Nat.eqb x) (seq c sz)) eqn:E; [|reflexivity].
    apply in_block in E. lia.
  - intros x Hx. apply in_seq in Hx.
    destruct (existsb (Nat.eqb x) (seq c sz)) eqn:E; [reflexivity|].
    assert (Hb : existsb (Nat.eqb x) (seq c sz) = true) by (apply in_block; lia).
    congruence.
  - intros x Hx. apply in_seq in Hx.
    destruct (existsb (Nat.eqb x) (seq c sz)) eqn:E; [|reflexivity].
    apply in_block in E. lia.
Qed.

Lemma folds_from_nth (c : nat) (sizes : list nat) (n f : nat) (x : list nat * list nat) :
  nth_error (folds_from c sizes n) f = Some x ->
  exists sz,
    nth_error sizes f = Some sz /\
    x = (filter (fun i => negb (existsb (Nat.eqb i)
                                  (seq (c + list_sum (firstn f sizes)) sz)))
                (seq 0 n),
         seq (c + list_sum (firstn f sizes)) sz).
Proof.
  revert c f; induction sizes as [|a sizes IH]; intros c f H.
  - now destruct f.
  - destruct f as [|f]; simpl in H.
    + injection H as <-. exists a. split; [reflexivity|].
      simpl. now rewrite Nat.add_0_r.
    + destruct (IH _ _ H) as [sz [Hsz ->]]. exists sz. split; [exact Hsz|].
      assert (E : (c + list_sum (firstn (S f) (a :: sizes))
                   = c + a + list_sum (firstn f sizes))%nat) by (simpl; lia).
      now rewrite E.
Qed.

Lemma block_in_range (sizes : list nat) (f sz : nat) :
  nth_error sizes f = Some sz ->
  (list_sum (firstn f sizes) + sz <= list_sum sizes)%nat.
Proof.
  revert f; induction sizes as [|a sizes IH]; intros f H; [now destruct f|].
  destruct f as [|f]; simpl in H.
  - injection H as ->. simpl. lia.
  - specialize (IH _ H). simpl. lia.
Qed.

Lemma fold_sizes_nth (n k f sz : nat) :
  nth_error (fold_sizes n k) f = Some sz ->
  (f < k)%nat /\ sz = (if (f <? n mod k)%nat then S (n / k) else (n / k)%nat).
Proof.
  unfold fold_sizes. intro H.
  assert (Hf : (f < k)%nat).
  { assert (Hn : nth_error
                   (map (fun f => if (f <? n mod k)%nat then S (n / k) else (n / k)%nat)
                        (seq 0 k)) f <> None) by congruence.
    apply nth_error_Some in Hn. now rewrite length_map, length_seq in Hn. }
  split; [exact Hf|].
  rewrite nth_error_map in H.
  destruct (nth_error (seq 0 k) f) as [a|] eqn:E; [|discriminate].
  apply (nth_error_nth _ _ 0%nat) in E. rewrite seq_nth in E by exact Hf.
  simpl in E. subst a. simpl in H. now injection H as <-.
Qed.

Lemma take_length A (l : list A) (idxs : list Z) (r : list A) :
  take l idxs = Some r -> length r = length idxs.
Proof.
  revert r; induction idxs as [|i idxs IH]; intros r H; simpl in H.
  - now injection H as <-.
  - destruct (get l i); [|discriminate].
    destruct (take l idxs) as [r'|]; [|discriminate].
    injection H as <-. simpl. now rewrite (IH r' eq_refl).
Qed.

Lemma take_app A (l : list A) (a b : list Z) (ra rb : list A) :
  take l a = Some ra -> take l b = Some rb -> take l (a ++ b) = Some (ra ++ rb).
Proof.
  revert ra; induction a as [|i a IH]; intros ra Ha Hb; simpl in Ha.
  - now injection Ha as <-.
  - simpl. destruct (get l i) as [x|]; [|discriminate].
    destruct (take l a) as [r'|]; [|discriminate].
    injection Ha as <-. now rewrite (IH r' eq_refl Hb).
Qed.

Lemma take_concat A (l : list A) (idxss : list (list nat)) (rs : list (list A)) :
  mapM (fun idxs => take l (map Z.of_nat idxs)) idxss = Some rs ->
  take l (map Z.of_nat (concat idxss)) = Some (concat rs).
Proof.
  revert rs; induction idxss as [|a idxss IH]; intros rs H.
  - simpl in H. now injection H as <-.
  - cbn [mapM] in H. destruct (take l (map Z.of_nat a)) as [ra|] eqn:Ea; [|discriminate].
    destruct (mapM _ idxss) as [rs'|] eqn:Er; [|discriminate].
    cbn [bind] in H. injection H as <-. simpl. rewrite map_app.
    apply take_app; [exact Ea|now apply IH].
Qed.

Lemma take_all A (l : list A) :
  take l (map Z.of_nat (seq 0 (length l))) = Some l.
Proof.
  induction l as [|a t IH]; [reflexivity|].
  cbn [length seq map take]. rewrite <- seq_shift, map_map.
  change (get (a :: t) (Z.of_nat 0)) with (Some a). cbn [bind].
  assert (E : forall idxs : list nat,
             take (a :: t) (map (fun x => Z.of_nat (S x)) idxs)
             = take t (map Z.of_nat idxs)).
  { induction idxs as [|i idxs IHi]; [reflexivity|].
    cbn [map take]. rewrite IHi, !get_of_nat. reflexivity. }
  rewrite E, IH. reflexivity.
Qed.

Lemma mapM_map A B C (g : A -> B) (f : B -> option C) (l : list A) :
  mapM f (map g l) = mapM (fun x => f (g x)) l.
Proof.
  induction l as [|a l IH]; [reflexivity|]. cbn [map mapM]. now rewrite IH.
Qed.

Lemma existsb_Zeqb_In (s : Z) (l : list Z) : existsb (Z.eqb s) l = true <-> In s l.
Proof.
  rewrite existsb_exists. split.
  - intros [x [Hx He]]. apply Z.eqb_eq in He. now subst.
  - intro H. exists s. split; [exact H|apply Z.eqb_refl].
Qed.

Lemma mapM_proj A B C (g : A -> option B) (h : A -> option C) (p : B -> C)
    (l : list A) (r : list B) :
  (forall x y, In x l -> g x = Some y -> h x = Some (p y)) ->
  mapM g l = Some r -> mapM h l = Some (map p r).
Proof.
  revert r; induction l as [|a l IH]; intros r Hgh H.
  - simpl in H. now injection H as <-.
  - cbn [mapM] in *. destruct (g a) as [y|] eqn:Ey; [|discriminate].
    destruct (mapM g l) as [r'|] eqn:Er; [|discriminate].
    cbn [bind] in H. injection H as <-.
    rewrite (Hgh a y (or_introl eq_refl) Ey). cbn [bind].
    rewrite (IH r'); [reflexivity| |reflexivity].
    intros x z Hx. apply Hgh. now right.
Qed.

Section Folds.
Variable subjects : list Z.
Variable k : nat.
Variable folds : list fold.
Hypothesis Hfolds : cv_folds subjects k = Some folds.

(** What [kfold_CV] has in hand in fold [f]: the block of positions
    scikit-learn hands out and the subjects and sample indices read off
    with them. *)
Lemma fold_inv (f : nat) (fd : fold) :
  nth_error folds f = Some fd ->
  exists c sz,
    (2 <= k <= length (subject_list subjects))%nat /\
    nth_error (fold_sizes (length (subject_list subjects)) k) f = Some sz /\
    (c + sz <= length (subject_list subjects))%nat /\
    take (subject_list subjects)
         (map Z.of_nat (seq 0 c ++ seq (c + sz)
                                       (length (subject_list subjects) - c - sz)))
    = Some (train_subjects fd) /\
    take (subject_list subjects) (map Z.of_nat (seq c sz)) = Some (test_subjects fd) /\
    train_idxs fd = fst (get_train_test_idxs subjects (test_subjects fd)) /\
    test_idxs fd = snd (get_train_test_idxs subjects (test_subjects fd)).
Proof.
  intro Hf. unfold cv_folds, split in Hfolds.
  destruct (Nat.ltb_spec k 2) as [|Hk2]; [discriminate|].
  destruct (Nat.ltb_spec (length (subject_list subjects)) k) as [|Hkn]; [discriminate|].
  cbn [bind] in Hfolds.
  destruct (mapM_nth_error _ _ f Hfolds) as [_ Hback].
  destruct (Hback fd Hf) as [x [Hx Hgx]].
  destruct (folds_from_nth _ _ _ _ Hx) as [sz [Hsz ->]]. cbn [fst snd] in Hgx.
  pose proof (block_in_range _ _ Hsz) as Hle.
  rewrite fold_sizes_sum in Hle by lia. simpl in Hgx.
  rewrite train_positions in Hgx by exact Hle.
  exists (list_sum (firstn f (fold_sizes (length (subject_list subjects)) k))), sz.
  split; [lia|]. split; [exact Hsz|]. split; [exact Hle|].
  destruct (take (subject_list subjects) (map Z.of_nat (seq 0 _ ++ _))) as [tr|];
    [|discriminate].
  destruct (take (subject_list subjects) (map Z.of_nat (seq _ sz))) as [te|];
    [|discriminate].
  cbn [bind] in Hgx. injection Hgx as <-. cbn. auto.
Qed.

End Folds.

(** X14. The split is by subject.  In every fold each subject of the
    data set is either a training subject or a test subject, never both;
    a sample is a test sample exactly when its subject is a test subject,
    and a training sample exactly when its subject is a training subject.
    So no subject has samples on both sides. *)
Theorem folds_keep_subjects_apart (subjects : list Z) (k : nat) (folds : list fold)
    (fd : fold) :
  cv_folds subjects k = Some folds -> In fd folds ->
  (forall s, In s (subject_list subjects) ->
     (In s (train_subjects fd) /\ ~ In s (test_subjects fd)) \/
     (In s (test_subjects fd) /\ ~ In s (train_subjects fd))) /\
  (forall j s, get subjects j = Some s ->
     (In j (test_idxs fd) <-> In s (test_subjects fd)) /\
     (In j (train_idxs fd) <-> In s (train_subjects fd))).
Proof.
  intros Hfolds Hin. apply In_nth_error in Hin. destruct Hin as [f Hf].
  destruct (@fold_inv _ _ _ Hfolds _ _ Hf) as [c [sz [Hk [Hsz [Hle [Htr [Hte [Hti Htei]]]]]]]].
  set (S := subject_list subjects) in *. set (n := length S) in *.
  assert (Hpos : forall i i' s, nth_error S i = Some s -> nth_error S i' = Some s ->
                                i' = i).
  { intros i i' s Hi Hi'.
    apply (proj1 (NoDup_nth_error S) (subject_list_NoDup subjects)).
    - apply nth_error_Some. congruence.
    - congruence. }
  assert (Hsides : forall s, In s S ->
            (In s (train_subjects fd) /\ ~ In s (test_subjects fd)) \/
            (In s (test_subjects fd) /\ ~ In s (train_subjects fd))).
  { intros s Hs. apply In_nth_error in Hs. destruct Hs as [i Hi].
    assert (Hi_n : (i < n)%nat) by (apply nth_error_Some; congruence).
    destruct (le_lt_dec c i) as [Hci|Hci]; [destruct (le_lt_dec (c + sz) i) as [Hei|Hei]|].
    - left. split.
      + apply (take_In _ _ s Htr). exists (Z.of_nat i). split.
        * apply in_map, in_or_app. right. apply in_seq. lia.
        * now rewrite get_of_nat.
      + intro Hte'. apply (take_In _ _ s Hte) in Hte'. destruct Hte' as [z [Hz Hg]].
        apply in_map_iff in Hz. destruct Hz as [i' [<- Hi']].
        rewrite get_of_nat in Hg. apply in_seq in Hi'.
        pose proof (Hpos _ _ _ Hi Hg). lia.
    - right. split.
      + apply (take_In _ _ s Hte). exists (Z.of_nat i). split.
        * apply in_map, in_seq. lia.
        * now rewrite get_of_nat.
      + intro Htr'. apply (take_In _ _ s Htr) in Htr'. destruct Htr' as [z [Hz Hg]].
        apply in_map_iff in Hz. destruct Hz as [i' [<- Hi']].
        rewrite get_of_nat in Hg. pose proof (Hpos _ _ _ Hi Hg).
        apply in_app_or in Hi'. destruct Hi' as [Hi'|Hi']; apply in_seq in Hi'; lia.
    - left. split.
      + apply (take_In _ _ s Htr). exists (Z.of_nat i). split.
        * apply in_map, in_or_app. left. apply in_seq. lia.
        * now rewrite get_of_nat.
      + intro Hte'. apply (take_In _ _ s Hte) in Hte'. destruct Hte' as [z [Hz Hg]].
        apply in_map_iff in Hz. destruct Hz as [i' [<- Hi']].
        rewrite get_of_nat in Hg. apply in_seq in Hi'.
        pose proof (Hpos _ _ _ Hi Hg). lia. }
  split; [exact Hsides|].
  intros j s Hg.
  assert (Hs : In s S).
  { unfold S, subject_list. apply unique_In. unfold get in Hg.
    destruct (j <? 0); [discriminate|]. eapply nth_error_In; eauto. }
  rewrite Hti, Htei. unfold get_train_test_idxs. cbn [fst snd].
  rewrite !nonzero_In, !nth_error_map.
  unfold get in Hg. destruct (Z.ltb_spec j 0) as [|Hj]; [discriminate|].
  rewrite Hg. cbn [option_map].
  destruct (existsb (Z.eqb s) (test_subjects fd)) eqn:E.
  - apply existsb_Zeqb_In in E. split.
    + split; [intros _; exact E|intros _; split; [exact Hj|reflexivity]].
    + split; [intros [_ H]; discriminate|].
      intro Htr'. destruct (Hsides s Hs) as [[_ Hn]|[_ Hn]]; contradiction.
  - assert (Hnot : ~ In s (test_subjects fd)).
    { intro H. apply existsb_Zeqb_In in H. congruence. }
    split.
    + split; [intros [_ H]; discriminate|intro H; contradiction].
    + split; [|intros _; split; [exact Hj|reflexivity]].
      intros _. destruct (Hsides s Hs) as [[Ht _]|[Ht _]]; [exact Ht|contradiction].
Qed.

Lemma folds_keep_subjects_apart_witness :
  cv_folds subjects_eight 2 = Some folds_eight /\
  In (nth 0 folds_eight fold_empty) folds_eight /\
  forall j s, get subjects_eight j = Some s ->
    (In j (test_idxs (nth 0 folds_eight fold_empty))
     <-> In s (test_subjects (nth 0 folds_eight fold_empty))).
Proof.
  assert (H1 : cv_folds subjects_eight 2 = Some folds_eight) by reflexivity.
  assert (H2 : In (nth 0 folds_eight fold_empty) folds_eight) by (left; reflexivity).
  split; [exact H1|]. split; [exact H2|].
  intros j s Hg.
  exact (proj1 (proj2 (@folds_keep_subjects_apart subjects_eight 2 folds_eight
                         (nth 0 folds_eight fold_empty) H1 H2) j s Hg)).
Defined.

(** X15. Without shuffling, the test subjects of the folds are
    consecutive blocks of the sorted subject list: read fold after fold
    they give the subject list itself.  The blocks are balanced: with [n]
    subjects, fold [f] tests [n / k + 1] subjects if [f < n mod k] and
    [n / k] otherwise, and trains on the [n] minus that many others. *)
Theorem folds_are_balanced_blocks (subjects : list Z) (k : nat) (folds : list fold) :
  cv_folds subjects k = Some folds ->
  concat (map test_subjects folds) = subject_list subjects /\
  forall f fd, nth_error folds f = Some fd ->
    length (test_subjects fd)
    = (if (f <? length (subject_list subjects) mod k)%nat
       then S (length (subject_list subjects) / k)
       else (length (subject_list subjects) / k)%nat) /\
    (length (train_subjects fd) + length (test_subjects fd)
     = length (subject_list subjects))%nat.
Proof.
  intro Hfolds. split.
  - pose proof Hfolds as Hm. unfold cv_folds, split in Hm.
    destruct (Nat.ltb_spec k 2) as [|Hk2]; [discriminate|].
    destruct (Nat.ltb_spec (length (subject_list subjects)) k) as [|Hkn]; [discriminate|].
    cbn [bind] in Hm.
    set (S := subject_list subjects) in *. set (n := length S) in *.
    apply (@mapM_proj _ _ _ _ (fun x => take S (map Z.of_nat (snd x))) test_subjects)
      in Hm.
    + rewrite <- (mapM_map (@snd (list nat) (list nat))
                           (fun idxs => take S (map Z.of_nat idxs))) in Hm.
      apply take_concat in Hm.
      rewrite folds_from_tests, fold_sizes_sum in Hm by lia.
      unfold n in Hm. rewrite take_all in Hm. now injection Hm as ->.
    + intros x y _ Hg.
      destruct (take S (map Z.of_nat (fst x))); [|discriminate].
      destruct (take S (map Z.of_nat (snd x))); [|discriminate].
      cbn [bind] in Hg. now injection Hg as <-.
  - intros f fd Hf.
    destruct (@fold_inv _ _ _ Hfolds _ _ Hf) as [c [sz [Hk [Hsz [Hle [Htr [Hte _]]]]]]].
    apply take_length in Htr, Hte.
    rewrite length_map, length_app, !length_seq in Htr.
    rewrite length_map, length_seq in Hte.
    destruct (fold_sizes_nth _ _ _ Hsz) as [_ Hsize].
    rewrite Htr, Hte. split; [exact Hsize|lia].
Qed.

Lemma folds_are_balanced_blocks_witness :
  cv_folds subjects_eight 2 = Some folds_eight /\
  concat (map test_subjects folds_eight) = subject_list subjects_eight.
Proof.
  assert (H1 : cv_folds subjects_eight 2 = Some folds_eight) by reflexivity.
  split; [exact H1|].
  exact (proj1 (@folds_are_balanced_blocks subjects_eight 2 folds_eight H1)).
Defined.

End FoldFacts.

(** ** Class indices after [_transform_labels] *)

Module LabelTransformFacts.
Import Np NpFacts XITE OpenFace KFoldFacts.

Lemma relabel_cells (first offset : Z) (xs labels : list Z) :
  relabel first offset xs labels = map (relabel_cell first offset xs) labels.
Proof.
  revert first labels; induction xs as [|x xs IH]; intros first labels; simpl.
  - now rewrite map_id.
  - rewrite IH. unfold assign_where. now rewrite map_map.
Qed.

Lemma relabel_cell_other (first offset : Z) (xs : list Z) (v : Z) :
  ~ In v xs -> relabel_cell first offset xs v = v.
Proof.
  revert first; induction xs as [|x xs IH]; intros first Hv; simpl; [reflexivity|].
  destruct (Z.eqb_spec v x) as [->|_]; [exfalso; apply Hv; now left|].
  apply IH. intro H. apply Hv. now right.
Qed.

(** The [i]-th label of the list gets the value [first + i + offset],
    unless that value is itself a label further down the list. *)
Lemma relabel_cell_nth (first offset : Z) (xs : list Z) (i : nat) (b : Z) :
  NoDup xs -> nth_error xs i = Some b ->
  ~ In (first + Z.of_nat i + offset) xs ->
  relabel_cell first offset xs b = first + Z.of_nat i + offset.
Proof.
  revert first i; induction xs as [|x xs IH]; intros first i Hnd Hi Hnew.
  - now destruct i.
  - inversion Hnd as [|? ? Hx Hnd']; subst. destruct i as [|i]; simpl in Hi.
    + injection Hi as ->. simpl. rewrite Z.eqb_refl.
      rewrite relabel_cell_other; [lia|].
      intro H. apply Hnew. right. now replace (first + Z.of_nat 0 + offset)
        with (first + offset) by lia.
    + simpl. destruct (Z.eqb_spec b x) as [->|_].
      * exfalso. apply Hx. eapply nth_error_In; eauto.
      * rewrite (IH (first + 1) i Hnd' Hi).
        -- lia.
        -- intro H. apply Hnew. right.
           now replace (first + Z.of_nat (S i) + offset)
             with (first + 1 + Z.of_nat i + offset) by lia.
Qed.

Lemma base_far (x : Z) : In x labels_base -> x <= -100 \/ 100 <= x.
Proof.
  unfold labels_base. simpl. intro H.
  repeat (destruct H as [<-|H]; [lia|]). contradiction.
Qed.

Lemma pain_near (x : Z) : In x labels_pain -> -6 <= x <= 6 /\ x <> 0.
Proof.
  unfold labels_pain. simpl. intro H.
  repeat (destruct H as [<-|H]; [lia|]). contradiction.
Qed.

Lemma base_list_In (labels : list Z) (x : Z) :
  In x (_base_labels_list labels) <-> In x labels /\ In x labels_base.
Proof.
  unfold _base_labels_list, labels_list. rewrite filter_In, FoldFacts.unique_In.
  now rewrite FoldFacts.existsb_Zeqb_In.
Qed.

Lemma pain_list_In (labels : list Z) (x : Z) :
  In x (_pain_labels_list labels) <-> In x labels /\ In x labels_pain.
Proof.
  unfold _pain_labels_list, labels_list. rewrite filter_In, FoldFacts.unique_In.
  now rewrite FoldFacts.existsb_Zeqb_In.
Qed.

Lemma base_list_NoDup (labels : list Z) : NoDup (_base_labels_list labels).
Proof. apply NoDup_filter, sorted_NoDup, unique_sorted. Qed.

Lemma base_list_short (labels : list Z) : (length (_base_labels_list labels) <= 12)%nat.
Proof.
  change 12%nat with (length labels_base).
  apply NoDup_incl_length; [apply base_list_NoDup|].
  intros x Hx. now apply base_list_In in Hx.
Qed.

Lemma two_labels (u : list Z) (b p l : Z) :
  length u = 2%nat -> In b u -> In p u -> b <> p -> In l u -> l = b \/ l = p.
Proof.
  destruct u as [|x [|y [|z u]]]; simpl; try discriminate.
  intros _ Hb Hp Hbp Hl.
  destruct Hb as [<-|[<-|[]]], Hp as [<-|[<-|[]]], Hl as [<-|[<-|[]]];
    auto; contradiction.
Qed.

(** X16. The binary case.  For a data set with one baseline label [b],
    one pain label [p] and no other label, [_transform_labels] turns every
    [b] into 0 and every [p] into 1, and [classes] leads from the class of
    a sample back to its label. *)
Theorem transform_labels_binary (labels : list Z) (b p : Z) :
  _base_labels_list labels = [b] -> _pain_labels_list labels = [p] ->
  num_classes labels = 2%nat ->
  _transform_labels labels = map (fun l => if l =? b then 0 else 1) labels /\
  forall j l, nth_error labels j = Some l ->
    exists c, nth_error (_transform_labels labels) j = Some c /\
              classes labels c = Some l.
Proof.
  intros Hb Hp Hn.
  assert (Hb' : In b labels /\ In b labels_base)
    by (apply base_list_In; rewrite Hb; now left).
  assert (Hp' : In p labels /\ In p labels_pain)
    by (apply pain_list_In; rewrite Hp; now left).
  destruct Hb' as [Hbl Hbb], Hp' as [Hpl Hpp].
  apply base_far in Hbb. apply pain_near in Hpp.
  assert (Hall : forall l, In l labels -> l = b \/ l = p).
  { intros l Hl. apply (@two_labels (labels_list labels) b p l Hn);
      try (apply FoldFacts.unique_In; assumption). lia. }
  assert (Ht : _transform_labels labels = map (fun l => if l =? b then 0 else 1) labels).
  { unfold _transform_labels. rewrite Hb, Hp. simpl. unfold assign_where.
    rewrite map_map. apply map_ext_in. intros l Hl.
    destruct (Hall l Hl) as [->| ->].
    - rewrite Z.eqb_refl. destruct (Z.eqb_spec 0 p); [lia|reflexivity].
    - destruct (Z.eqb_spec p b); [lia|]. now rewrite Z.eqb_refl. }
  split; [exact Ht|].
  intros j l Hj. rewrite Ht. rewrite (map_nth_error _ _ _ Hj).
  eexists. split; [reflexivity|]. unfold classes. rewrite Hb, Hp.
  destruct (Hall l (nth_error_In _ _ Hj)) as [->| ->].
  - now rewrite Z.eqb_refl.
  - destruct (Z.eqb_spec p b); [lia|reflexivity].
Qed.

Lemma transform_labels_binary_witness :
  (_base_labels_list labels_binary = [100] /\
   _pain_labels_list labels_binary = [-3] /\
   num_classes labels_binary = 2%nat) /\
  _transform_labels labels_binary
  = map (fun l => if l =? 100 then 0 else 1) labels_binary.
Proof.
  assert (Hb : _base_labels_list labels_binary = [100]) by reflexivity.
  assert (Hp : _pain_labels_list labels_binary = [-3]) by reflexivity.
  assert (Hn : num_classes labels_binary = 2%nat) by reflexivity.
  split; [split; [exact Hb|split; [exact Hp|exact Hn]]|].
  exact (proj1 (@transform_labels_binary labels_binary 100 (-3) Hb Hp Hn)).
Defined.

(** X17. The replacement works on the array in place, one label after
    the other, so a class index already written is taken for a label
    later on.  The baseline label at place [i] of the baseline list gets
    the value [i] in the first loop and from then on shares the fate of
    the samples whose label was [i] from the start: both end with the
    same class.  With two baseline labels and pain label 1 in the data
    set, the second baseline class and pain class 1 are merged. *)
Theorem transform_labels_merges_classes (labels : list Z) (i : nat) (b : Z)
    (j j' : nat) :
  nth_error (_base_labels_list labels) i = Some b ->
  nth_error labels j = Some b -> nth_error labels j' = Some (Z.of_nat i) ->
  nth_error (_transform_labels labels) j = nth_error (_transform_labels labels) j'.
Proof.
  intros Hi Hj Hj'. unfold _transform_labels. cbv zeta.
  rewrite !relabel_cells, map_map.
  rewrite (map_nth_error _ _ _ Hj), (map_nth_error _ _ _ Hj'). do 2 f_equal.
  assert (Hlt : (i < 12)%nat).
  { pose proof (base_list_short labels).
    assert (Hn : nth_error (_base_labels_list labels) i <> None) by congruence.
    apply nth_error_Some in Hn. lia. }
  assert (Hnot : ~ In (Z.of_nat i) (_base_labels_list labels)).
  { intro H. apply base_list_In in H. destruct H as [_ H]. apply base_far in H. lia. }
  rewrite (@relabel_cell_nth 0 0 (_base_labels_list labels) i b
             (base_list_NoDup labels) Hi).
  - rewrite relabel_cell_other by exact Hnot. lia.
  - now replace (0 + Z.of_nat i + 0) with (Z.of_nat i) by lia.
Qed.

Lemma transform_labels_merges_classes_witness :
  (nth_error (_base_labels_list labels_four_classes) 1 = Some 200 /\
   nth_error labels_four_classes 1 = Some 200 /\
   nth_error labels_four_classes 2 = Some (Z.of_nat 1)) /\
  nth_error (_transform_labels labels_four_classes) 1
  = nth_error (_transform_labels labels_four_classes) 2.
Proof.
  assert (Hi : nth_error (_base_labels_list labels_four_classes) 1 = Some 200)
    by reflexivity.
  assert (Hj : nth_error labels_four_classes 1 = Some 200) by reflexivity.
  assert (Hj' : nth_error labels_four_classes 2 = Some (Z.of_nat 1)) by reflexivity.
  split; [split; [exact Hi|split; [exact Hj|exact Hj']]|].
  exact (@transform_labels_merges_classes labels_four_classes 1 200 1 2 Hi Hj Hj').
Defined.

End LabelTransformFacts.

(** ** The cells of the adjacency frames *)

Module AdjacencyCellFacts.
Import Np Float Adjacency AdjacencyFacts Conditional.

Lemma ratio_frame_of (names : list name) (f g : name -> name -> Z) (a b : name) :
  mem a names = true -> mem b names = true ->
  ratio (frame_of names f) (frame_of names g) a b
  = Some (divide (inject_Z (f a b)) (g a b)).
Proof. intros Ha Hb. unfold ratio. cbn [frame_of loc]. now rewrite Ha, Hb. Qed.

Lemma divide_zero_zero : divide (inject_Z 0) 0 = NaN.
Proof. reflexivity. Qed.

Lemma divide_fraction (a o : Z) :
  0 <= a <= o -> 0 < o ->
  exists q, divide (inject_Z a) o = Fin q /\ (0 <= q)%Q /\ (q <= 1)%Q /\
            q = (inject_Z a / inject_Z o)%Q.
Proof.
  intros Ha Ho. unfold divide. destruct (Z.eqb_spec o 0) as [|_]; [lia|].
  eexists. split; [reflexivity|].
  assert (Hpos : (0 < inject_Z o)%Q) by (unfold Qlt; simpl; lia).
  split; [|split; [|reflexivity]].
  - apply Qle_shift_div_l; [exact Hpos|]. rewrite Qmult_0_l.
    unfold Qle; simpl; lia.
  - apply Qle_shift_div_r; [exact Hpos|]. rewrite Qmult_1_l.
    unfold Qle; simpl; lia.
Qed.

(** X18. For a count table whose AND count of every pair is not negative
    and not above the pair's OR count, the "symm" method returns an
    adjacency frame in which the cell of every pair of Action Units is
    NaN when the OR count of the pair is 0 (neither unit was ever
    active) and otherwise the finite value AND count / OR count, which
    lies between 0 and 1. *)
Theorem symm_adjacency_cells (t : count_table) :
  (forall AUi AUj, 0 <= counts_and t AUi AUj <= counts_or t AUi AUj) ->
  exists adj,
    adjacency_symm t = Some adj /\
    forall AUi AUj, mem AUi (AU_names t) = true -> mem AUj (AU_names t) = true ->
      (counts_or t AUi AUj = 0 /\ loc adj AUi AUj = Some NaN) \/
      (0 < counts_or t AUi AUj /\
       exists q, loc adj AUi AUj = Some (Fin q) /\ (0 <= q)%Q /\ (q <= 1)%Q /\
                 q = (inject_Z (counts_and t AUi AUj)
                      / inject_Z (counts_or t AUi AUj))%Q).
Proof.
  intro Hc. unfold adjacency_symm.
  destruct (@outer_loop_total (ratio (df_counts_and t) (df_counts_or t))
              (AU_names t) (AU_names t) (zeros (AU_names t))) as [adj Hadj].
  { intros i j Hi Hj. unfold df_counts_and, df_counts_or.
    rewrite ratio_frame_of by assumption. discriminate. }
  exists adj. split; [exact Hadj|].
  intros AUi AUj Hi Hj.
  assert (Hloc : loc adj AUi AUj
                 = Some (divide (inject_Z (counts_and t AUi AUj)) (counts_or t AUi AUj))).
  { rewrite (@symm_loc (df_counts_and t) (df_counts_or t) adj Hadj AUi AUj).
    cbn [df_counts_and frame_of columns]. rewrite Hi, Hj. cbn [andb].
    unfold df_counts_and, df_counts_or. now apply ratio_frame_of. }
  specialize (Hc AUi AUj).
  destruct (Z.eq_dec (counts_or t AUi AUj) 0) as [E|E].
  - left. split; [exact E|]. rewrite Hloc, E.
    replace (counts_and t AUi AUj) with 0 by lia. reflexivity.
  - right. split; [lia|].
    destruct (@divide_fraction (counts_and t AUi AUj) (counts_or t AUi AUj))
      as [q [Hq Hr]]; [exact Hc|lia|].
    exists q. split; [now rewrite Hloc, Hq|exact Hr].
Qed.

Lemma symm_adjacency_cells_witness :
  (forall AUi AUj, 0 <= counts_and demo_table AUi AUj <= counts_or demo_table AUi AUj) /\
  exists adj, adjacency_symm demo_table = Some adj.
Proof.
  assert (Hc : forall AUi AUj,
             0 <= counts_and demo_table AUi AUj <= counts_or demo_table AUi AUj)
    by (intros a b; simpl; destruct (String.eqb a b); lia).
  split; [exact Hc|].
  destruct (symm_adjacency_cells demo_table Hc) as [adj [Hadj _]].
  exists adj. exact Hadj.
Defined.

Lemma cond_loc (df_and : frame Z) (adj : frame cell) :
  compute_rel_AU_freqs_cond df_and = Some adj ->
  forall a b,
    loc adj a b = if mem a (columns df_and) && mem b (columns df_and)
                  then ratio_cond df_and a b else None.
Proof.
  intros H a b. unfold compute_rel_AU_freqs_cond in H. cbv zeta in H.
  destruct (for_each (columns df_and) _ (zeros (columns df_and))) as [df|] eqn:E;
    [|discriminate].
  cbn [bind] in H. injection H as <-.
  rewrite (outer_loop_loc (ratio_cond df_and) _ _ _ E a b). cbn [zeros loc].
  now destruct (mem a (columns df_and) && mem b (columns df_and)).
Qed.

(** X19. The "cond" method returns a frame for every count frame, the
    cell at (AUi, AUj) being the count of the pair divided by the count
    at (AUj, AUj).  The frame is returned as the loops left it: where
    both counts are 0 (AUj was never active) the cell is NaN, not the 0
    that [fillna(0)] puts into the copy it makes. *)
Theorem cond_adjacency_keeps_nan (names : list name) (n : name -> name -> Z) :
  exists adj,
    compute_rel_AU_freqs_cond (frame_of names n) = Some adj /\
    forall AUi AUj, mem AUi names = true -> mem AUj names = true ->
      loc adj AUi AUj = Some (divide (inject_Z (n AUi AUj)) (n AUj AUj)) /\
      (n AUi AUj = 0 -> n AUj AUj = 0 ->
       loc adj AUi AUj = Some NaN /\ loc (fillna adj 0) AUi AUj = Some (Fin 0)).
Proof.
  destruct (@outer_loop_total (ratio_cond (frame_of names n)) names names (zeros names))
    as [adj Hadj].
  { intros i j Hi Hj. unfold ratio_cond. cbn [frame_of loc].
    rewrite Hi, Hj. discriminate. }
  assert (Hr : compute_rel_AU_freqs_cond (frame_of names n) = Some adj).
  { unfold compute_rel_AU_freqs_cond. cbn [frame_of columns]. cbv zeta.
    cbn [frame_of columns] in Hadj. now rewrite Hadj. }
  exists adj. split; [exact Hr|].
  intros AUi AUj Hi Hj.
  assert (Hloc : loc adj AUi AUj = Some (divide (inject_Z (n AUi AUj)) (n AUj AUj))).
  { rewrite (@cond_loc _ _ Hr AUi AUj). cbn [frame_of columns]. rewrite Hi, Hj.
    unfold ratio_cond. cbn [andb frame_of loc]. now rewrite Hi, Hj. }
  split; [exact Hloc|].
  intros H0 H1. cbn [fillna loc]. rewrite Hloc, H0, H1. split; reflexivity.
Qed.

End AdjacencyCellFacts.

(** ** The feature row of a slice *)

Module FeatureFacts.
Import Np Features.

Lemma mem_In (a : name) (l : list name) : mem a l = true <-> In a l.
Proof.
  unfold mem. rewrite existsb_exists. split.
  - intros [x [Hx He]]. apply String.eqb_eq in He. now subst.
  - intro H. exists a. split; [exact H|apply String.eqb_refl].
Qed.

Lemma mem_false (a : name) (l : list name) : ~ In a l -> mem a l = false.
Proof.
  intro H. destruct (mem a l) eqn:E; [|reflexivity].
  apply mem_In in E. contradiction.
Qed.

Lemma lookup_In (d : settings) (channel : name) (v : list name) :
  lookup d channel = Some v -> In (channel, v) d.
Proof.
  induction d as [|[k w] d IH]; simpl; [discriminate|].
  destruct (String.eqb_spec channel k) as [->|_].
  - intros [= ->]. now left.
  - intro H. right. now apply IH.
Qed.

Lemma lookup_mem (d : settings) (channel : name) :
  mem channel (keys d) = true -> exists v, lookup d channel = Some v.
Proof.
  induction d as [|[k w] d IH]; simpl; [discriminate|].
  destruct (String.eqb channel k); [intros _; now exists w|exact IH].
Qed.

Lemma lookup_not_mem (d : settings) (channel : name) :
  mem channel (keys d) = false -> lookup d channel = None.
Proof.
  induction d as [|[k w] d IH]; simpl; [reflexivity|].
  destruct (String.eqb channel k); [discriminate|exact IH].
Qed.

Lemma lookup_names (d : settings) (channel : name) (v : list name) (n : name) :
  lookup d channel = Some v -> In n v -> In n (names_of d).
Proof.
  intros Hl Hn. apply lookup_In in Hl. unfold names_of. apply in_concat.
  exists v. split; [|exact Hn]. apply in_map_iff. now exists (channel, v).
Qed.

Lemma sum_indicator (k : name) (n : nat) (l : list name) :
  NoDup l -> In k l ->
  list_sum (map (fun channel => if String.eqb channel k then n else 0%nat) l) = n.
Proof.
  induction 1 as [|a l Ha Hnd IH]; intro Hk; [contradiction|].
  simpl. destruct (String.eqb_spec a k) as [->|Hak].
  - assert (E : list_sum (map (fun channel => if String.eqb channel k then n else 0%nat) l)
                = 0%nat).
    { clear IH Hk Hnd. induction l as [|b l IHl]; [reflexivity|].
      simpl. destruct (String.eqb_spec b k) as [->|_].
      - exfalso. apply Ha. now left.
      - apply IHl. intro H. apply Ha. now right. }
    rewrite E. lia.
  - destruct Hk as [->|Hk]; [contradiction|]. now rewrite IH.
Qed.

Lemma sum_plus (f g : name -> nat) (l : list name) :
  list_sum (map (fun c => (f c + g c)%nat) l)
  = (list_sum (map f l) + list_sum (map g l))%nat.
Proof. induction l as [|a l IH]; simpl; [reflexivity|]. rewrite IH. lia. Qed.

(** Summed over the columns of the slice the widths of a dictionary give
    its total. *)
Lemma sum_width (d : settings) (cols : list name) :
  NoDup (keys d) -> NoDup cols -> incl (keys d) cols ->
  list_sum (map (width d) cols) = total d.
Proof.
  intros Hd Hc. induction d as [|[k v] d IH]; intro Hin.
  - unfold total. simpl. clear. induction cols as [|a l IHl]; [reflexivity|exact IHl].
  - simpl in Hd. inversion Hd as [|? ? Hk Hd']; subst.
    assert (E : forall c, width ((k, v) :: d) c
                          = ((if String.eqb c k then length v else 0) + width d c)%nat).
    { intro c. unfold width. simpl. destruct (String.eqb_spec c k) as [->|_].
      - rewrite lookup_not_mem by (apply mem_false; exact Hk). lia.
      - reflexivity. }
    rewrite (map_ext _ _ E), sum_plus, sum_indicator, IH.
    + reflexivity.
    + exact Hd'.
    + intros x Hx. apply Hin. now right.
    + exact Hc.
    + apply Hin. now left.
Qed.

Section Extraction.
Variable signal value : Type.
Variable getattr : name -> option (feature_function signal value).
Variable compute_derivative : signal -> signal.
Variable columns : list name.
Variable column : name -> signal.
Variable s s1 s2 : settings.

Lemma append_features_length (func_names : list name) (x : signal)
    (keywords : list (name * Z)) (features : list value) :
  (forall n, In n func_names ->
     exists func, getattr n = Some func /\ compute func x [] <> None) ->
  exists r,
    append_features getattr func_names x keywords features = Some r /\
    length r = (length features + length func_names)%nat.
Proof.
  revert features; induction func_names as [|n rest IH]; intros features H.
  - exists features. split; [reflexivity|simpl; lia].
  - destruct (H n (or_introl eq_refl)) as [func [Hg Hc]].
    assert (Ht : exists v, try_call func x keywords = Some v).
    { unfold try_call. destruct (call func x keywords) as [v|]; [now exists v|].
      unfold call. simpl. destruct (compute func x []) as [v|]; [now exists v|].
      now destruct Hc. }
    destruct Ht as [v Hv].
    destruct (IH (features ++ [v])) as [r [Hr Hlen]];
      [intros m Hm; apply H; now right|].
    exists r. cbn [append_features]. rewrite Hg. cbn [bind]. rewrite Hv. cbn [bind].
    split; [exact Hr|]. rewrite Hlen, length_app. simpl. lia.
Qed.

Lemma block_length (d : settings) (channel : name) (x : signal)
    (keywords : list (name * Z)) (features : list value) :
  (forall n, In n (names_of d) ->
     exists func, getattr n = Some func /\ compute func x [] <> None) ->
  exists r,
    block getattr d channel x keywords features = Some r /\
    length r = (length features + width d channel)%nat.
Proof.
  intro H. unfold block, width. destruct (mem channel (keys d)) eqn:E.
  - destruct (lookup_mem _ _ E) as [v Hv]. rewrite Hv. cbn [bind].
    apply append_features_length. intros n Hn. apply H.
    eapply lookup_names; eauto.
  - rewrite (lookup_not_mem _ _ E). exists features. split; [reflexivity|lia].
Qed.

Hypothesis Hreturn :
  forall func_name,
    In func_name (names_of s ++ names_of s1 ++ names_of s2) ->
    returns getattr compute_derivative columns column func_name.

Lemma returns_on (d : settings) (channel : name) (x : signal) :
  In channel columns ->
  In x [column channel; compute_derivative (column channel);
        compute_derivative (compute_derivative (column channel))] ->
  (forall n, In n (names_of d) -> In n (names_of s ++ names_of s1 ++ names_of s2)) ->
  forall n, In n (names_of d) ->
    exists func, getattr n = Some func /\ compute func x [] <> None.
Proof.
  intros Hc Hx Hd n Hn. destruct (Hreturn n (Hd n Hn)) as [func [Hg Hall]].
  exists func. split; [exact Hg|]. apply Hall. unfold signals.
  apply in_flat_map. exists channel. split; [exact Hc|exact Hx].
Qed.

Lemma channels_loop_length (sample_rate : Z) (channels : list name)
    (features : list value) :
  incl channels columns ->
  exists r,
    channels_loop getattr compute_derivative column s s1 s2 sample_rate channels features
    = Some r /\
    length r = (length features
                + list_sum (map (fun c => (width s c + width s1 c + width s2 c)%nat)
                                channels))%nat.
Proof.
  revert features; induction channels as [|c rest IH]; intros features Hin.
  - exists features. split; [reflexivity|simpl; lia].
  - assert (Hc : In c columns) by (apply Hin; now left).
    cbn [channels_loop].
    destruct (@block_length s c (column c) [("sample_rate"%string, sample_rate)] features)
      as [f0 [H0 L0]].
    { apply returns_on with (channel := c); [exact Hc|now left|].
      intros n Hn. apply in_or_app. now left. }
    rewrite H0. cbn [bind].
    destruct (@block_length s1 c (compute_derivative (column c))
                [("sampling_rate"%string, sample_rate)] f0) as [f1 [H1 L1]].
    { apply returns_on with (channel := c); [exact Hc|right; now left|].
      intros n Hn. apply in_or_app. right. apply in_or_app. now left. }
    rewrite H1. cbn [bind].
    destruct (@block_length s2 c (compute_derivative (compute_derivative (column c)))
                [("sample_rate"%string, sample_rate)] f1) as [f2 [H2 L2]].
    { apply returns_on with (channel := c); [exact Hc|right; right; now left|].
      intros n Hn. apply in_or_app. right. apply in_or_app. now right. }
    rewrite H2. cbn [bind].
    destruct (IH f2) as [r [Hr Lr]]; [intros x Hx; apply Hin; now right|].
    exists r. split; [exact Hr|]. rewrite Lr, L2, L1, L0. simpl. lia.
Qed.

End Extraction.

(** X20. When the config and the slice fit together (every channel of
    the three settings dictionaries is a column of the slice, no column
    twice, and the functions named return on the signals of the slice),
    [_extract_features_from_slice] returns a list of exactly
    [nof_features] entries, the width of the feature row it is written
    to, for every sample rate. *)
Theorem feature_row_has_nof_features (signal value : Type)
    (getattr : name -> option (feature_function signal value))
    (compute_derivative : signal -> signal) (columns : list name)
    (column : name -> signal) (s s1 s2 : settings) (sample_rate : Z) :
  fits getattr compute_derivative columns column s s1 s2 ->
  exists features,
    _extract_features_from_slice getattr compute_derivative columns column s s1 s2
      sample_rate = Some features /\
    length features = nof_features s s1 s2.
Proof.
  intros [Hc [Hd [Hd1 [Hd2 [Hi [Hi1 [Hi2 Hr]]]]]]].
  destruct (@channels_loop_length signal value getattr compute_derivative columns column
              s s1 s2 Hr sample_rate columns []) as [r [Hrun Hlen]];
    [apply incl_refl|].
  exists r. split; [exact Hrun|]. rewrite Hlen. simpl.
  rewrite (sum_plus (fun c => (width s c + width s1 c)%nat) (width s2)).
  rewrite (sum_plus (width s) (width s1)).
  rewrite !sum_width by assumption. reflexivity.
Qed.

Lemma demo_fits :
  fits demo_getattr demo_derivative demo_columns demo_column
       demo_settings demo_settings_d1 demo_settings_d2.
Proof.
  unfold fits. repeat split.
  - repeat constructor; simpl; intuition discriminate.
  - repeat constructor; simpl; intuition discriminate.
  - repeat constructor; simpl; intuition discriminate.
  - repeat constructor; simpl; intuition discriminate.
  - intros x Hx. simpl in *. tauto.
  - intros x Hx. simpl in *. tauto.
  - intros x Hx. simpl in *. tauto.
  - intros n Hn. simpl in Hn.
    assert (Hcase : n = "signal_max"%string \/ n = "signal_tmax"%string)
      by (repeat (destruct Hn as [<-|Hn]; [auto|]); contradiction).
    clear Hn. destruct Hcase as [->| ->].
    + exists signal_max. split; [reflexivity|].
      intros x Hx. simpl in Hx.
      repeat (destruct Hx as [<-|Hx]; [discriminate|]). contradiction.
    + exists signal_tmax. split; [reflexivity|].
      intros x Hx. simpl in Hx.
      repeat (destruct Hx as [<-|Hx]; [discriminate|]). contradiction.
Qed.

Lemma feature_row_has_nof_features_witness :
  fits demo_getattr demo_derivative demo_columns demo_column
       demo_settings demo_settings_d1 demo_settings_d2 /\
  exists features,
    _extract_features_from_slice demo_getattr demo_derivative demo_columns demo_column
      demo_settings demo_settings_d1 demo_settings_d2 25 = Some features /\
    length features = 5%nat.
Proof.
  split; [exact demo_fits|].
  exact (@feature_row_has_nof_features _ _ demo_getattr demo_derivative demo_columns
           demo_column demo_settings demo_settings_d1 demo_settings_d2 25 demo_fits).
Defined.

Lemma bind_cong A B (m m' : option A) (k k' : A -> option B) :
  m = m' -> (forall a, k a = k' a) -> bind m k = bind m' k'.
Proof. intros -> H. destruct m' as [a|]; [apply H|reflexivity]. Qed.

Section SampleRate.
Variable signal value : Type.
Variable getattr : name -> option (feature_function signal value).

(** A call with one keyword the function does not have ends in the call
    without keywords. *)
Lemma try_call_unknown (func : feature_function signal value) (x : signal)
    (keyword : name) (r : Z) :
  ~ In keyword (parameters func) ->
  try_call func x [(keyword, r)] = call func x [].
Proof.
  intro H. unfold try_call. unfold call at 1. simpl.
  now rewrite (mem_false _ _ H).
Qed.

Lemma try_call_default (func : feature_function signal value) (x : signal) :
  try_call func x [] = call func x [].
Proof. unfold try_call. now destruct (call func x []). Qed.

Lemma append_features_default (func_names : list name) (x : signal) (keyword : name)
    (r : Z) (features : list value) :
  (forall n func, In n func_names -> getattr n = Some func ->
                  ~ In keyword (parameters func)) ->
  append_features getattr func_names x [(keyword, r)] features
  = append_features getattr func_names x [] features.
Proof.
  revert features; induction func_names as [|n rest IH]; intros features H;
    [reflexivity|].
  cbn [append_features]. destruct (getattr n) as [func|] eqn:Eg; [|reflexivity].
  cbn [bind]. rewrite try_call_default.
  rewrite (@try_call_unknown func x keyword) by (eapply H; eauto; now left).
  destruct (call func x []) as [v|]; [|reflexivity]. cbn [bind].
  apply IH. intros m f Hm. apply H. now right.
Qed.

Lemma block_default (d : settings) (channel : name) (x : signal) (keyword : name)
    (r : Z) (features : list value) :
  without_parameter getattr keyword d ->
  block getattr d channel x [(keyword, r)] features
  = block getattr d channel x [] features.
Proof.
  intro H. unfold block. destruct (mem channel (keys d)); [|reflexivity].
  destruct (lookup d channel) as [v|] eqn:Ev; [|reflexivity]. cbn [bind].
  apply append_features_default. intros n func Hn. apply H.
  eapply lookup_names; eauto.
Qed.

Lemma block_unknown (d : settings) (channel : name) (x : signal) (keyword : name)
    (r r' : Z) (features : list value) :
  without_parameter getattr keyword d ->
  block getattr d channel x [(keyword, r)] features
  = block getattr d channel x [(keyword, r')] features.
Proof. intro H. now rewrite !block_default. Qed.

End SampleRate.

(** X21. The features of the first derivative never get the sample
    rate: there it is passed under the keyword [sampling_rate], which no
    function of the module has, so every such call ends in the call
    without keywords and the block of the first derivative gives what it
    gives when the functions are called with their defaults (a sample
    rate of 1000 for [signal_tmax], whatever the recording).  When in
    addition the functions applied to the signal itself and to its second
    derivative have no [sample_rate] parameter, the whole feature list is
    the same for every sample rate. *)
Theorem derivative_features_ignore_sample_rate (signal value : Type)
    (getattr : name -> option (feature_function signal value))
    (compute_derivative : signal -> signal) (columns : list name)
    (column : name -> signal) (s s1 s2 : settings) (r r' : Z) :
  without_parameter getattr "sampling_rate"%string s1 ->
  (forall channel x features,
     block getattr s1 channel x [("sampling_rate"%string, r)] features
     = block getattr s1 channel x [] features) /\
  (without_parameter getattr "sample_rate"%string s ->
   without_parameter getattr "sample_rate"%string s2 ->
   _extract_features_from_slice getattr compute_derivative columns column s s1 s2 r
   = _extract_features_from_slice getattr compute_derivative columns column s s1 s2 r').
Proof.
  intro H1. split; [intros channel x features; now apply block_default|].
  intros H0 H2. unfold _extract_features_from_slice.
  generalize (@nil value) as features.
  induction columns as [|c rest IH]; intro features; [reflexivity|].
  cbn [channels_loop].
  apply bind_cong; [now apply block_unknown|intro f0].
  apply bind_cong; [now apply block_unknown|intro f1].
  apply bind_cong; [now apply block_unknown|intro f2].
  apply IH.
Qed.

Lemma demo_without (keyword : name) (d : settings) :
  (forall n, In n (names_of d) ->
     n = "signal_max"%string \/
     (n = "signal_tmax"%string /\ keyword <> "sample_rate"%string)) ->
  without_parameter demo_getattr keyword d.
Proof.
  intros H n func Hn Hg. destruct (H n Hn) as [->|[-> Hk]].
  - injection Hg as <-. simpl. tauto.
  - injection Hg as <-. simpl. intros [E|[]]. now apply Hk.
Qed.

Lemma derivative_features_ignore_sample_rate_witness :
  without_parameter demo_getattr "sampling_rate"%string demo_settings_d1 /\
  block demo_getattr demo_settings_d1 "AU01_r"%string
    (demo_derivative (demo_column "AU01_r"%string)) [("sampling_rate"%string, 25)] []
  = block demo_getattr demo_settings_d1 "AU01_r"%string
      (demo_derivative (demo_column "AU01_r"%string)) [] [].
Proof.
  assert (H1 : without_parameter demo_getattr "sampling_rate"%string demo_settings_d1).
  { apply demo_without. simpl. intros n [<-|[<-|[]]]; [now left|right].
    split; [reflexivity|discriminate]. }
  split; [exact H1|].
  exact (proj1 (@derivative_features_ignore_sample_rate _ _ demo_getattr demo_derivative
                  demo_columns demo_column demo_settings demo_settings_d1
                  demo_settings_d2 25 1000 H1)
               "AU01_r"%string (demo_derivative (demo_column "AU01_r"%string)) []).
Defined.

End FeatureFacts.

(** ** The range of a normalised adjacency frame *)

Module NormalizeFacts.
Import Np Float Adjacency Normalize.

Lemma column_mem_In (a : name) (l : list name) : mem a l = true <-> In a l.
Proof.
  unfold mem. rewrite existsb_exists. split.
  - intros [x [Hx He]]. apply String.eqb_eq in He. now subst.
  - intro H. exists a. split; [exact H|apply String.eqb_refl].
Qed.

Section Reduction.
Variable better : cell -> cell -> bool.
Variable R : Q -> Q -> Prop.
Hypothesis better_true : forall x y, better (Fin x) (Fin y) = true -> R x y.
Hypothesis better_false : forall x y, better (Fin x) (Fin y) = false -> R y x.
Hypothesis R_refl : forall x, R x x.
Hypothesis R_trans : forall x y z, R x y -> R y z -> R x z.

Lemma fold_pick (l : list cell) (m0 : Q) :
  (forall c, In c l -> exists q, c = Fin q) ->
  exists m,
    fold_left (pick better) l (Fin m0) = Fin m /\ R m m0 /\
    (forall q, In (Fin q) l -> R m q) /\ (m = m0 \/ In (Fin m) l).
Proof.
  revert m0; induction l as [|c l IH]; intros m0 Hfin.
  - exists m0. split; [reflexivity|]. split; [apply R_refl|].
    split; [intros q []|now left].
  - destruct (Hfin c (or_introl eq_refl)) as [q0 ->].
    assert (Hl : forall c, In c l -> exists q, c = Fin q)
      by (intros c Hc; apply Hfin; now right).
    cbn [fold_left pick]. destruct (better (Fin m0) (Fin q0)) eqn:E.
    + destruct (IH m0 Hl) as [m [Hm [Hm0 [Hall Hin]]]].
      exists m. split; [exact Hm|]. split; [exact Hm0|]. split.
      * intros q [[= <-]|Hq]; [|now apply Hall].
        eapply R_trans; [exact Hm0|now apply better_true].
      * destruct Hin as [->|Hin]; [now left|right; now right].
    + destruct (IH q0 Hl) as [m [Hm [Hm0 [Hall Hin]]]].
      exists m. split; [exact Hm|]. split.
      * eapply R_trans; [exact Hm0|now apply better_false].
      * split.
        -- intros q [[= <-]|Hq]; [exact Hm0|now apply Hall].
        -- right. destruct Hin as [->|Hin]; [now left|now right].
Qed.

Lemma reduce_finite (l : list cell) :
  l <> [] -> (forall c, In c l -> exists q, c = Fin q) ->
  exists m, reduce better l = Fin m /\ (forall q, In (Fin q) l -> R m q) /\
            In (Fin m) l.
Proof.
  destruct l as [|c l]; [congruence|]. intros _ Hfin.
  destruct (Hfin c (or_introl eq_refl)) as [q0 ->].
  destruct (@fold_pick l q0) as [m [Hm [Hm0 [Hall Hin]]]];
    [intros c Hc; apply Hfin; now right|].
  exists m. split; [exact Hm|]. split.
  - intros q [[= <-]|Hq]; [exact Hm0|now apply Hall].
  - destruct Hin as [->|Hin]; [now left|now right].
Qed.

Lemma column_cells_In (df : frame cell) (b : name) (c : cell) :
  In c (column_cells df b) <-> exists a, In a (columns df) /\ loc df a b = Some c.
Proof.
  unfold column_cells. rewrite in_flat_map. split.
  - intros [a [Ha Hc]]. exists a. split; [exact Ha|].
    destruct (loc df a b) as [c'|]; [|contradiction].
    destruct Hc as [->|[]]. reflexivity.
  - intros [a [Ha Hc]]. exists a. split; [exact Ha|]. rewrite Hc. now left.
Qed.

(** The reduction of a finite frame is a cell of the frame that is in
    relation [R] to every cell. *)
Lemma frame_reduce (df : frame cell) :
  columns df <> [] -> finite df ->
  exists m,
    reduce better (map (fun b => reduce better (column_cells df b)) (columns df))
    = Fin m /\
    (forall a b q, In a (columns df) -> In b (columns df) ->
                   loc df a b = Some (Fin q) -> R m q) /\
    (exists a b, In a (columns df) /\ In b (columns df) /\ loc df a b = Some (Fin m)).
Proof.
  intros Hne Hfin.
  assert (Hcol : forall b, In b (columns df) ->
            exists m, reduce better (column_cells df b) = Fin m /\
                      (forall q, In (Fin q) (column_cells df b) -> R m q) /\
                      In (Fin m) (column_cells df b)).
  { intros b Hb. apply reduce_finite.
    - destruct (columns df) as [|a0 l] eqn:E; [congruence|].
      destruct (Hfin a0 b) as [q Hq];
        [apply column_mem_In; rewrite E; now left|apply column_mem_In; now rewrite E|].
      intro Hnil.
      assert (Hin : In (Fin q) (column_cells df b)).
      { apply column_cells_In. exists a0. split; [rewrite E; now left|exact Hq]. }
      rewrite Hnil in Hin. contradiction.
    - intros c Hc. apply column_cells_In in Hc. destruct Hc as [a [Ha Hc]].
      destruct (Hfin a b) as [q Hq]; [now apply column_mem_In|now apply column_mem_In|].
      exists q. congruence. }
  destruct (@reduce_finite
              (map (fun b => reduce better (column_cells df b)) (columns df)))
    as [m [Hm [Hall Hin]]].
  - destruct (columns df); [congruence|discriminate].
  - intros c Hc. apply in_map_iff in Hc. destruct Hc as [b [<- Hb]].
    destruct (Hcol b Hb) as [mb [Hmb _]]. now exists mb.
  - exists m. split; [exact Hm|]. split.
    + intros a b q Ha Hb Hq. destruct (Hcol b Hb) as [mb [Hmb [Hallb _]]].
      apply R_trans with mb.
      * apply Hall. apply in_map_iff. exists b. split; [exact Hmb|exact Hb].
      * apply Hallb. apply column_cells_In. now exists a.
    + apply in_map_iff in Hin. destruct Hin as [b [Hb Hbin]].
      destruct (Hcol b Hbin) as [mb [Hmb [_ Hinb]]].
      rewrite Hmb in Hb. injection Hb as ->.
      apply column_cells_In in Hinb. destruct Hinb as [a [Ha Hc]].
      now exists a, b.
Qed.

End Reduction.

(** X22. For a frame with at least one Action Unit whose cells are all
    finite numbers, [normalize_adj] works with the smallest cell [lo]
    and the largest cell [hi] of the frame.  If they differ, every cell
    of the result is a finite number between 0 and 1, the smallest cells
    become 0 and the largest 1.  If all cells are equal, every cell of
    the result is NaN. *)
Theorem normalize_adj_range (df : frame cell) :
  columns df <> [] -> finite df ->
  exists lo hi,
    min_min df = Fin lo /\ max_max df = Fin hi /\
    (exists a b, In a (columns df) /\ In b (columns df) /\
                 loc df a b = Some (Fin lo)) /\
    (exists a b, In a (columns df) /\ In b (columns df) /\
                 loc df a b = Some (Fin hi)) /\
    forall a b q, In a (columns df) -> In b (columns df) ->
      loc df a b = Some (Fin q) ->
      (lo <= q <= hi)%Q /\
      ((lo < hi)%Q ->
       exists q', loc (normalize_adj df) a b = Some (Fin q') /\
                  (0 <= q' <= 1)%Q /\
                  ((q == lo)%Q -> (q' == 0)%Q) /\ ((q == hi)%Q -> (q' == 1)%Q)) /\
      ((lo == hi)%Q -> loc (normalize_adj df) a b = Some NaN).
Proof.
  intros Hne Hfin.
  destruct (@frame_reduce smaller Qle) with (df := df) as [lo [Hlo [Hlo_all Hlo_in]]];
    try assumption.
  { intros x y H. now apply Qle_bool_iff. }
  { intros x y H. unfold smaller, cell_le in H.
    destruct (Qlt_le_dec y x) as [Hlt|Hle]; [now apply Qlt_le_weak|].
    apply Qle_bool_iff in Hle. congruence. }
  { apply Qle_refl. }
  { apply Qle_trans. }
  destruct (@frame_reduce larger (fun x y => Qle y x)) with (df := df)
    as [hi [Hhi [Hhi_all Hhi_in]]]; try assumption.
  { intros x y H. now apply Qle_bool_iff. }
  { intros x y H. unfold larger, cell_le in H.
    destruct (Qlt_le_dec x y) as [Hlt|Hle]; [now apply Qlt_le_weak|].
    apply Qle_bool_iff in Hle. congruence. }
  { intro x. apply Qle_refl. }
  { intros x y z Hxy Hyz. eapply Qle_trans; eauto. }
  exists lo, hi. split; [exact Hlo|]. split; [exact Hhi|].
  split; [exact Hlo_in|]. split; [exact Hhi_in|].
  intros a b q Ha Hb Hq.
  pose proof (Hlo_all a b q Ha Hb Hq) as Hl.
  pose proof (Hhi_all a b q Ha Hb Hq) as Hh. simpl in Hh.
  split; [split; assumption|].
  assert (Hcell : loc (normalize_adj df) a b
                  = Some (div (Fin (q - lo)) (Fin (hi - lo)))).
  { cbn [normalize_adj loc]. rewrite Hq. cbn [option_map].
    unfold min_min, max_max. rewrite Hlo, Hhi. reflexivity. }
  split.
  - intro Hlt. exists ((q - lo) / (hi - lo))%Q.
    assert (Hd : Qeq_bool (hi - lo) 0 = false).
    { destruct (Qeq_bool (hi - lo) 0) eqn:E; [|reflexivity].
      apply Qeq_bool_iff in E. lra. }
    split; [rewrite Hcell; cbn [div]; now rewrite Hd|].
    split; [split|split].
    + apply Qle_shift_div_l; lra.
    + apply Qle_shift_div_r; lra.
    + intro E. assert (E0 : (q - lo == 0)%Q) by lra.
      unfold Qdiv. rewrite E0. apply Qmult_0_l.
    + intro E. assert (E0 : (q - lo == hi - lo)%Q) by lra.
      unfold Qdiv. rewrite E0. apply Qmult_inv_r. lra.
  - intro E. rewrite Hcell. cbn [div].
    assert (Hd : Qeq_bool (hi - lo) 0 = true) by (apply Qeq_bool_iff; lra).
    assert (Hn : Qeq_bool (q - lo) 0 = true) by (apply Qeq_bool_iff; lra).
    now rewrite Hd, Hn.
Qed.

Lemma normalize_adj_range_witness :
  (columns demo_adj <> [] /\ finite demo_adj) /\
  exists lo hi, min_min demo_adj = Fin lo /\ max_max demo_adj = Fin hi.
Proof.
  assert (Hne : columns demo_adj <> []) by discriminate.
  assert (Hfin : finite demo_adj).
  { intros a b Ha Hb. cbn [demo_adj columns loc] in *. rewrite Ha, Hb.
    eexists. reflexivity. }
  split; [split; [exact Hne|exact Hfin]|].
  destruct (normalize_adj_range Hne Hfin) as [lo [hi [Hlo [Hhi _]]]].
  exists lo, hi. split; [exact Hlo|exact Hhi].
Defined.

End NormalizeFacts.

(** ** The video labels have no hole *)

Module VideoLabelFacts.
Import Np NpFacts VideoLabels KFoldFacts.

Lemma indexed_nth A B (g : Z * A -> B) (l : list A) (k i : nat) :
  nth_error (map g (combine (map Z.of_nat (seq k (length l))) l)) i
  = option_map (fun old => g (Z.of_nat (k + i), old)) (nth_error l i).
Proof.
  revert k i; induction l as [|a l IH]; intros k i; [now destruct i|].
  destruct i as [|i]; simpl.
  - now rewrite Nat.add_0_r.
  - rewrite IH. now replace (S k + i)%nat with (k + S i)%nat by lia.
Qed.

Lemma assign_slice_length (lv : list label) (start stop : Z) (v : label) :
  length (assign_slice lv start stop v) = length lv.
Proof.
  unfold assign_slice. cbv zeta.
  now rewrite length_map, length_combine, length_map, length_seq, Nat.min_id.
Qed.

Lemma assign_slice_get (lv : list label) (start stop : Z) (v : label) (j : Z) :
  0 <= j ->
  get (assign_slice lv start stop v) j
  = option_map (fun old => if (bound (Z.of_nat (length lv)) start <=? j)
                              && (j <? bound (Z.of_nat (length lv)) stop)
                           then v else old)
               (get lv j).
Proof.
  intro Hj. unfold get. destruct (Z.ltb_spec j 0) as [|_]; [lia|].
  unfold assign_slice. cbv zeta. rewrite indexed_nth. cbn [fst snd plus].
  now rewrite Z2Nat.id by exact Hj.
Qed.

Section Resampling.
Variable round_scaled : Z -> Z.
Variable is_endidx : Z -> bool.

Lemma start_after_end (x : Z) :
  start_after round_scaled is_endidx x = end_of round_scaled is_endidx x + 1.
Proof. unfold start_after, end_of. destruct (is_endidx x); lia. Qed.

Lemma chain_eq (xs : list Z) (start last_end : Z) (ls : list Z) :
  combine (combine (start :: map (start_after round_scaled is_endidx) xs)
                   (map (end_of round_scaled is_endidx) xs ++ [last_end]))
          ls
  = chain round_scaled is_endidx start xs last_end ls.
Proof.
  revert start ls; induction xs as [|x xs IH]; intros start ls.
  - now destruct ls.
  - destruct ls as [|l ls]; [reflexivity|].
    cbn [map app combine chain]. f_equal. apply IH.
Qed.

(** One pass of the loop body keeps the labelled frames a prefix. *)
Lemma assign_keeps_prefix (labels : list Z) (lv : list label) (m start end_idx l : Z) :
  labelled_to labels lv m -> 0 <= start <= m -> -1 <= end_idx -> In l labels ->
  labelled_to labels (assign_slice lv start (end_idx + 1) (Some l))
              (Z.max m (end_idx + 1)).
Proof.
  intros [Hlab Hnan] Hs He Hl. unfold labelled_to.
  rewrite assign_slice_length. set (len := Z.of_nat (length lv)) in *.
  assert (Hb1 : bound len start = Z.min start len).
  { unfold bound. destruct (Z.ltb_spec start 0); [lia|reflexivity]. }
  assert (Hb2 : bound len (end_idx + 1) = Z.min (end_idx + 1) len).
  { unfold bound. destruct (Z.ltb_spec (end_idx + 1) 0); [lia|reflexivity]. }
  split.
  - intros j Hj Hlen. rewrite assign_slice_get by lia. fold len. rewrite Hb1, Hb2.
    destruct (@get_in_range _ lv j) as [old Hold]; [fold len; lia|]. rewrite Hold.
    cbn [option_map].
    destruct ((Z.min start len <=? j) && (j <? Z.min (end_idx + 1) len)) eqn:E.
    + exists l. split; [reflexivity|exact Hl].
    + destruct (Z_lt_le_dec j m) as [Hjm|Hjm].
      * destruct (Hlab j) as [l' [Hl' Hin]]; [lia|lia|]. exists l'.
        split; [congruence|exact Hin].
      * exfalso. apply andb_false_iff in E.
        destruct E as [E|E]; [apply Z.leb_gt in E|apply Z.ltb_ge in E]; lia.
  - intros j Hj. rewrite assign_slice_get by lia. fold len. rewrite Hb1, Hb2.
    rewrite (Hnan j) by lia. cbn [option_map].
    destruct ((Z.min start len <=? j) && (j <? Z.min (end_idx + 1) len)) eqn:E;
      [|reflexivity].
    apply andb_true_iff in E. destruct E as [_ E]. apply Z.ltb_lt in E. lia.
Qed.

Lemma fill_chain (labels : list Z) (n : nat) (last_end : Z) (xs : list Z) :
  0 <= last_end -> (forall x, In x xs -> 0 <= round_scaled x) ->
  forall (start : Z) (ls : list Z) (lv : list label) (m : Z),
    length ls = S (length xs) -> (forall l, In l ls -> In l labels) ->
    length lv = n -> labelled_to labels lv m -> 0 <= start <= m ->
    exists m',
      m <= m' /\
      length (fill (Z.of_nat n) (chain round_scaled is_endidx start xs last_end ls) lv)
      = n /\
      labelled_to labels
        (fill (Z.of_nat n) (chain round_scaled is_endidx start xs last_end ls) lv) m' /\
      (Z.of_nat n - 1 <= last_end -> Z.of_nat n <= m').
Proof.
  intros Hlast. induction xs as [|x xs IH]; intros Hxs start ls lv m Hls Hin Hlen Hinv Hs.
  - destruct ls as [|l ls]; [discriminate|]. cbn [chain fill].
    assert (Hfin : labelled_to labels (assign_slice lv start (last_end + 1) (Some l))
                     (Z.max m (last_end + 1))).
    { apply assign_keeps_prefix; [exact Hinv|exact Hs|lia|apply Hin; now left]. }
    exists (Z.max m (last_end + 1)).
    destruct (last_end >=? Z.of_nat n - 1);
      (split; [lia|]; split; [now rewrite assign_slice_length|];
       split; [exact Hfin|lia]).
  - destruct ls as [|l ls]; [discriminate|]. cbn [chain fill].
    set (e := end_of round_scaled is_endidx x).
    assert (He : -1 <= e).
    { unfold e, end_of. pose proof (Hxs x (or_introl eq_refl)).
      destruct (is_endidx x); lia. }
    assert (Hstep : labelled_to labels (assign_slice lv start (e + 1) (Some l))
                      (Z.max m (e + 1))).
    { apply assign_keeps_prefix; [exact Hinv|exact Hs|exact He|apply Hin; now left]. }
    destruct (Z.geb_spec e (Z.of_nat n - 1)) as [Hbreak|Hgo].
    + exists (Z.max m (e + 1)). split; [lia|].
      split; [now rewrite assign_slice_length|]. split; [exact Hstep|lia].
    + destruct (IH (fun y Hy => Hxs y (or_intror Hy)) (start_after round_scaled is_endidx x)
                  ls (assign_slice lv start (e + 1) (Some l)) (Z.max m (e + 1)))
        as [m' [Hm' [Hlen' [Hinv' Hfull]]]].
      * simpl in Hls. lia.
      * intros l' Hl'. apply Hin. now right.
      * now rewrite assign_slice_length.
      * exact Hstep.
      * rewrite start_after_end. fold e. lia.
      * exists m'. split; [lia|]. split; [exact Hlen'|]. split; assumption.
Qed.

End Resampling.

Lemma change_points_range (labels : list Z) (x : Z) :
  In x (change_points labels) -> 0 <= x /\ x + 1 < Z.of_nat (length labels).
Proof.
  unfold change_points. intro H. apply nonzero_In in H. destruct H as [H0 H].
  split; [exact H0|].
  assert (Hn : nth_error (zip_with (fun a b => negb (b - a =? 0)) labels (tl labels))
                         (Z.to_nat x) <> None) by congruence.
  apply nth_error_Some in Hn. rewrite zip_with_length in Hn.
  destruct labels as [|a t]; cbn [tl length] in *; lia.
Qed.

Lemma nan_frames (n : nat) (j : Z) :
  0 <= j < Z.of_nat n -> get (repeat (@None Z) n) j = Some None.
Proof.
  intro Hj. unfold get. destruct (Z.ltb_spec j 0) as [|_]; [lia|].
  apply nth_error_repeat. lia.
Qed.

(** X23. For label recordings of two samples and more, and whatever the
    float rounding of the change of rate gives as long as it gives no
    negative frame, the video labels are produced and have one cell for
    every frame of the video; the frames carrying a label of the
    recording are a prefix of them and NaN stands only behind it, so there
    is no NaN hole between labelled frames.  If the rounded end of the
    recording reaches the last frame of the video, no frame is NaN. *)
Theorem video_labels_nan_only_at_end (round_scaled : Z -> Z) (is_endidx : Z -> bool)
    (labels : list Z) (nof_samples_video : nat) :
  (forall x, 0 <= x -> 0 <= round_scaled x) ->
  (2 <= length labels)%nat ->
  exists labels_video m,
    generate_subject_video_labels round_scaled is_endidx labels nof_samples_video
    = Some labels_video /\
    length labels_video = nof_samples_video /\ 0 <= m /\
    labelled_to labels labels_video m /\
    (Z.of_nat nof_samples_video - 1 <= round_scaled (Z.of_nat (length labels)) ->
     Z.of_nat nof_samples_video <= m).
Proof.
  intros Hround Hlen. unfold generate_subject_video_labels.
  assert (Hhas : has_length labels = true).
  { destruct labels as [|a [|b t]]; simpl in Hlen; try lia. reflexivity. }
  rewrite Hhas. unfold interval_labels.
  destruct (@get_in_range _ labels 0) as [first Hfirst]; [lia|]. rewrite Hfirst.
  cbn [bind].
  destruct (@take_total _ labels (map (fun idx_end => idx_end + 1) (change_points labels)))
    as [rest [Hrest Hrest_len]].
  { intros i Hi. apply in_map_iff in Hi. destruct Hi as [x [<- Hx]].
    apply change_points_range in Hx. lia. }
  rewrite Hrest. cbn [bind]. unfold idxs_start, idxs_end. rewrite chain_eq.
  destruct (@fill_chain round_scaled is_endidx labels nof_samples_video
              (round_scaled (Z.of_nat (length labels))) (change_points labels))
    with (start := 0) (ls := first :: rest) (lv := repeat (@None Z) nof_samples_video)
         (m := 0)
    as [m [Hm [Hl [Hinv Hfull]]]].
  - apply Hround. lia.
  - intros x Hx. apply Hround. now apply change_points_range in Hx.
  - simpl. now rewrite Hrest_len, length_map.
  - intros l [<-|Hl].
    + change 0 with (Z.of_nat 0) in Hfirst. rewrite get_of_nat in Hfirst.
      eapply nth_error_In; exact Hfirst.
    + apply (take_In _ _ l Hrest) in Hl. destruct Hl as [i [_ Hg]].
      unfold get in Hg. destruct (i <? 0); [discriminate|].
      eapply nth_error_In; eauto.
  - apply repeat_length.
  - split; [intros j Hj; lia|].
    intros j Hj. rewrite repeat_length in Hj. now apply nan_frames.
  - lia.
  - eexists; exists m. split; [reflexivity|]. split; [exact Hl|].
    split; [lia|]. split; [exact Hinv|exact Hfull].
Qed.

Lemma video_labels_nan_only_at_end_witness :
  ((forall x, 0 <= x -> 0 <= demo_round x) /\ (2 <= length demo_bio_labels)%nat) /\
  exists labels_video,
    generate_subject_video_labels demo_round demo_is_endidx demo_bio_labels 12
    = Some labels_video /\
    length labels_video = 12%nat.
Proof.
  assert (H1 : forall x, 0 <= x -> 0 <= demo_round x).
  { intros x Hx. unfold demo_round.
    assert (Hq : 0 <= x / 40) by (apply Z.div_pos; lia).
    destruct (x mod 40 <? 20); [exact Hq|].
    destruct (20 <? x mod 40); [lia|].
    destruct (Z.even (x / 40)); lia. }
  assert (H2 : (2 <= length demo_bio_labels)%nat) by (simpl; lia).
  split; [split; [exact H1|exact H2]|].
  destruct (@video_labels_nan_only_at_end demo_round demo_is_endidx demo_bio_labels 12
              H1 H2) as [lv [m [Hlv [Hlen _]]]].
  exists lv. split; [exact Hlv|exact Hlen].
Defined.

End VideoLabelFacts.
